(** * Graceful termination examples: a model of the three Go programs

    The repository holds three variants of one small HTTP service:

    - [go/wrong-simply/main.go]: the handler dispatches background jobs and
      nothing waits for them; SIGINT has its default disposition;
    - the simple graceful variant: [sync.WaitGroup] plus [wg.Wait()];
    - the graceful variant with a grace period: the wait is raced against a
      timer in a [select].

    The programs are concurrent, so each is embedded as a labelled transition
    system: a [state] records every goroutine's position, [step] executes one
    atomic action of one goroutine (or of the environment: a clock tick, a
    signal, an incoming request) and returns [None] when that action is not
    enabled.  An execution is a list of events accepted by [exec]; the
    scheduler and the environment are whoever chooses the list.  Time is
    counted in seconds.

    What is taken from the Go runtime and libraries rather than from the three
    files:

    - [signal.Notify] relays a signal with a non-blocking send; before it is
      called SIGINT and SIGTERM end the program;
    - [http.Server.Shutdown] closes the listener, returns the close error once
      every connection is idle, and [ctx.Err()] once its context is done;
      [ListenAndServe] then returns [http.ErrServerClosed];
    - net/http buffers the short response of the handler until the handler
      returns, and recovers a panic of the handler;
    - [context.WithTimeout] closes [Done()] at the deadline or at the first
      call of the cancel function, whichever comes first; a timer fires at its
      deadline or later; a [select] takes any case that is ready;
    - [WaitGroup.Add] panics on a negative counter; a panic in a goroutine
      runs its deferred calls and then ends the program with code 2.

    The statements of [slowJob] cannot panic as written; the event [JPanic]
    is there to follow the deferred [wg.Done] along that way out as well.
    The goroutine of [mockRequestAndTermination] acts on the process in three
    ways: its request and its signal are the events [Req] and [Sig], which
    any other client or the operator can cause as well, and the panic after a
    refused [http.Get] is the event [GetRefused].  The closed system further
    down runs the process with this goroutine spelled out, statement by
    statement, and nobody else. *)

From Stdlib Require Import List ZArith Lia Bool String Arith.
Import ListNotations.
Local Open Scope list_scope.

(** ** Data *)

(** The three [main.go] files. *)
Inductive variant := WrongSimply | GracefulSimple | GracefulTimeout.

(** The two signals the programs name ([syscall.SIGTERM], [syscall.SIGINT]). *)
Inductive signal := SIGINT | SIGTERM.

(** Durations of [main]: the 5 second timeout of [ctxShutDown], the local
    [gracePeriod], and the capacity given to [make(chan os.Signal)]. *)
Record config := {
  drainDeadline : nat;
  gracePeriod : nat;
  sigChanCap : nat
}.

(** The values written in the source: [5*time.Second], [30 * time.Second] and
    an unbuffered channel. *)
Definition src_config : config :=
  {| drainDeadline := 5; gracePeriod := 30; sigChanCap := 0 |}.

(** [time.Hour], in seconds. *)
Definition Hour : nat := 3600.

(** Lines written by [logServer]. *)
Inductive logev :=
| LSrvStarting        (* "http server starting" *)
| LListenFailed       (* "listen failed %s" *)
| LSrvShutdown        (* "http server shutdown" *)
| LHTTPDown           (* "HTTP server shut down" (wrong-simply) *)
| LReceived (s : signal)  (* "received signal %q" *)
| LWaitingShutdown    (* "waiting for shutdown to be initiated" *)
| LShutdownFailed     (* "http server shutdown failed, %s" *)
| LWaitingJobs        (* "waiting jobs to finish" *)
| LJobsFinished       (* "jobs have finished" *)
| LWaitTimeout        (* "wait jobs to finish timeout" *)
| LExiting            (* "http server is exiting" *)
| LJobStart (name : string)   (* "starting job %q at %s" *)
| LJobFinish (name : string). (* "finished job %q at %s" *)

(** How the process ended: [os.Exit(code)] or return from [main] (code 0), an
    unrecovered panic (code 2), or the default disposition of a signal. *)
Inductive status := Running | Exited (code : Z) | Killed (s : signal).

(** *** sync.WaitGroup *)

(** [Add] panics when the counter would become negative. *)
Definition wg_Add (delta c : Z) : option Z :=
  if (c + delta <? 0)%Z then None else Some (c + delta)%Z.

Definition wg_Done (c : Z) : option Z := wg_Add (-1) c.

(** *** math/rand *)

(** The stream of raw values behind [rand.Intn]; an exhausted stream yields 0. *)
Definition Intn (n : nat) (r : list nat) : nat * list nat :=
  match r with
  | [] => (0, [])
  | x :: r' => (x mod n, r')
  end.

(** *** context.WithTimeout *)

Inductive ctxerr := Canceled | DeadlineExceeded.

Record ctx := { cdeadline : nat; cerr : option ctxerr }.

(** [Done()] is closed exactly when [Err()] is set. *)
Definition ctx_done (c : ctx) : bool :=
  match cerr c with Some _ => true | None => false end.

(** A deadline that has already passed gives a context that is born done. *)
Definition WithTimeout (t d : nat) : ctx :=
  if Nat.eqb d 0 then {| cdeadline := t; cerr := Some DeadlineExceeded |}
  else {| cdeadline := t + d; cerr := None |}.

(** The cancel function keeps the first error. *)
Definition cancel (c : ctx) : ctx :=
  match cerr c with
  | Some _ => c
  | None => {| cdeadline := cdeadline c; cerr := Some Canceled |}
  end.

(** The timer behind [time.After]: its channel holds a value once fired. *)
Record timer := { tdeadline : nat; tfired : bool }.

(** *** The handler and its jobs *)

(** The duration argument of a [go h.slowJob(...)] statement. *)
Inductive durarg :=
| DurNone    (* slowJob(name): no duration parameter *)
| DurRand    (* time.Duration(1+rand.Intn(4)) * time.Second *)
| DurHour.   (* time.Hour *)

Inductive hstmt :=
| HWrite                            (* w.Write([]byte("job started")) *)
| HAdd (n : Z)                      (* h.wg.Add(n) *)
| HGo (name : string) (d : durarg). (* go h.slowJob(name, d) *)

(** [MyHandler.ServeHTTP], statement by statement. *)
Definition ServeHTTP (v : variant) : list hstmt :=
  match v with
  | WrongSimply =>
      [HWrite; HGo "job1"%string DurNone; HGo "job2"%string DurNone; HGo "job3"%string DurNone]
  | GracefulSimple =>
      [HWrite; HAdd 3; HGo "job1"%string DurNone; HGo "job2"%string DurNone; HGo "job3"%string DurNone]
  | GracefulTimeout =>
      [HWrite; HAdd 4; HGo "job1"%string DurRand; HGo "job2"%string DurRand;
       HGo "job3"%string DurRand; HGo "job4 very slow"%string DurHour]
  end.

Inductive jstmt :=
| JDeferDone     (* defer h.wg.Done() *)
| JLogStarting   (* logServer("starting job ...") *)
| JSleepArg      (* time.Sleep(dur) *)
| JSleepRand     (* time.Sleep(time.Duration(1+rand.Intn(4)) * time.Second) *)
| JLogFinished.  (* logServer("finished job ...") *)

(** [MyHandler.slowJob], statement by statement. *)
Definition slowJob (v : variant) : list jstmt :=
  match v with
  | WrongSimply => [JLogStarting; JSleepRand; JLogFinished]
  | GracefulSimple => [JDeferDone; JLogStarting; JSleepRand; JLogFinished]
  | GracefulTimeout => [JDeferDone; JLogStarting; JSleepArg; JLogFinished]
  end.

(** A handler goroutine: the statements it has run (newest first), the
    statements it still has to run, and whether it has returned (net/http then
    flushes the buffered response and the connection is idle). *)
Record hstate := {
  hdone : list hstmt;
  hrest : list hstmt;
  hret : bool
}.

(** A job goroutine: its arguments, the time of its [go] statement, the
    statements left, the number of deferred [wg.Done] calls, the wake-up time
    while asleep, and whether the goroutine is over. *)
Record job := {
  jname : string;
  jdur : nat;
  jborn : nat;
  jrest : list jstmt;
  jdefers : nat;
  jwake : option nat;
  jended : bool
}.

(** *** The goroutine of main and the server *)

(** Positions of [main]. *)
Inductive mpc :=
| PcStart                       (* entry of main *)
| PcServe                       (* wrong-simply: inside ListenAndServe *)
| PcNotify                      (* before make(chan os.Signal); signal.Notify *)
| PcRecv                        (* before sig := <-termChan *)
| PcParked                      (* blocked in <-termChan *)
| PcGotSig                      (* sig received, nothing logged yet *)
| PcReceived                    (* "received signal" logged *)
| PcLogged                      (* "waiting for shutdown" logged; before
                                   ctxShutDown and the call of Shutdown *)
| PcInShutdown (deadline : nat) (* inside httpServer.Shutdown(ctxShutDown) *)
| PcShutdownErr                 (* Shutdown returned an error: os.Exit(1) *)
| PcAfterShutdown               (* Shutdown returned nil *)
| PcArmed                       (* ctxJobs made and the waiter started *)
| PcSelect                      (* blocked in select *)
| PcWait                        (* blocked in wg.Wait() *)
| PcExiting                     (* before the last log line *)
| PcEnd.                        (* main returned *)

(** [httpServer.ListenAndServe()]. *)
Inductive srvstate :=
| SrvNone        (* not called yet *)
| SrvStarting    (* called, listener not bound yet *)
| SrvAccepting   (* in the accept loop *)
| SrvReturned.   (* returned http.ErrServerClosed *)

(** The goroutine [go func() { wg.Wait(); cancelJobs() }()]. *)
Inductive wstate := WNone | WWait | WCancel | WEnd.

Record state := {
  now : nat;
  rng : list nat;
  stat : status;
  mainpc : mpc;
  sig : option signal;
  notified : bool;
  termChan : list signal;
  srv : srvstate;
  inShutdown : bool;
  handlers : list hstate;
  jobs : list job;
  wg : Z;
  ctxJobs : option ctx;
  afterT : option timer;
  waiter : wstate;
  log : list logev   (* newest line first *)
}.

Definition init (r : list nat) : state :=
  {| now := 0; rng := r; stat := Running; mainpc := PcStart; sig := None;
     notified := false; termChan := []; srv := SrvNone; inShutdown := false;
     handlers := []; jobs := []; wg := 0%Z; ctxJobs := None; afterT := None;
     waiter := WNone; log := [] |}.

(** Field updates. *)
Definition set_now x st := {| now := x; rng := rng st; stat := stat st; mainpc := mainpc st; sig := sig st; notified := notified st; termChan := termChan st; srv := srv st; inShutdown := inShutdown st; handlers := handlers st; jobs := jobs st; wg := wg st; ctxJobs := ctxJobs st; afterT := afterT st; waiter := waiter st; log := log st |}.
Definition set_rng x st := {| now := now st; rng := x; stat := stat st; mainpc := mainpc st; sig := sig st; notified := notified st; termChan := termChan st; srv := srv st; inShutdown := inShutdown st; handlers := handlers st; jobs := jobs st; wg := wg st; ctxJobs := ctxJobs st; afterT := afterT st; waiter := waiter st; log := log st |}.
Definition set_stat x st := {| now := now st; rng := rng st; stat := x; mainpc := mainpc st; sig := sig st; notified := notified st; termChan := termChan st; srv := srv st; inShutdown := inShutdown st; handlers := handlers st; jobs := jobs st; wg := wg st; ctxJobs := ctxJobs st; afterT := afterT st; waiter := waiter st; log := log st |}.
Definition set_pc x st := {| now := now st; rng := rng st; stat := stat st; mainpc := x; sig := sig st; notified := notified st; termChan := termChan st; srv := srv st; inShutdown := inShutdown st; handlers := handlers st; jobs := jobs st; wg := wg st; ctxJobs := ctxJobs st; afterT := afterT st; waiter := waiter st; log := log st |}.
Definition set_sig x st := {| now := now st; rng := rng st; stat := stat st; mainpc := mainpc st; sig := x; notified := notified st; termChan := termChan st; srv := srv st; inShutdown := inShutdown st; handlers := handlers st; jobs := jobs st; wg := wg st; ctxJobs := ctxJobs st; afterT := afterT st; waiter := waiter st; log := log st |}.
Definition set_notified x st := {| now := now st; rng := rng st; stat := stat st; mainpc := mainpc st; sig := sig st; notified := x; termChan := termChan st; srv := srv st; inShutdown := inShutdown st; handlers := handlers st; jobs := jobs st; wg := wg st; ctxJobs := ctxJobs st; afterT := afterT st; waiter := waiter st; log := log st |}.
Definition set_termChan x st := {| now := now st; rng := rng st; stat := stat st; mainpc := mainpc st; sig := sig st; notified := notified st; termChan := x; srv := srv st; inShutdown := inShutdown st; handlers := handlers st; jobs := jobs st; wg := wg st; ctxJobs := ctxJobs st; afterT := afterT st; waiter := waiter st; log := log st |}.
Definition set_srv x st := {| now := now st; rng := rng st; stat := stat st; mainpc := mainpc st; sig := sig st; notified := notified st; termChan := termChan st; srv := x; inShutdown := inShutdown st; handlers := handlers st; jobs := jobs st; wg := wg st; ctxJobs := ctxJobs st; afterT := afterT st; waiter := waiter st; log := log st |}.
Definition set_inShutdown x st := {| now := now st; rng := rng st; stat := stat st; mainpc := mainpc st; sig := sig st; notified := notified st; termChan := termChan st; srv := srv st; inShutdown := x; handlers := handlers st; jobs := jobs st; wg := wg st; ctxJobs := ctxJobs st; afterT := afterT st; waiter := waiter st; log := log st |}.
Definition set_handlers x st := {| now := now st; rng := rng st; stat := stat st; mainpc := mainpc st; sig := sig st; notified := notified st; termChan := termChan st; srv := srv st; inShutdown := inShutdown st; handlers := x; jobs := jobs st; wg := wg st; ctxJobs := ctxJobs st; afterT := afterT st; waiter := waiter st; log := log st |}.
Definition set_jobs x st := {| now := now st; rng := rng st; stat := stat st; mainpc := mainpc st; sig := sig st; notified := notified st; termChan := termChan st; srv := srv st; inShutdown := inShutdown st; handlers := handlers st; jobs := x; wg := wg st; ctxJobs := ctxJobs st; afterT := afterT st; waiter := waiter st; log := log st |}.
Definition set_wg x st := {| now := now st; rng := rng st; stat := stat st; mainpc := mainpc st; sig := sig st; notified := notified st; termChan := termChan st; srv := srv st; inShutdown := inShutdown st; handlers := handlers st; jobs := jobs st; wg := x; ctxJobs := ctxJobs st; afterT := afterT st; waiter := waiter st; log := log st |}.
Definition set_ctxJobs x st := {| now := now st; rng := rng st; stat := stat st; mainpc := mainpc st; sig := sig st; notified := notified st; termChan := termChan st; srv := srv st; inShutdown := inShutdown st; handlers := handlers st; jobs := jobs st; wg := wg st; ctxJobs := x; afterT := afterT st; waiter := waiter st; log := log st |}.
Definition set_afterT x st := {| now := now st; rng := rng st; stat := stat st; mainpc := mainpc st; sig := sig st; notified := notified st; termChan := termChan st; srv := srv st; inShutdown := inShutdown st; handlers := handlers st; jobs := jobs st; wg := wg st; ctxJobs := ctxJobs st; afterT := x; waiter := waiter st; log := log st |}.
Definition set_waiter x st := {| now := now st; rng := rng st; stat := stat st; mainpc := mainpc st; sig := sig st; notified := notified st; termChan := termChan st; srv := srv st; inShutdown := inShutdown st; handlers := handlers st; jobs := jobs st; wg := wg st; ctxJobs := ctxJobs st; afterT := afterT st; waiter := x; log := log st |}.

(** [logServer]: one more line. *)
Definition logServer (l : logev) st := {| now := now st; rng := rng st; stat := stat st; mainpc := mainpc st; sig := sig st; notified := notified st; termChan := termChan st; srv := srv st; inShutdown := inShutdown st; handlers := handlers st; jobs := jobs st; wg := wg st; ctxJobs := ctxJobs st; afterT := afterT st; waiter := waiter st; log := l :: log st |}.

(** [os.Exit(code)]. *)
Definition os_Exit (code : Z) st := set_stat (Exited code) st.

(** An unrecovered panic ends the program with code 2. *)
Definition crash st := set_stat (Exited 2) st.

Fixpoint upd_nth {A} (n : nat) (x : A) (l : list A) : list A :=
  match l, n with
  | [], _ => []
  | _ :: t, O => x :: t
  | a :: t, S k => a :: upd_nth k x t
  end.

(** ** Events *)

(** The two cases of the [select] in the grace-period variant. *)
Inductive selcase :=
| CaseDone    (* case <-ctxJobs.Done() *)
| CaseAfter.  (* case <-time.After(gracePeriod) *)

(** One atomic action of a goroutine, of the runtime or of the environment. *)
Inductive event :=
| Tick                           (* one second passes *)
| Sig (s : signal)               (* the OS delivers a signal to the process *)
| MainStep                       (* main runs up to its next log line or
                                    blocking call *)
| Listen (ok : bool)             (* ListenAndServe binds the address, or fails to *)
| AcceptErr                      (* the accept loop fails while serving *)
| ServeReturn                    (* the accept loop notices the shutdown *)
| Req                            (* a request is accepted: a handler goroutine starts *)
| HStep (h : nat)                (* handler h runs its next statement *)
| JStep (j : nat)                (* job j runs its next statement *)
| JPanic (j : nat)               (* the current statement of job j panics *)
| ShutdownReturn (lnerr : bool)  (* Shutdown sees every connection idle *)
| ShutdownTimeout                (* Shutdown sees ctxShutDown done *)
| WaiterStep                     (* the goroutine around wg.Wait runs *)
| TimerCtx                       (* the deadline timer of ctxJobs fires *)
| TimerAfter                     (* the timer of time.After fires *)
| Select (c : selcase)           (* the select takes a ready case *)
| GetRefused.                    (* http.Get of the client goroutine is
                                    refused: panic(err) *)

(** ** The transition function *)

Section Machine.

Variable v : variant.
Variable cfg : config.

(** A signal reaches the process.  Before [signal.Notify] the default
    disposition ends the program.  Afterwards package [signal] relays it with a
    non-blocking send: it is handed to a receiver blocked on the channel,
    buffered if there is room, and dropped otherwise. *)
Definition deliver (s : signal) (st : state) : state :=
  if notified st then
    match mainpc st with
    | PcParked => set_pc PcGotSig (set_sig (Some s) st)
    | _ =>
        if List.length (termChan st) <? sigChanCap cfg
        then set_termChan (termChan st ++ [s]) st
        else st
    end
  else set_stat (Killed s) st.

(** [main], step by step: each step runs up to the next log line or blocking
    call, so that whatever another goroutine does between two lines of main
    falls between two steps. *)
Definition main_step (st : state) : option state :=
  match mainpc st with
  | PcStart =>
      (* go mockRequestAndTermination(); then ListenAndServe, in a goroutine
         of its own in the graceful variants *)
      match v with
      | WrongSimply => Some (set_pc PcServe (set_srv SrvStarting st))
      | _ => Some (set_pc PcNotify (set_srv SrvStarting st))
      end
  | PcNotify =>
      (* termChan := make(chan os.Signal); signal.Notify(termChan, ...) *)
      Some (set_pc PcRecv (set_notified true (set_termChan [] st)))
  | PcRecv =>
      (* sig := <-termChan *)
      match termChan st with
      | s :: buf => Some (set_pc PcGotSig (set_sig (Some s) (set_termChan buf st)))
      | [] => Some (set_pc PcParked st)
      end
  | PcGotSig =>
      (* logServer("received signal %q", ...) *)
      match sig st with
      | Some s => Some (set_pc PcReceived (logServer (LReceived s) st))
      | None => None
      end
  | PcReceived =>
      (* logServer("waiting for shutdown to be initiated") *)
      Some (set_pc PcLogged (logServer LWaitingShutdown st))
  | PcLogged =>
      (* ctxShutDown, then the call of Shutdown, which marks the server as
         shutting down and closes the listener *)
      Some (set_pc (PcInShutdown (now st + drainDeadline cfg))
             (set_inShutdown true st))
  | PcAfterShutdown =>
      match v with
      | GracefulSimple =>
          (* log, then wg.Wait() *)
          Some (set_pc PcWait (logServer LWaitingJobs st))
      | GracefulTimeout =>
          (* ctxJobs, cancelJobs := context.WithTimeout(..., gracePeriod);
             go func() { wg.Wait(); cancelJobs() }() *)
          Some (set_pc PcArmed
                 (set_waiter WWait
                   (set_ctxJobs (Some (WithTimeout (now st) (gracePeriod cfg))) st)))
      | WrongSimply => None
      end
  | PcArmed =>
      (* log, then the select is entered and time.After(gracePeriod) starts
         its timer *)
      Some (set_pc PcSelect
             (set_afterT (Some {| tdeadline := now st + gracePeriod cfg; tfired := false |})
               (logServer LWaitingJobs st)))
  | PcWait =>
      (* wg.Wait() returns when the counter is zero *)
      if (wg st =? 0)%Z then Some (set_pc PcExiting (logServer LJobsFinished st))
      else None
  | PcExiting =>
      (* last log line; main returns *)
      Some (set_pc PcEnd (os_Exit 0 (logServer LExiting st)))
  | _ => None
  end.

(** [ListenAndServe] returned an error other than [http.ErrServerClosed]. *)
Definition listen_failed (st : state) : state :=
  match v with
  | WrongSimply => os_Exit 1 (logServer LHTTPDown st)
  | _ => os_Exit 1 (logServer LListenFailed st)
  end.

(** [ListenAndServe] returned [http.ErrServerClosed]. *)
Definition server_closed (st : state) : state :=
  match v with
  | WrongSimply => os_Exit 1 (logServer LHTTPDown st)
  | _ => set_srv SrvReturned (logServer LSrvShutdown st)
  end.

Definition listen_step (ok : bool) (st : state) : option state :=
  match srv st with
  | SrvStarting =>
      let st1 := match v with
                 | WrongSimply => st
                 | _ => logServer LSrvStarting st
                 end in
      Some (if inShutdown st1 then server_closed st1
            else if ok then set_srv SrvAccepting st1
            else listen_failed st1)
  | _ => None
  end.

Definition accept_err (st : state) : option state :=
  match srv st with
  | SrvAccepting => if inShutdown st then None else Some (listen_failed st)
  | _ => None
  end.

Definition serve_return (st : state) : option state :=
  match srv st with
  | SrvAccepting => if inShutdown st then Some (server_closed st) else None
  | _ => None
  end.

(** A request is accepted while the listener is open. *)
Definition req_step (st : state) : option state :=
  match srv st with
  | SrvAccepting =>
      if inShutdown st then None
      else Some (set_handlers
                  (handlers st ++ [{| hdone := []; hrest := ServeHTTP v; hret := false |}])
                  st)
  | _ => None
  end.

Definition new_job (name : string) (d t : nat) : job :=
  {| jname := name; jdur := d; jborn := t; jrest := slowJob v; jdefers := 0;
     jwake := None; jended := false |}.

(** [go h.slowJob(name, d)]: the arguments are evaluated by the handler. *)
Definition spawn (name : string) (d : durarg) (st : state) : state :=
  match d with
  | DurNone => set_jobs (jobs st ++ [new_job name 0 (now st)]) st
  | DurRand =>
      let (r, rest) := Intn 4 (rng st) in
      set_jobs (jobs st ++ [new_job name (1 + r) (now st)]) (set_rng rest st)
  | DurHour => set_jobs (jobs st ++ [new_job name Hour (now st)]) st
  end.

Definition h_ran (s : hstmt) (k : list hstmt) (hs : hstate) : hstate :=
  {| hdone := s :: hdone hs; hrest := k; hret := false |}.

Definition h_returned (hs : hstate) : hstate :=
  {| hdone := hdone hs; hrest := hrest hs; hret := true |}.

(** One statement of [ServeHTTP]; past the last one the handler returns.  A
    panic inside a handler is recovered by net/http, which drops the
    connection: the handler is over without running the rest. *)
Definition handler_step (h : nat) (st : state) : option state :=
  match nth_error (handlers st) h with
  | Some hs =>
      if hret hs then None else
      match hrest hs with
      | [] => Some (set_handlers (upd_nth h (h_returned hs) (handlers st)) st)
      | HWrite :: k =>
          Some (set_handlers (upd_nth h (h_ran HWrite k hs) (handlers st)) st)
      | HAdd n :: k =>
          match wg_Add n (wg st) with
          | Some c =>
              Some (set_wg c
                     (set_handlers (upd_nth h (h_ran (HAdd n) k hs) (handlers st)) st))
          | None => Some (set_handlers (upd_nth h (h_returned hs) (handlers st)) st)
          end
      | HGo name d :: k =>
          Some (spawn name d
                 (set_handlers (upd_nth h (h_ran (HGo name d) k hs) (handlers st)) st))
      end
  | None => None
  end.

(** The deferred [wg.Done] calls of a goroutine that is unwinding. *)
Fixpoint run_defers (n : nat) (c : Z) : option Z :=
  match n with
  | O => Some c
  | S k => match wg_Done c with
           | Some c' => run_defers k c'
           | None => None
           end
  end.

Definition job_next (k : list jstmt) (a : job) : job :=
  {| jname := jname a; jdur := jdur a; jborn := jborn a; jrest := k; jdefers := jdefers a;
     jwake := None; jended := false |}.

Definition job_defer (k : list jstmt) (a : job) : job :=
  {| jname := jname a; jdur := jdur a; jborn := jborn a; jrest := k; jdefers := S (jdefers a);
     jwake := None; jended := false |}.

Definition job_asleep (w : nat) (a : job) : job :=
  {| jname := jname a; jdur := jdur a; jborn := jborn a; jrest := jrest a; jdefers := jdefers a;
     jwake := Some w; jended := false |}.

Definition job_over (a : job) : job :=
  {| jname := jname a; jdur := jdur a; jborn := jborn a; jrest := []; jdefers := 0;
     jwake := None; jended := true |}.

(** The goroutine of job [j] is left, by return or by panic: its deferred
    calls run.  A [Done] that drives the counter negative panics in turn. *)
Definition job_exit (j : nat) (a : job) (st : state) : state :=
  let st1 := set_jobs (upd_nth j (job_over a) (jobs st)) st in
  match run_defers (jdefers a) (wg st) with
  | Some c => set_wg c st1
  | None => crash st1
  end.

(** [time.Sleep]: fall asleep, then wake up once the time has come. *)
Definition wake_up (j : nat) (a : job) (k : list jstmt) (w : nat) (st : state)
  : option state :=
  if w <=? now st
  then Some (set_jobs (upd_nth j (job_next k a) (jobs st)) st)
  else None.

(** One statement of [slowJob]. *)
Definition job_step (j : nat) (st : state) : option state :=
  match nth_error (jobs st) j with
  | Some a =>
      if jended a then None else
      match jrest a with
      | [] => Some (job_exit j a st)
      | JDeferDone :: k =>
          Some (set_jobs (upd_nth j (job_defer k a) (jobs st)) st)
      | JLogStarting :: k =>
          Some (logServer (LJobStart (jname a))
                 (set_jobs (upd_nth j (job_next k a) (jobs st)) st))
      | JSleepArg :: k =>
          match jwake a with
          | None =>
              Some (set_jobs (upd_nth j (job_asleep (now st + jdur a) a) (jobs st)) st)
          | Some w => wake_up j a k w st
          end
      | JSleepRand :: k =>
          match jwake a with
          | None =>
              let (r, rest) := Intn 4 (rng st) in
              Some (set_jobs (upd_nth j (job_asleep (now st + (1 + r)) a) (jobs st))
                     (set_rng rest st))
          | Some w => wake_up j a k w st
          end
      | JLogFinished :: k =>
          Some (logServer (LJobFinish (jname a))
                 (set_jobs (upd_nth j (job_next k a) (jobs st)) st))
      end
  | None => None
  end.

(** The statement job [j] is at panics: the goroutine unwinds, then the
    runtime ends the program.  A [defer] statement itself does not panic. *)
Definition job_panic (j : nat) (st : state) : option state :=
  match nth_error (jobs st) j with
  | Some a =>
      if jended a then None else
      match jrest a with
      | [] => None
      | JDeferDone :: _ => None
      | _ :: _ => Some (crash (job_exit j a st))
      end
  | None => None
  end.

(** [Shutdown] returned a non-nil error: log it and [os.Exit(1)]. *)
Definition shutdown_failed (st : state) : state :=
  os_Exit 1 (logServer LShutdownFailed (set_pc PcShutdownErr st)).

(** [Shutdown] returns the error of closing the listener, nil when [lnerr] is
    false.  The library returns it when every connection is idle, and a
    connection is not idle before its handler has returned: that every
    handler has returned is required here.  Connections as such are not
    modelled, so that a connection kept busy by its client without a handler
    running is not seen; what is proved of a nil return takes the return as
    given and never claims that it comes. *)
Definition shutdown_return (lnerr : bool) (st : state) : option state :=
  match mainpc st with
  | PcInShutdown _ =>
      if forallb hret (handlers st)
      then Some (if lnerr then shutdown_failed st else set_pc PcAfterShutdown st)
      else None
  | _ => None
  end.

(** [Shutdown] finds [ctxShutDown] done and returns [ctx.Err()]. *)
Definition shutdown_timeout (st : state) : option state :=
  match mainpc st with
  | PcInShutdown dl => if dl <=? now st then Some (shutdown_failed st) else None
  | _ => None
  end.

(** [wg.Wait(); cancelJobs()]. *)
Definition waiter_step (st : state) : option state :=
  match waiter st with
  | WWait => if (wg st =? 0)%Z then Some (set_waiter WCancel st) else None
  | WCancel =>
      Some (set_waiter WEnd (set_ctxJobs (option_map cancel (ctxJobs st)) st))
  | _ => None
  end.

Definition timer_ctx (st : state) : option state :=
  match ctxJobs st with
  | Some c =>
      if ctx_done c then None
      else if cdeadline c <=? now st
      then Some (set_ctxJobs (Some {| cdeadline := cdeadline c;
                                      cerr := Some DeadlineExceeded |}) st)
      else None
  | None => None
  end.

Definition timer_after (st : state) : option state :=
  match afterT st with
  | Some t =>
      if tfired t then None
      else if tdeadline t <=? now st
      then Some (set_afterT (Some {| tdeadline := tdeadline t; tfired := true |}) st)
      else None
  | None => None
  end.

(** The [select] of main takes a case whose channel is ready. *)
Definition select_step (c : selcase) (st : state) : option state :=
  match mainpc st with
  | PcSelect =>
      match c with
      | CaseDone =>
          match ctxJobs st with
          | Some x =>
              if ctx_done x
              then Some (set_pc PcExiting (logServer LJobsFinished st))
              else None
          | None => None
          end
      | CaseAfter =>
          match afterT st with
          | Some t =>
              if tfired t
              then Some (set_pc PcExiting (logServer LWaitTimeout st))
              else None
          | None => None
          end
      end
  | _ => None
  end.

(** The listener is open: a connection to the address is accepted. *)
Definition listening (st : state) : bool :=
  match srv st with
  | SrvAccepting => negb (inShutdown st)
  | _ => false
  end.

(** The goroutine of the client exists once main has run its [go]
    statement. *)
Definition started (pc : mpc) : bool :=
  match pc with PcStart => false | _ => true end.

(** [mockRequestAndTermination] sleeps a second and calls [http.Get]; when
    the listener is not open (not yet, or not any more) the connection is
    refused, [err] is not nil and [panic(err)] ends the program. *)
Definition get_refused (st : state) : option state :=
  if started (mainpc st) && (1 <=? now st) && negb (listening st)
  then Some (crash st)
  else None.

(** One event.  Nothing happens in a process that is over. *)
Definition step (e : event) (st : state) : option state :=
  match stat st with
  | Running =>
      match e with
      | Tick => Some (set_now (S (now st)) st)
      | Sig s => Some (deliver s st)
      | MainStep => main_step st
      | Listen ok => listen_step ok st
      | AcceptErr => accept_err st
      | ServeReturn => serve_return st
      | Req => req_step st
      | HStep h => handler_step h st
      | JStep j => job_step j st
      | JPanic j => job_panic j st
      | ShutdownReturn lnerr => shutdown_return lnerr st
      | ShutdownTimeout => shutdown_timeout st
      | WaiterStep => waiter_step st
      | TimerCtx => timer_ctx st
      | TimerAfter => timer_after st
      | Select c => select_step c st
      | GetRefused => get_refused st
      end
  | _ => None
  end.

(** An execution: the events are taken in order; [None] when one of them is
    not enabled. *)
Fixpoint exec (evs : list event) (st : state) : option state :=
  match evs with
  | [] => Some st
  | e :: es =>
      match step e st with
      | Some st' => exec es st'
      | None => None
      end
  end.

End Machine.

(** ** Runs *)

Definition ticks (n : nat) : list event := repeat Tick n.

(** Handler [h] runs [n] statements, job [j] runs [n] statements. *)
Definition hsteps (h n : nat) : list event := repeat (HStep h) n.
Definition jsteps (j n : nat) : list event := repeat (JStep j) n.

(** The state an execution ends in, for runs known to be accepted. *)
Definition final (v : variant) (cfg : config) (r : list nat) (evs : list event)
  : state :=
  match exec v cfg evs (init r) with
  | Some st => st
  | None => init r
  end.

(** What a test reads off a final state: exit status, counter, clock, the
    error of [ctxJobs] if it exists, and the log in the order written. *)
Definition observe (st : state)
  : status * Z * nat * option (option ctxerr) * list logev :=
  (stat st, wg st, now st, option_map cerr (ctxJobs st), rev (log st)).

(** The raw random values under the README runs: sleeps of 2, 4 and 4
    seconds in the grace-period variant, of 4, 2 and 4 in the others. *)
Definition readme_rng : list nat := [1; 3; 3].
Definition readme_rng' : list nat := [3; 1; 3].

(** What [mockRequestAndTermination] drives in the grace-period variant, as in
    the run printed in the README: a request after one second, SIGINT two
    seconds later, job1 over before the signal, job2 and job3 two seconds
    after it, and the grace period running out on job4. *)
Definition readme_timeout_run : list event :=
  [MainStep; Listen true; MainStep; MainStep] ++ ticks 1 ++
  [Req] ++ hsteps 0 7 ++
  jsteps 0 3 ++ jsteps 1 3 ++ jsteps 2 3 ++ jsteps 3 3 ++
  ticks 2 ++ jsteps 0 3 ++
  [Sig SIGINT; MainStep; MainStep; MainStep; ServeReturn;
   ShutdownReturn false; MainStep; MainStep] ++
  ticks 2 ++ jsteps 1 3 ++ jsteps 2 3 ++
  ticks 28 ++ [TimerAfter; Select CaseAfter; MainStep].

(** What the README prints for wrong-simply: the request after one second,
    SIGINT two seconds later, when only job2 is over. *)
Definition readme_wrong_run : list event :=
  [MainStep; Listen true] ++ ticks 1 ++
  [Req] ++ hsteps 0 5 ++
  jsteps 0 2 ++ jsteps 1 2 ++ jsteps 2 2 ++
  ticks 2 ++ jsteps 1 3 ++
  [Sig SIGINT].

(** The run printed for the simple graceful variant: job2 is over when the
    signal arrives, job1 and job3 two seconds later. *)
Definition readme_simple_run : list event :=
  [MainStep; Listen true; MainStep; MainStep] ++ ticks 1 ++
  [Req] ++ hsteps 0 6 ++
  jsteps 0 3 ++ jsteps 1 3 ++ jsteps 2 3 ++
  ticks 2 ++ jsteps 1 3 ++
  [Sig SIGINT; MainStep; MainStep; MainStep; ServeReturn;
   ShutdownReturn false; MainStep] ++
  ticks 2 ++ jsteps 2 3 ++ jsteps 0 3 ++
  [MainStep; MainStep].

(** ** Observations on main and on the log *)

(** How far [main] has come: 0 while running, 1 once a signal is taken and
    until Shutdown is called, 2 inside Shutdown, 3 after it, 4 and 5 in the
    wait for the jobs, 6 after it, 7 when main has returned. *)
Definition phase (pc : mpc) : nat :=
  match pc with
  | PcStart | PcServe | PcNotify | PcRecv | PcParked => 0
  | PcGotSig | PcReceived | PcLogged => 1
  | PcInShutdown _ => 2
  | PcShutdownErr | PcAfterShutdown => 3
  | PcArmed => 4
  | PcSelect | PcWait => 5
  | PcExiting => 6
  | PcEnd => 7
  end.

(** Whether main has run [signal.Notify]. *)
Definition past_notify (pc : mpc) : bool :=
  match pc with
  | PcStart | PcServe | PcNotify => false
  | _ => true
  end.

(** The same, statement by statement. *)
Definition progress (pc : mpc) : nat :=
  match pc with
  | PcStart | PcServe | PcNotify | PcRecv | PcParked => 0
  | PcGotSig => 1
  | PcReceived => 2
  | PcLogged => 3
  | PcInShutdown _ => 4
  | PcShutdownErr | PcAfterShutdown => 5
  | PcArmed => 6
  | PcSelect | PcWait => 7
  | PcExiting => 8
  | PcEnd => 9
  end.

(** The positions of main at which a given line can already be in the log. *)
Definition allowed (pc : mpc) (l : logev) : bool :=
  match l with
  | LReceived _ => 2 <=? progress pc
  | LWaitingShutdown => 3 <=? progress pc
  | LShutdownFailed => match pc with PcShutdownErr => true | _ => false end
  | LWaitingJobs => 5 <=? phase pc
  | LJobsFinished | LWaitTimeout => 6 <=? phase pc
  | LExiting => 7 <=? phase pc
  | _ => true
  end.

Definition is_received (l : logev) : bool :=
  match l with LReceived _ => true | _ => false end.

(** Shutdown sequences begun: each starts with the line "received signal". *)
Definition received_count (lg : list logev) : nat :=
  List.length (filter is_received lg).

Definition is_trigger (e : event) : bool :=
  match e with Sig _ => true | _ => false end.

(** Signals delivered in the course of an execution. *)
Definition triggers (evs : list event) : nat :=
  List.length (filter is_trigger evs).

Definition is_panic (e : event) : bool :=
  match e with JPanic _ => true | _ => false end.

Definition is_refused (e : event) : bool :=
  match e with GetRefused => true | _ => false end.

(** The events that end the process by a panic: a statement of a job
    panics, or the client goroutine panics on its refused [http.Get]. *)
Definition is_crash (e : event) : bool := is_panic e || is_refused e.

(** What holds of main, of the log and of the exit status in every reachable
    state. *)
Record main_inv (st : state) : Prop := {
  mi_err : mainpc st = PcShutdownErr -> stat st = Exited 1;
  mi_end : mainpc st = PcEnd -> stat st = Exited 0;
  mi_zero : stat st = Exited 0 -> mainpc st = PcEnd;
  mi_log : forallb (allowed (mainpc st)) (log st) = true;
  mi_recv : received_count (log st) = if 2 <=? progress (mainpc st) then 1 else 0;
  mi_fail : In LListenFailed (log st) \/ In LHTTPDown (log st) -> stat st = Exited 1;
  mi_result : 6 <= phase (mainpc st) ->
              In LJobsFinished (log st) \/ In LWaitTimeout (log st);
  mi_shut : inShutdown st = (2 <=? phase (mainpc st));
  mi_notified : notified st = past_notify (mainpc st);
  mi_sig : mainpc st = PcGotSig -> sig st <> None
}.

(** wrong-simply never leaves [ListenAndServe] and never calls
    [signal.Notify]. *)
Definition wrong_inv (st : state) : Prop :=
  (mainpc st = PcStart \/ mainpc st = PcServe) /\ notified st = false.

(** ** The account of the tracker *)

(** The variants that use the WaitGroup. *)
Definition registers (v : variant) : bool :=
  match v with WrongSimply => false | _ => true end.

(** Only requests, handlers and jobs touch the WaitGroup and the goroutines
    around it. *)
Definition touches_tracker (e : event) : bool :=
  match e with
  | Req | HStep _ | JStep _ | JPanic _ => true
  | _ => false
  end.

Definition is_go (s : hstmt) : bool :=
  match s with HGo _ _ => true | _ => false end.

Definition is_add (s : hstmt) : bool :=
  match s with HAdd _ => true | _ => false end.

Definition is_defer (s : jstmt) : bool :=
  match s with JDeferDone => true | _ => false end.

(** Units a handler has dispatched so far: the [go] statements it has run. *)
Definition dispatched (hs : hstate) : Z :=
  Z.of_nat (List.length (filter is_go (hdone hs))).

Fixpoint adds (k : list hstmt) : Z :=
  match k with
  | [] => 0
  | HAdd n :: k' => n + adds k'
  | _ :: k' => adds k'
  end.

(** Units a handler has registered so far: the [Add] calls it has run. *)
Definition registered (hs : hstate) : Z := adds (hdone hs).

(** Units registered by a handler and not dispatched yet. *)
Definition pending (hs : hstate) : Z := (registered hs - dispatched hs)%Z.

(** A job whose goroutine is not over counts for one. *)
Definition live (a : job) : Z := if jended a then 0%Z else 1%Z.

Definition over (a : job) : Z := if jended a then 1%Z else 0%Z.

Fixpoint sumZ {A} (f : A -> Z) (l : list A) : Z :=
  match l with
  | [] => 0
  | x :: t => f x + sumZ f t
  end.

(** All increments so far, and all units that are over. *)
Definition begun (st : state) : Z := sumZ registered (handlers st).
Definition ended (st : state) : Z := sumZ over (jobs st).


(** Every way of cutting a handler body into what has run (newest first) and
    what is left. *)
Fixpoint hsplits (done rest : list hstmt) : list (list hstmt * list hstmt) :=
  (done, rest) ::
  match rest with
  | [] => []
  | s :: k => hsplits (s :: done) k
  end.

(** Every suffix of a job body, with the number of [defer] statements run
    before it. *)
Fixpoint jsplits (d : nat) (rest : list jstmt) : list (list jstmt * nat) :=
  (rest, d) ::
  match rest with
  | [] => []
  | JDeferDone :: k => jsplits (S d) k
  | _ :: k => jsplits d k
  end.

(** A handler goroutine is somewhere in [ServeHTTP], and one that has returned
    holds no unit that is registered and not dispatched. *)
Definition hwf (v : variant) (hs : hstate) : Prop :=
  In (hdone hs, hrest hs) (hsplits [] (ServeHTTP v)) /\
  (hret hs = true -> pending hs = 0%Z).

(** A job goroutine is over or somewhere in [slowJob]. *)
Definition jwf (v : variant) (a : job) : Prop :=
  jended a = true \/ In (jrest a, jdefers a) (jsplits 0 (slowJob v)).

(** The tracker invariant: the counter is the number of units registered and
    not over, and every job was dispatched by a handler. *)
Definition tracker_inv (v : variant) (st : state) : Prop :=
  Forall (hwf v) (handlers st) /\
  Forall (jwf v) (jobs st) /\
  wg st = (sumZ pending (handlers st) + sumZ live (jobs st))%Z /\
  sumZ dispatched (handlers st) = Z.of_nat (List.length (jobs st)).

(** A handler never has more units dispatched than registered, and none is
    left to dispatch once it has returned. *)
Definition registered_first (hs : hstate) : Prop :=
  (dispatched hs <= registered hs)%Z /\
  (hret hs = true -> registered hs = dispatched hs).

(** In a handler body the one [Add] comes before every [go] statement and
    registers as many units as are dispatched after it. *)
Definition add_before_go (body : list hstmt) : Prop :=
  exists pre n gos,
    body = pre ++ HAdd n :: gos /\
    forallb (fun s => negb (is_go s)) pre = true /\
    forallb is_go gos = true /\
    n = Z.of_nat (List.length gos).

(** ** Jobs and the clock *)

Definition is_sleep (s : jstmt) : bool :=
  match s with JSleepArg | JSleepRand => true | _ => false end.

Definition is_sleeparg (s : jstmt) : bool :=
  match s with JSleepArg => true | _ => false end.

(** A job that sleeps for a random 1 to 4 seconds, seen at time [t]: it was
    dispatched by then; while its sleep is still ahead or going on, its
    wake-up time is later than its dispatch; past the sleep, and so when it is
    over, time has moved on since its dispatch. *)
Definition time_ok (t : nat) (a : job) : Prop :=
  jborn a <= t /\
  existsb is_sleeparg (jrest a) = false /\
  (jended a = true -> jborn a < t) /\
  (if existsb is_sleep (jrest a)
   then forall w, jwake a = Some w -> jborn a < w
   else jborn a < t).

Definition time_inv (st : state) : Prop :=
  stat st = Running -> Forall (time_ok (now st)) (jobs st).

(** ** Statements of the specification that the code does not meet, as
    predicates on the model, and the runs that refute them *)

(** The steps of main that start the wait for the jobs after [Shutdown]. *)
Definition wait_entry (v : variant) : list event :=
  match v with
  | GracefulTimeout => [MainStep; MainStep]
  | _ => [MainStep]
  end.

(** "Both phases always run": whenever [Shutdown] has returned, whatever it
    returned, the wait for the jobs is started sooner or later. *)
Definition both_phases_always_run (v : variant) (cfg : config) : Prop :=
  forall r evs st,
    exec v cfg evs (init r) = Some st ->
    3 <= phase (mainpc st) ->
    exists evs' st',
      exec v cfg evs' st = Some st' /\ In LWaitingJobs (log st').

(** A request in flight whose handler has not returned when the five seconds
    of [ctxShutDown] are over. *)
Definition drain_timeout_run : list event :=
  [MainStep; Listen true; MainStep; MainStep] ++ ticks 1 ++
  [Req; HStep 0; Sig SIGINT; MainStep; MainStep; MainStep; ServeReturn] ++
  ticks 5 ++
  [ShutdownTimeout].

(** Two signals between [signal.Notify] and the receive on [termChan]. *)
Definition early_triggers_run : list event :=
  [MainStep; MainStep; Sig SIGINT; Sig SIGTERM; MainStep].

(** One signal between [signal.Notify] and the receive on [termChan]. *)
Definition early_trigger_run : list event := [MainStep; MainStep; Sig SIGINT].

(** The README run of the grace-period variant, except that after the thirty
    seconds the deadline timer of [ctxJobs] is served first and the [select]
    takes the case of [ctxJobs.Done()]. *)
Definition grace_expired_run : list event :=
  [MainStep; Listen true; MainStep; MainStep] ++ ticks 1 ++
  [Req] ++ hsteps 0 7 ++
  jsteps 0 3 ++ jsteps 1 3 ++ jsteps 2 3 ++ jsteps 3 3 ++
  ticks 2 ++ jsteps 0 3 ++
  [Sig SIGINT; MainStep; MainStep; MainStep; ServeReturn;
   ShutdownReturn false; MainStep; MainStep] ++
  ticks 2 ++ jsteps 1 3 ++ jsteps 2 3 ++
  ticks 28 ++ [TimerCtx; Select CaseDone; MainStep].

(** ** States along the documented runs *)

(** wrong-simply: a request and its three jobs dispatched. *)
Definition dispatched_run : list event :=
  [MainStep; Listen true] ++ ticks 1 ++ [Req] ++ hsteps 0 4.


(** The grace-period variant inside [Shutdown], every handler returned. *)
Definition in_shutdown_run : list event :=
  [MainStep; Listen true; MainStep; MainStep] ++ ticks 1 ++
  [Req] ++ hsteps 0 7 ++
  jsteps 0 3 ++ jsteps 1 3 ++ jsteps 2 3 ++ jsteps 3 3 ++
  ticks 2 ++ jsteps 0 3 ++
  [Sig SIGINT; MainStep; MainStep; MainStep; ServeReturn].

(** The grace-period variant blocked in its [select], three jobs asleep. *)
Definition select_entered_run : list event :=
  in_shutdown_run ++ [ShutdownReturn false; MainStep; MainStep].

(** main blocked on [termChan], the server accepting. *)
Definition parked_run : list event :=
  [MainStep; Listen true; MainStep; MainStep].

Definition st_in_shutdown : state :=
  Eval vm_compute in final GracefulTimeout src_config readme_rng in_shutdown_run.
Definition st_select : state :=
  Eval vm_compute in final GracefulTimeout src_config readme_rng select_entered_run.
Definition st_started : state :=
  Eval vm_compute in final GracefulTimeout src_config readme_rng [MainStep].
Definition st_parked : state :=
  Eval vm_compute in final GracefulTimeout src_config readme_rng parked_run.
Definition st_dispatched : state :=
  Eval vm_compute in final WrongSimply src_config readme_rng' dispatched_run.

(** ** After the drain *)

(** The positions of main after [Shutdown] has returned nil. *)
Definition drained_pc (pc : mpc) : bool :=
  match pc with
  | PcAfterShutdown | PcArmed | PcSelect | PcWait | PcExiting | PcEnd => true
  | _ => false
  end.

(** [Shutdown] returns nil only when every handler has returned, and none
    starts afterwards. *)
Definition drain_inv (st : state) : Prop :=
  drained_pc (mainpc st) = true -> forallb hret (handlers st) = true.

(** Every job goroutine is over. *)
Definition all_over (st : state) : Prop :=
  forall a, In a (jobs st) -> jended a = true.

(** The positions main can be at, variant by variant. *)
Definition pc_of_variant (v : variant) (pc : mpc) : bool :=
  match v, pc with
  | WrongSimply, (PcStart | PcServe) => true
  | WrongSimply, _ => false
  | GracefulSimple, (PcServe | PcArmed | PcSelect) => false
  | GracefulTimeout, (PcServe | PcWait) => false
  | _, _ => true
  end.

(** In the simple graceful variant main is past [wg.Wait()] only with a
    counter of zero. *)
Definition simple_done_inv (st : state) : Prop :=
  6 <= phase (mainpc st) -> wg st = 0%Z.

(** The goroutine around [wg.Wait()] exists only after the drain, is past
    [wg.Wait()] only with a counter of zero, and [ctxJobs] is canceled only
    by it. *)
Definition cancel_inv (st : state) : Prop :=
  (waiter st <> WNone -> drained_pc (mainpc st) = true) /\
  (waiter st = WCancel \/ waiter st = WEnd -> wg st = 0%Z) /\
  (forall c, ctxJobs st = Some c -> cerr c = Some Canceled -> waiter st = WEnd).

Definition is_tick (e : event) : bool :=
  match e with Tick => true | _ => false end.

(** Seconds that pass in the course of an execution. *)
Definition tick_count (evs : list event) : nat :=
  List.length (filter is_tick evs).

(** Before the wait for the jobs nothing of it exists. *)
Definition pre_wait_inv (st : state) : Prop :=
  phase (mainpc st) <= 3 ->
  afterT st = None /\ waiter st = WNone /\ ctxJobs st = None.

(** The clocks of the wait that was started at time [t0] with grace period
    [g]: [ctxJobs] is due at [t0 + g], the timer of [time.After] no earlier,
    and neither has fired before its time. *)
Definition wait_clock (t0 g : nat) (st : state) : Prop :=
  4 <= phase (mainpc st) /\
  t0 <= now st /\
  (mainpc st = PcArmed -> afterT st = None) /\
  (exists c, ctxJobs st = Some c /\ cdeadline c = t0 + g /\
             (cerr c = Some DeadlineExceeded -> t0 + g <= now st)) /\
  (forall t, afterT st = Some t ->
             t0 + g <= tdeadline t /\ (tfired t = true -> tdeadline t <= now st)).

(** [Shutdown] was called with a context due at [dl]. *)
Definition drain_clock (dl : nat) (st : state) : Prop :=
  2 <= phase (mainpc st) /\
  (forall d, mainpc st = PcInShutdown d -> d = dl).

(** ** Signals, exits and the lines of the log *)

(** Only the default disposition of a signal kills, and only while
    [signal.Notify] has not run. *)
Definition killed_inv (st : state) : Prop :=
  forall s, stat st = Killed s -> notified st = false.

(** The lines wrong-simply can write. *)
Definition wrong_line (l : logev) : bool :=
  match l with
  | LJobStart _ | LJobFinish _ | LHTTPDown => true
  | _ => false
  end.

(** wrong-simply leaves the WaitGroup alone: no handler has an [Add] ahead,
    no job a deferred [Done]. *)
Definition wrong_plain (st : state) : Prop :=
  wg st = 0%Z /\
  Forall (fun hs => existsb is_add (hrest hs) = false) (handlers st) /\
  Forall (fun a => jdefers a = 0 /\ existsb is_defer (jrest a) = false) (jobs st) /\
  forallb wrong_line (log st) = true /\
  (stat st = Exited 1 -> In LHTTPDown (log st)).

(** The lines written by main. *)
Definition is_main_line (l : logev) : bool :=
  match l with
  | LReceived _ | LWaitingShutdown | LShutdownFailed | LWaitingJobs
  | LJobsFinished | LWaitTimeout | LExiting => true
  | _ => false
  end.

(** The lines of main in the order written. *)
Definition main_lines (st : state) : list logev :=
  rev (filter is_main_line (log st)).

(** The two complete scripts of main: a shutdown that ends with result [res]
    of the wait, and one that ends with a failed drain. *)
Definition script (s : signal) (res : logev) : list logev :=
  [LReceived s; LWaitingShutdown; LWaitingJobs; res; LExiting].

Definition script_failed (s : signal) : list logev :=
  [LReceived s; LWaitingShutdown; LShutdownFailed].

(** How many lines of its script main has written at a position. *)
Definition script_progress (pc : mpc) : nat :=
  match pc with
  | PcReceived => 1
  | PcLogged | PcInShutdown _ | PcAfterShutdown | PcArmed => 2
  | PcShutdownErr => 3
  | PcSelect | PcWait => 3
  | PcExiting => 4
  | PcEnd => 5
  | _ => 0
  end.

(** The results the wait of a variant can report. *)
Definition res_ok (v : variant) (res : logev) : Prop :=
  res = LJobsFinished \/ (res = LWaitTimeout /\ v = GracefulTimeout).

Definition script_inv (v : variant) (st : state) : Prop :=
  exists s res,
    res_ok v res /\
    (1 <= phase (mainpc st) -> sig st = Some s) /\
    main_lines st =
      firstn (script_progress (mainpc st))
        (match mainpc st with
         | PcShutdownErr => script_failed s
         | _ => script s res
         end).



(** ** How long the jobs sleep *)

Definition is_sleeprand (s : jstmt) : bool :=
  match s with JSleepRand => true | _ => false end.

(** The duration argument of a job: none outside the grace-period variant;
    there an hour for "job4 very slow" and 1 to 4 seconds for the others. *)
Definition dur_ok (v : variant) (a : job) : Prop :=
  match v with
  | GracefulTimeout =>
      (jname a = "job4 very slow"%string /\ jdur a = Hour) \/
      (jname a <> "job4 very slow"%string /\ 1 <= jdur a <= 4)
  | _ => True
  end.

(** The longest a job of a variant can still be asleep. *)
Definition max_sleep (v : variant) (a : job) : nat :=
  match v with
  | GracefulTimeout => jdur a
  | _ => 4
  end.

(** A job seen at time [t]: dispatched by then, with a duration as the
    handler passes it, and, while asleep, due to wake after its dispatch and
    within its longest sleep from now. *)
Definition sleep_ok (v : variant) (t : nat) (a : job) : Prop :=
  jborn a <= t /\
  dur_ok v a /\
  (existsb is_sleeparg (jrest a) = true -> v = GracefulTimeout) /\
  (existsb is_sleeprand (jrest a) = true -> v <> GracefulTimeout) /\
  (forall w, jwake a = Some w -> jborn a < w /\ w <= t + max_sleep v a).

Definition sleep_inv (v : variant) (st : state) : Prop :=
  Forall (sleep_ok v (now st)) (jobs st).

(** A handler goroutine is somewhere in [ServeHTTP], whatever the variant. *)
Definition hpos (v : variant) (hs : hstate) : Prop :=
  In (hdone hs, hrest hs) (hsplits [] (ServeHTTP v)).

(** ** The client goroutine, [mockRequestAndTermination]

    The programme is its own client: main starts a goroutine that sleeps one
    second, sends one request, logs the answer, sleeps two seconds and sends
    SIGINT to the process.  The closed system below runs the process with this
    goroutine as the only source of requests and signals. *)

Inductive cstmt :=
| CSleep (d : nat)  (* time.Sleep(d * time.Second) *)
| CGet              (* req, err := http.Get(...); if err != nil { panic(err) } *)
| CDeferClose       (* defer func() { req.Body.Close() }() *)
| CReadAll          (* msg, _ := io.ReadAll(req.Body) *)
| CLogReceived      (* logClient("received: %s", msg) *)
| CLogSending       (* logClient("sending signal %q", ...) *)
| CKill.            (* syscall.Kill(syscall.Getpid(), syscall.SIGINT) *)

Definition mockRequestAndTermination : list cstmt :=
  [CSleep 1; CGet; CDeferClose; CReadAll; CLogReceived; CSleep 2; CLogSending; CKill].

(** Lines written by [logClient]. *)
Inductive clogev :=
| CLReceived (msg : string)
| CLSending (s : signal).

(** The goroutine: the statements left, the wake-up time of a sleep going on,
    the handler serving its request, the body read, and its log, newest
    first. *)
Record client := {
  crest : list cstmt;
  cwake : option nat;
  cconn : option nat;
  cmsg : string;
  clog : list clogev
}.

Record sys := { proc : state; cli : client }.

Definition cinit (r : list nat) : sys :=
  {| proc := init r;
     cli := {| crest := mockRequestAndTermination; cwake := None; cconn := None;
               cmsg := ""%string; clog := [] |} |}.

Definition is_write (s : hstmt) : bool :=
  match s with HWrite => true | _ => false end.

(** The body of the response of a handler: what it wrote. *)
Definition body (hs : hstate) : string :=
  if existsb is_write (hdone hs) then "job started"%string else ""%string.

Definition c_next (k : list cstmt) (c : client) : client :=
  {| crest := k; cwake := None; cconn := cconn c; cmsg := cmsg c; clog := clog c |}.

Definition c_asleep (w : nat) (c : client) : client :=
  {| crest := crest c; cwake := Some w; cconn := cconn c; cmsg := cmsg c;
     clog := clog c |}.

Definition c_conn (h : nat) (c : client) : client :=
  {| crest := crest c; cwake := cwake c; cconn := Some h; cmsg := cmsg c;
     clog := clog c |}.

Definition c_read (m : string) (k : list cstmt) (c : client) : client :=
  {| crest := k; cwake := None; cconn := cconn c; cmsg := m; clog := clog c |}.

Definition logClient (l : clogev) (k : list cstmt) (c : client) : client :=
  {| crest := k; cwake := None; cconn := cconn c; cmsg := cmsg c;
     clog := l :: clog c |}.

(** Events of the closed system: an event of the process other than what a
    client does to it (a request, a signal, the panic of the client), or a
    statement of the client goroutine. *)
Inductive cevent :=
| Proc (e : event)
| Cli.

Definition internal (e : event) : bool :=
  match e with
  | Req | Sig _ | GetRefused => false
  | _ => true
  end.

Section Closed.

Variable v : variant.
Variable cfg : config.

(** [http.Get]: the connection is refused when the listener is not open, and
    the call returns when the handler has returned; net/http drops the
    connection of a handler that panicked.  An error makes the client panic,
    which ends the program. *)
Definition client_get (k : list cstmt) (s : sys) : option sys :=
  match cconn (cli s) with
  | None =>
      match req_step v (proc s) with
      | Some p =>
          Some {| proc := p;
                  cli := c_conn (List.length (handlers (proc s))) (cli s) |}
      | None => Some {| proc := crash (proc s); cli := cli s |}
      end
  | Some h =>
      match nth_error (handlers (proc s)) h with
      | Some hs =>
          if hret hs
          then match hrest hs with
               | [] => Some {| proc := proc s; cli := c_next k (cli s) |}
               | _ :: _ => Some {| proc := crash (proc s); cli := cli s |}
               end
          else None
      | None => None
      end
  end.

(** One statement of [mockRequestAndTermination]. *)
Definition client_run (s : sys) : option sys :=
  let c := cli s in
  match crest c with
  | [] => None
  | CSleep d :: k =>
      match cwake c with
      | None =>
          Some {| proc := proc s; cli := c_asleep (now (proc s) + d) c |}
      | Some w =>
          if w <=? now (proc s)
          then Some {| proc := proc s; cli := c_next k c |}
          else None
      end
  | CGet :: k => client_get k s
  | CDeferClose :: k => Some {| proc := proc s; cli := c_next k c |}
  | CReadAll :: k =>
      match cconn c with
      | Some h =>
          match nth_error (handlers (proc s)) h with
          | Some hs => Some {| proc := proc s; cli := c_read (body hs) k c |}
          | None => None
          end
      | None => None
      end
  | CLogReceived :: k =>
      Some {| proc := proc s; cli := logClient (CLReceived (cmsg c)) k c |}
  | CLogSending :: k =>
      Some {| proc := proc s; cli := logClient (CLSending SIGINT) k c |}
  | CKill :: k =>
      Some {| proc := deliver cfg SIGINT (proc s); cli := c_next k c |}
  end.

(** The goroutine exists once main has run its [go] statement, and runs
    while the process does. *)
Definition client_step (s : sys) : option sys :=
  match stat (proc s), mainpc (proc s) with
  | Running, PcStart => None
  | Running, _ => client_run s
  | _, _ => None
  end.

Definition cstep (e : cevent) (s : sys) : option sys :=
  match e with
  | Proc e =>
      if internal e
      then match step v cfg e (proc s) with
           | Some p => Some {| proc := p; cli := cli s |}
           | None => None
           end
      else None
  | Cli => client_step s
  end.

Fixpoint cexec (evs : list cevent) (s : sys) : option sys :=
  match evs with
  | [] => Some s
  | e :: es =>
      match cstep e s with
      | Some s' => cexec es s'
      | None => None
      end
  end.

End Closed.

Definition cfinal (v : variant) (cfg : config) (r : list nat) (evs : list cevent)
  : sys :=
  match cexec v cfg evs (cinit r) with
  | Some s => s
  | None => cinit r
  end.

Definition procs (evs : list event) : list cevent := map Proc evs.
Definition clis (n : nat) : list cevent := repeat Cli n.

(** The README runs with the client goroutine in the place of the request and
    the signal. *)
Definition closed_timeout_run : list cevent :=
  procs [MainStep; Listen true; MainStep; MainStep] ++ clis 1 ++
  procs (ticks 1) ++ clis 2 ++ procs (hsteps 0 7) ++ clis 5 ++
  procs (jsteps 0 3 ++ jsteps 1 3 ++ jsteps 2 3 ++ jsteps 3 3) ++
  procs (ticks 2 ++ jsteps 0 3) ++ clis 3 ++
  procs [MainStep; MainStep; MainStep; ServeReturn; ShutdownReturn false;
         MainStep; MainStep] ++
  procs (ticks 2 ++ jsteps 1 3 ++ jsteps 2 3) ++
  procs (ticks 28 ++ [TimerAfter; Select CaseAfter; MainStep]).

Definition closed_wrong_run : list cevent :=
  procs [MainStep; Listen true] ++ clis 1 ++
  procs (ticks 1) ++ clis 2 ++ procs (hsteps 0 5) ++ clis 5 ++
  procs (jsteps 0 2 ++ jsteps 1 2 ++ jsteps 2 2) ++
  procs (ticks 2 ++ jsteps 1 3) ++ clis 3.

Definition closed_simple_run : list cevent :=
  procs [MainStep; Listen true; MainStep; MainStep] ++ clis 1 ++
  procs (ticks 1) ++ clis 2 ++ procs (hsteps 0 6) ++ clis 5 ++
  procs (jsteps 0 3 ++ jsteps 1 3 ++ jsteps 2 3) ++
  procs (ticks 2 ++ jsteps 1 3) ++ clis 3 ++
  procs [MainStep; MainStep; MainStep; ServeReturn; ShutdownReturn false;
         MainStep] ++
  procs (ticks 2 ++ jsteps 2 3 ++ jsteps 0 3) ++
  procs [MainStep; MainStep].

(** The client started before the server listens: [http.Get] fails. *)
Definition closed_refused_run : list cevent :=
  procs [MainStep] ++ clis 1 ++ procs (ticks 1) ++ clis 2.

(** No handler was cut short: the counter is not negative, and a handler
    that has returned has run all of [ServeHTTP]. *)
Definition whole_inv (v : variant) (st : state) : Prop :=
  (0 <= wg st)%Z /\
  Forall (fun hs => hpos v hs /\ (hret hs = true -> hrest hs = [])) (handlers st).

(** How many statements the client has run. *)
Definition cpos (c : client) : nat :=
  List.length mockRequestAndTermination - List.length (crest c).

(** The jobs a list of handler statements dispatches, in order. *)
Fixpoint go_names (l : list hstmt) : list string :=
  match l with
  | [] => []
  | HGo name _ :: k => name :: go_names k
  | _ :: k => go_names k
  end.

(** No signal has reached the process. *)
Definition quiet (p : state) : Prop :=
  sig p = None /\ termChan p = [] /\ inShutdown p = false /\
  phase (mainpc p) = 0 /\ forall x, stat p <> Killed x.

(** Whatever the process holds of a signal is SIGINT. *)
Definition only_sigint (p : state) : Prop :=
  (forall x, sig p = Some x -> x = SIGINT) /\
  Forall (fun x => x = SIGINT) (termChan p) /\
  (forall x, stat p = Killed x -> x = SIGINT).

(** Before the request nothing was dispatched. *)
Definition idle (p : state) : Prop := handlers p = [] /\ jobs p = [].

(** One request: one handler, and the jobs it has dispatched so far. *)
Definition one_request (p : state) : Prop :=
  exists hs, handlers p = [hs] /\
             map jname (jobs p) = go_names (rev (hdone hs)).

(** Where the client is, and what holds of the process there. *)
Record client_inv (s : sys) : Prop := {
  ci_suffix : crest (cli s) = skipn (cpos (cli s)) mockRequestAndTermination;
  ci_none : cconn (cli s) = None -> idle (proc s) /\ cpos (cli s) <= 1;
  ci_some : forall h, cconn (cli s) = Some h ->
            h = 0 /\ cpos (cli s) <> 0 /\ one_request (proc s);
  ci_served : 2 <= cpos (cli s) ->
              cconn (cli s) <> None /\ forallb hret (handlers (proc s)) = true;
  ci_quiet : cpos (cli s) <= 7 -> quiet (proc s);
  ci_sigint : only_sigint (proc s);
  ci_sleep1 : cpos (cli s) = 0 -> forall w, cwake (cli s) = Some w -> 1 <= w;
  ci_woke1 : 1 <= cpos (cli s) -> 1 <= now (proc s);
  ci_sleep2 : cpos (cli s) = 5 -> forall w, cwake (cli s) = Some w -> 3 <= w;
  ci_woke2 : 6 <= cpos (cli s) -> 3 <= now (proc s);
  ci_log : clog (cli s) =
           (if 7 <=? cpos (cli s) then [CLSending SIGINT] else []) ++
           (if 5 <=? cpos (cli s) then [CLReceived "job started"] else []);
  ci_msg : 4 <= cpos (cli s) -> cmsg (cli s) = "job started"%string
}.

(** The process of a closed run is the process of a run, or that process
    ended by the panic of the client. *)
Definition open_state (v : variant) (cfg : config) (r : list nat) (q : state)
  : Prop :=
  exists evs p, exec v cfg evs (init r) = Some p /\
                (q = p \/ (q = crash p /\ stat p = Running)).

Definition is_cpanic (e : cevent) : bool :=
  match e with Proc e => is_panic e | Cli => false end.

(** The process was ended by the client, whose connection was refused:
    nothing was dispatched and nothing logged by the client. *)
Definition refused (s : sys) : Prop :=
  cpos (cli s) = 1 /\ cconn (cli s) = None /\ idle (proc s) /\
  clog (cli s) = [] /\ srv (proc s) <> SrvAccepting.

Definition st_closed_done : sys :=
  Eval vm_compute in cfinal GracefulTimeout src_config readme_rng closed_timeout_run.

Definition st_closed_refused : sys :=
  Eval vm_compute in cfinal GracefulSimple src_config [] closed_refused_run.

(** No panic is injected into a job. *)
Definition no_injected (e : cevent) : bool := negb (is_cpanic e).

(** ** More states along the documented runs *)

Definition final_from (v : variant) (cfg : config) (st : state)
  (evs : list event) : state :=
  match exec v cfg evs st with
  | Some st' => st'
  | None => st
  end.

(** The simple graceful variant at the end of the run of the README. *)
Definition st_simple_done : state :=
  Eval vm_compute in final GracefulSimple src_config readme_rng' readme_simple_run.

(** The grace-period variant left alone for an hour in its [select], no timer
    served: job4 finishes too and the helper goroutine cancels [ctxJobs]. *)
Definition canceled_run : list event :=
  select_entered_run ++ ticks Hour ++
  jsteps 1 3 ++ jsteps 2 3 ++ jsteps 3 3 ++ [WaiterStep; WaiterStep].
Definition st_canceled : state :=
  Eval vm_compute in final GracefulTimeout src_config readme_rng canceled_run.
Definition ctx_canceled : ctx :=
  Eval vm_compute in
    match ctxJobs st_canceled with
    | Some c => c
    | None => WithTimeout 0 0
    end.

(** The grace-period variant when [Shutdown] has just returned nil, and the
    thirty seconds that follow in the README. *)
Definition st_after_shutdown : state :=
  Eval vm_compute in
    final GracefulTimeout src_config readme_rng
      (in_shutdown_run ++ [ShutdownReturn false]).
Definition grace_events : list event :=
  [MainStep] ++ ticks 2 ++ jsteps 1 3 ++ jsteps 2 3 ++ ticks 28 ++ [TimerAfter].
Definition st_grace_over : state :=
  Eval vm_compute in
    final_from GracefulTimeout src_config st_after_shutdown
      (MainStep :: grace_events).
Definition st_timed_out : state :=
  Eval vm_compute in
    final_from GracefulTimeout src_config st_grace_over [Select CaseAfter].

(** A signal taken with a handler in flight, main about to call [Shutdown],
    and the five seconds of the drain deadline. *)
Definition before_shutdown_run : list event :=
  [MainStep; Listen true; MainStep; MainStep] ++ ticks 1 ++
  [Req; HStep 0; Sig SIGINT; MainStep; MainStep].
Definition st_before_shutdown : state :=
  Eval vm_compute in
    final GracefulTimeout src_config readme_rng before_shutdown_run.
Definition drain_events : list event := [ServeReturn] ++ ticks 5.
Definition st_drain_late : state :=
  Eval vm_compute in
    final_from GracefulTimeout src_config st_before_shutdown
      (MainStep :: drain_events).
Definition st_drain_failed : state :=
  Eval vm_compute in
    final_from GracefulTimeout src_config st_drain_late [ShutdownTimeout].

(** job2 of the README run, asleep when main enters its [select]. *)
Definition job2_asleep : job :=
  Eval vm_compute in
    match nth_error (jobs st_select) 1 with
    | Some a => a
    | None => new_job GracefulTimeout "job2" 0 0
    end.


(** ** The count at the end, the exit codes, the units of wrong-simply *)

(** "Every increment is matched by a decrement", read at the end of a
    process that ended by the return of main: every unit begun is over. *)
Definition every_unit_matched (v : variant) (cfg : config) : Prop :=
  forall r evs st,
    exec v cfg evs (init r) = Some st -> stat st = Exited 0 ->
    ended st = begun st.

(** The line the [select] writes for the case it takes. *)
Definition result_line (c : selcase) : logev :=
  match c with
  | CaseDone => LJobsFinished
  | CaseAfter => LWaitTimeout
  end.

(** The README run of the grace-period variant up to the moment job1 has
    written its last line and is about to return, job2 still asleep. *)
Definition leaving_run : list event :=
  [MainStep; Listen true; MainStep; MainStep] ++ ticks 1 ++
  [Req] ++ hsteps 0 7 ++
  jsteps 0 3 ++ jsteps 1 3 ++ jsteps 2 3 ++ jsteps 3 3 ++
  ticks 2 ++ jsteps 0 2.
Definition st_leaving : state :=
  Eval vm_compute in final GracefulTimeout src_config readme_rng leaving_run.
Definition job1_leaving : job :=
  Eval vm_compute in
    match nth_error (jobs st_leaving) 0 with
    | Some a => a
    | None => new_job GracefulTimeout "job1" 0 0
    end.
Definition job2_sleeping : job :=
  Eval vm_compute in
    match nth_error (jobs st_leaving) 1 with
    | Some a => a
    | None => new_job GracefulTimeout "job2" 0 0
    end.

(** The ends of the README run of the grace-period variant and of the run in
    which all four jobs finish. *)
Definition st_exit_degraded : state :=
  Eval vm_compute in
    final_from GracefulTimeout src_config st_timed_out [MainStep].
Definition st_reported_done : state :=
  Eval vm_compute in
    final_from GracefulTimeout src_config st_canceled [Select CaseDone].
Definition st_exit_clean : state :=
  Eval vm_compute in
    final_from GracefulTimeout src_config st_reported_done [MainStep].

(** The simple graceful variant in [wg.Wait()] with every job over. *)
Definition wait_done_run : list event :=
  [MainStep; Listen true; MainStep; MainStep] ++ ticks 1 ++
  [Req] ++ hsteps 0 6 ++
  jsteps 0 3 ++ jsteps 1 3 ++ jsteps 2 3 ++
  ticks 2 ++ jsteps 1 3 ++
  [Sig SIGINT; MainStep; MainStep; MainStep; ServeReturn;
   ShutdownReturn false; MainStep] ++
  ticks 2 ++ jsteps 2 3 ++ jsteps 0 3.
Definition st_wait_done : state :=
  Eval vm_compute in final GracefulSimple src_config readme_rng' wait_done_run.
Definition st_wait_reported : state :=
  Eval vm_compute in
    final_from GracefulSimple src_config st_wait_done [MainStep].
Definition st_wait_exit : state :=
  Eval vm_compute in
    final_from GracefulSimple src_config st_wait_reported [MainStep].

(** The accept loop fails while main waits for a signal. *)
Definition st_accept_err : state :=
  Eval vm_compute in
    final_from GracefulTimeout src_config st_parked [AcceptErr].

(** The first job of wrong-simply, just dispatched. *)
Definition job1_dispatched : job :=
  Eval vm_compute in
    match nth_error (jobs st_dispatched) 0 with
    | Some a => a
    | None => new_job WrongSimply "job1" 0 0
    end.
Definition st_dispatched_killed : state :=
  Eval vm_compute in
    final_from WrongSimply src_config st_dispatched [Sig SIGINT].

(** main has taken a signal: the README run up to the first line of main. *)
Definition st_shutting_down : state :=
  Eval vm_compute in
    final_from GracefulTimeout src_config st_parked [Sig SIGINT; MainStep].

(** The README run of the grace-period variant up to the [select] with the
    timer of [time.After] fired. *)
Definition grace_over_run : list event :=
  in_shutdown_run ++ [ShutdownReturn false] ++ MainStep :: grace_events.

(** * Proofs *)

(** ** Lists *)

Lemma sumZ_app {A} (f : A -> Z) (l1 l2 : list A) :
  sumZ f (l1 ++ l2) = (sumZ f l1 + sumZ f l2)%Z.
Proof. induction l1 as [|x t IH]; simpl; [reflexivity | rewrite IH; lia]. Qed.

Lemma sumZ_upd {A} (f : A -> Z) (l : list A) (i : nat) (x y : A) :
  nth_error l i = Some x ->
  sumZ f (upd_nth i y l) = (sumZ f l - f x + f y)%Z.
Proof.
  revert i; induction l as [|a t IH]; intros [|i] H; simpl in *; try discriminate.
  - injection H as ->. lia.
  - rewrite (IH _ H). lia.
Qed.

Lemma sumZ_nonneg {A} (f : A -> Z) (P : A -> Prop) (l : list A) :
  (forall x, P x -> (0 <= f x)%Z) -> Forall P l -> (0 <= sumZ f l)%Z.
Proof.
  intros Hf; induction 1 as [|x t Hx _ IH]; simpl; [lia|].
  specialize (Hf x Hx). lia.
Qed.

Lemma sumZ_ge_nth {A} (f : A -> Z) (l : list A) (i : nat) (x : A) :
  (forall y, (0 <= f y)%Z) -> nth_error l i = Some x -> (f x <= sumZ f l)%Z.
Proof.
  intros Hf; revert i; induction l as [|a t IH]; intros [|i] H; simpl in *;
    try discriminate.
  - injection H as ->.
    assert (0 <= sumZ f t)%Z
      by (apply (sumZ_nonneg f (fun _ => True)); [auto | now apply Forall_forall]).
    lia.
  - specialize (IH _ H). specialize (Hf a). lia.
Qed.

Lemma Forall_upd {A} (P : A -> Prop) (l : list A) (i : nat) (y : A) :
  Forall P l -> P y -> Forall P (upd_nth i y l).
Proof.
  intros H Hy; revert i; induction H as [|a t Ha Ht IH]; intros [|i]; simpl;
    constructor; auto.
Qed.

Lemma Forall_nth {A} (P : A -> Prop) (l : list A) (i : nat) (x : A) :
  Forall P l -> nth_error l i = Some x -> P x.
Proof.
  intros H Hn. rewrite Forall_forall in H. apply H. eapply nth_error_In; eauto.
Qed.

Lemma length_upd {A} (l : list A) (i : nat) (y : A) :
  List.length (upd_nth i y l) = List.length l.
Proof. revert i; induction l as [|a t IH]; intros [|i]; simpl; auto. Qed.



(** ** Executions *)

Lemma exec_app v cfg (e1 e2 : list event) (st : state) :
  exec v cfg (e1 ++ e2) st =
  match exec v cfg e1 st with
  | Some st' => exec v cfg e2 st'
  | None => None
  end.
Proof.
  revert st; induction e1 as [|e t IH]; intros st; simpl; [reflexivity|].
  destruct (step v cfg e st); auto.
Qed.

(** A process that is over takes no step. *)
Lemma step_running v cfg e st st' :
  step v cfg e st = Some st' -> stat st = Running.
Proof. unfold step. destruct (stat st); congruence. Qed.

Lemma exec_over v cfg evs st st' :
  stat st <> Running -> exec v cfg evs st = Some st' -> evs = [] /\ st' = st.
Proof.
  intros Hs. destruct evs as [|e t]; simpl.
  - intros H; injection H as <-; auto.
  - destruct (step v cfg e st) eqn:E; [|discriminate].
    apply step_running in E. contradiction.
Qed.

(** A property kept by every step holds along every execution. *)
Lemma exec_invariant v cfg (P : state -> Prop) :
  (forall e st st', P st -> step v cfg e st = Some st' -> P st') ->
  forall evs st st', P st -> exec v cfg evs st = Some st' -> P st'.
Proof.
  intros Hstep evs; induction evs as [|e t IH]; intros st st' HP H; simpl in H.
  - injection H as <-; exact HP.
  - destruct (step v cfg e st) eqn:E; [|discriminate]. eauto.
Qed.

(** ** Case analysis on a step *)

Ltac sproj :=
  unfold shutdown_failed, listen_failed, server_closed, os_Exit, crash,
    set_now, set_rng, set_stat, set_pc, set_sig, set_notified, set_termChan,
    set_srv, set_inShutdown, set_handlers, set_jobs, set_wg, set_ctxJobs,
    set_afterT, set_waiter, logServer in *;
  cbn [now rng stat mainpc sig notified termChan srv inShutdown handlers jobs
       wg ctxJobs afterT waiter log] in *.

Ltac some_inv :=
  repeat match goal with
  | H : Some _ = Some _ |- _ => injection H as H; try subst
  | H : None = Some _ |- _ => discriminate H
  | H : Some _ = None |- _ => discriminate H
  end.

Ltac break_in H :=
  repeat match type of H with
  | context [match ?x with _ => _ end] => destruct x eqn:?; try discriminate H
  end.

(** Unfolds the step function in [H : step v cfg e st = Some st'], one goal
    per enabled branch. *)
Ltac step_cases H :=
  unfold step in H;
  break_in H;
  unfold main_step, deliver, listen_step, accept_err, serve_return, req_step,
    handler_step, job_step, job_panic, shutdown_return, shutdown_timeout,
    waiter_step, timer_ctx, timer_after, select_step, get_refused, wake_up,
    spawn, listen_failed, server_closed in H;
  break_in H;
  injection H as H; subst.

(** ** The tracker *)

Lemma step_frame_tracker v cfg e st st' :
  step v cfg e st = Some st' -> touches_tracker e = false ->
  handlers st' = handlers st /\ jobs st' = jobs st /\ wg st' = wg st.
Proof.
  intros H He. destruct e; try discriminate He; step_cases H; sproj; auto.
Qed.

(** Where a handler can be, variant by variant. *)
Ltac hsplit_cases Hwf :=
  unfold hwf in Hwf; destruct Hwf as [Hwf ?]; simpl in Hwf;
  repeat (destruct Hwf as [Hwf|Hwf]; [injection Hwf as ? ? | ]);
  try contradiction.

Ltac jsplit_cases Hwf :=
  simpl in Hwf;
  repeat (destruct Hwf as [Hwf|Hwf]; [injection Hwf as ? ? | ]);
  try contradiction.

Lemma hsplits_ran (s : hstmt) (d k : list hstmt) :
  forall d0 r0, In (d, s :: k) (hsplits d0 r0) -> In (s :: d, k) (hsplits d0 r0).
Proof.
  intros d0 r0; revert d0; induction r0 as [|x r IH]; intros d0 H; simpl in *.
  - destruct H as [H|[]]. discriminate.
  - destruct H as [H|H].
    + injection H as -> -> ->. right. destruct k; simpl; auto.
    + right. auto.
Qed.

Lemma hwf_ran v hs s k :
  hwf v hs -> hrest hs = s :: k -> hwf v (h_ran s k hs).
Proof.
  unfold hwf; intros [H _] E; rewrite E in H; simpl.
  split; [now apply hsplits_ran | discriminate].
Qed.

(** A handler returns past its last statement, or where [Add] panicked. *)
Lemma hwf_returned v hs :
  registers v = true -> hwf v hs ->
  match hrest hs with [] | HAdd _ :: _ => True | _ => False end ->
  hwf v (h_returned hs).
Proof.
  intros Hv H Hr. split; [exact (proj1 H)|]. intros _.
  change (pending (h_returned hs)) with (pending hs).
  unfold pending, registered, dispatched.
  destruct v; try discriminate; hsplit_cases H;
    match goal with
      E1 : _ = hdone hs, E2 : _ = hrest hs |- _ =>
        rewrite <- E1; rewrite <- E2 in Hr
    end; simpl in *; try contradiction; lia.
Qed.

Lemma pending_nonneg v hs :
  registers v = true -> hwf v hs -> (0 <= pending hs)%Z.
Proof.
  intros Hv H; unfold pending, registered, dispatched.
  destruct v; try discriminate; hsplit_cases H;
    match goal with E : _ = hdone hs |- _ => rewrite <- E end; simpl; lia.
Qed.

(** What running one statement does to a handler's account. *)
Lemma h_ran_account v hs s k :
  registers v = true -> hwf v hs -> hrest hs = s :: k ->
  match s with
  | HWrite =>
      pending (h_ran s k hs) = pending hs /\
      dispatched (h_ran s k hs) = dispatched hs
  | HAdd n =>
      (0 < n)%Z /\
      pending (h_ran s k hs) = (pending hs + n)%Z /\
      dispatched (h_ran s k hs) = dispatched hs
  | HGo _ _ =>
      (1 <= pending hs)%Z /\
      pending (h_ran s k hs) = (pending hs - 1)%Z /\
      dispatched (h_ran s k hs) = (dispatched hs + 1)%Z
  end.
Proof.
  intros Hv H E; unfold pending, registered, dispatched, h_ran; cbn [hdone].
  destruct v; try discriminate; hsplit_cases H;
    match goal with
      E1 : _ = hdone hs, E2 : _ = hrest hs |- _ =>
        rewrite <- E1; rewrite <- E2 in E; try discriminate E;
        injection E as <- <-
    end; simpl; lia.
Qed.

Lemma wg_Add_some (d c z : Z) :
  wg_Add d c = Some z -> z = (c + d)%Z /\ (0 <= c + d)%Z.
Proof.
  unfold wg_Add. destruct (c + d <? 0)%Z eqn:E; [discriminate|].
  intros H; injection H as <-. apply Z.ltb_ge in E. auto.
Qed.

Lemma run_defers_one (c : Z) : (1 <= c)%Z -> run_defers 1 c = Some (c - 1)%Z.
Proof.
  intros H; simpl; unfold wg_Done, wg_Add.
  destruct (c + -1 <? 0)%Z eqn:E; [apply Z.ltb_lt in E; lia | f_equal; lia].
Qed.

(** A job that is leaving its goroutine, by return or by panic, holds exactly
    one deferred [wg.Done]. *)
Lemma job_leaving_defers v a :
  registers v = true ->
  In (jrest a, jdefers a) (jsplits 0 (slowJob v)) ->
  match jrest a with JDeferDone :: _ => False | _ => True end ->
  jdefers a = 1.
Proof.
  intros Hv H Hd.
  destruct v; try discriminate; jsplit_cases H;
    match goal with
      E1 : _ = jrest a, E2 : _ = jdefers a |- _ =>
        rewrite <- E1 in Hd; rewrite <- E2
    end; simpl in Hd; auto; contradiction.
Qed.

Lemma jsplits_next (s : jstmt) (k : list jstmt) (d : nat) :
  forall d0 r0,
    In (s :: k, d) (jsplits d0 r0) ->
    In (k, match s with JDeferDone => S d | _ => d end) (jsplits d0 r0).
Proof.
  intros d0 r0; revert d0; induction r0 as [|x r IH]; intros d0 H.
  - simpl in H. destruct H as [H|[]]. discriminate.
  - cbn [jsplits] in H. destruct H as [H|H].
    + injection H as -> -> ->. cbn [jsplits]. right.
      destruct s; destruct k; simpl; auto.
    + cbn [jsplits]. right. destruct x; auto.
Qed.

Lemma jwf_next v a s k :
  jwf v a -> jended a = false -> jrest a = s :: k ->
  match s with
  | JDeferDone => jwf v (job_defer k a)
  | _ => jwf v (job_next k a)
  end.
Proof.
  intros [H|H] He E; [congruence|].
  rewrite E in H. apply jsplits_next in H.
  destruct s; right; exact H.
Qed.

Lemma jwf_asleep v a w :
  jwf v a -> jended a = false -> jwf v (job_asleep w a).
Proof. intros [H|H] He; [congruence | right; exact H]. Qed.

Lemma jwf_over v a : jwf v (job_over a).
Proof. left; reflexivity. Qed.

Lemma tracker_init v r : tracker_inv v (init r).
Proof. repeat split; simpl; auto. Qed.

Lemma tracker_counter_pos v st j a :
  registers v = true -> tracker_inv v st ->
  nth_error (jobs st) j = Some a -> jended a = false -> (1 <= wg st)%Z.
Proof.
  intros Hv (Hh & Hj & Hw & Hd) Hn He.
  assert (0 <= sumZ pending (handlers st))%Z
    by (apply (sumZ_nonneg pending (hwf v));
        [intros x Hx; exact (pending_nonneg v x Hv Hx) | exact Hh]).
  assert (live a <= sumZ live (jobs st))%Z
    by (apply (sumZ_ge_nth live _ j); auto; intros y; unfold live; destruct (jended y); lia).
  unfold live in *; rewrite He in *. lia.
Qed.

(** The goroutine of job [j] is left: the counter drops by exactly one. *)
Lemma job_exit_tracker v st j a :
  registers v = true -> tracker_inv v st ->
  nth_error (jobs st) j = Some a -> jended a = false ->
  match jrest a with JDeferDone :: _ => False | _ => True end ->
  tracker_inv v (job_exit j a st) /\
  wg (job_exit j a st) = (wg st - 1)%Z /\
  stat (job_exit j a st) = stat st.
Proof.
  intros Hv Hinv Hn He Hd.
  pose proof (tracker_counter_pos _ _ _ _ Hv Hinv Hn He) as Hpos.
  destruct Hinv as (Hh & Hj & Hw & Hdis).
  assert (Hdef : jdefers a = 1).
  { pose proof (Forall_nth _ _ _ _ Hj Hn) as [Hwf|Hwf]; [congruence|].
    eapply job_leaving_defers; eauto. }
  unfold job_exit. rewrite Hdef, (run_defers_one _ Hpos).
  unfold tracker_inv; sproj.
  repeat split; auto.
  - apply Forall_upd; auto using jwf_over.
  - rewrite (sumZ_upd live _ _ _ _ Hn). unfold live at 2 3; simpl. rewrite He. lia.
  - rewrite length_upd. exact Hdis.
Qed.

(** Every step keeps the tracker invariant. *)
Lemma tracker_step v cfg e st st' :
  registers v = true ->
  tracker_inv v st -> step v cfg e st = Some st' -> tracker_inv v st'.
Proof.
  intros Hv Hinv H.
  destruct (touches_tracker e) eqn:Ht.
  2:{ destruct (step_frame_tracker _ _ _ _ _ H Ht) as (E1 & E2 & E3).
      unfold tracker_inv. rewrite E1, E2, E3. exact Hinv. }
  destruct e; try discriminate Ht; clear Ht.
  - (* Req *)
    destruct Hinv as (Hh & Hj & Hw & Hd).
    step_cases H; unfold tracker_inv; sproj.
    repeat split; auto.
    + apply Forall_app; split; auto. constructor; auto.
      unfold hwf; simpl. split; [|discriminate].
      destruct (ServeHTTP v); simpl; auto.
    + rewrite sumZ_app; simpl; lia.
    + rewrite sumZ_app; simpl; lia.
  - (* HStep *)
    destruct Hinv as (Hh & Hj & Hw & Hd).
    step_cases H.
    all: match goal with Hn : nth_error (handlers _) _ = Some ?hs |- _ =>
           pose proof (Forall_nth _ _ _ _ Hh Hn) as Hwf end.
    all: try match goal with E : hrest ?hs = ?s :: ?k |- _ =>
           pose proof (h_ran_account _ _ _ _ Hv Hwf E) as Hacc;
           pose proof (hwf_ran _ _ _ _ Hwf E) as Hwf'; cbn beta iota in Hacc end.
    all: assert (Hpr : pending (h_returned h0) = pending h0) by reflexivity.
    all: assert (Hdr : dispatched (h_returned h0) = dispatched h0) by reflexivity.
    all: try match goal with E : wg_Add _ _ = Some _ |- _ =>
           apply wg_Add_some in E; destruct E end.
    all: unfold tracker_inv; sproj.
    all: repeat split.
    all: try (apply Forall_upd; auto; apply hwf_returned; auto;
              match goal with E : hrest _ = _ |- _ => rewrite E; exact I end).
    all: try (apply Forall_app; split; [assumption|]; constructor; [|constructor];
              right; simpl; destruct (slowJob v); simpl; auto).
    all: try assumption.
    all: rewrite ?(sumZ_upd pending _ _ _ _ Heqo), ?(sumZ_upd dispatched _ _ _ _ Heqo),
           ?sumZ_app, ?length_app, ?Nat2Z.inj_add;
           cbn [sumZ live new_job jended List.length]; lia.
  - (* JStep *)
    step_cases H.
    1: { eapply job_exit_tracker; eauto. rewrite Heql; exact I. }
    all: destruct Hinv as (Hh & Hj & Hw & Hd).
    all: pose proof (Forall_nth _ _ _ _ Hj Heqo) as Hwf.
    all: pose proof (jwf_asleep v j0 (now st + jdur j0) Hwf Heqb) as Hsl.
    all: match goal with E : jrest _ = _ :: _ |- _ =>
           pose proof (jwf_next _ _ _ _ Hwf Heqb E) as Hnx; cbn beta iota in Hnx end.
    all: unfold tracker_inv; sproj.
    all: repeat split; try assumption.
    all: try (apply Forall_upd; auto using jwf_asleep).
    all: try rewrite length_upd; try assumption.
    all: rewrite (sumZ_upd live _ _ _ _ Heqo); unfold live at 2 3;
           cbn [jended job_defer job_next job_asleep]; rewrite Heqb; lia.
  - (* JPanic *)
    step_cases H.
    all: assert (Hx : tracker_inv v (job_exit j j0 st))
           by (eapply job_exit_tracker; eauto; rewrite Heql; exact I).
    all: exact Hx.
Qed.

(** The tracker invariant holds in every reachable state. *)
Lemma tracker_reachable v cfg r evs st :
  registers v = true ->
  exec v cfg evs (init r) = Some st -> tracker_inv v st.
Proof.
  intros Hv. apply (exec_invariant v cfg (tracker_inv v)).
  - intros e s s' Hs H. exact (tracker_step v cfg e s s' Hv Hs H).
  - apply tracker_init.
Qed.

(** ** Main, the log and the exit status *)

Lemma allowed_mono (pc pc' : mpc) (lg : list logev) :
  pc <> PcShutdownErr -> progress pc <= progress pc' ->
  forallb (allowed pc) lg = true -> forallb (allowed pc') lg = true.
Proof.
  intros Hne Hle H. rewrite forallb_forall in *. intros l Hl.
  specialize (H l Hl).
  destruct l; cbn [allowed] in *; auto.
  all: destruct pc; try congruence; try discriminate H;
    destruct pc'; cbn in *; auto; lia.
Qed.

Lemma main_init r : main_inv (init r).
Proof. constructor; simpl; auto; try discriminate; try lia; intuition. Qed.

Ltac mono_log :=
  match goal with
  | H : forallb (allowed ?pc) ?lg = true |- forallb (allowed ?pc') ?lg = true =>
      apply (allowed_mono pc pc' lg); [discriminate | simpl; lia | exact H]
  end.

Lemma main_step_inv v cfg e st st' :
  main_inv st -> step v cfg e st = Some st' -> main_inv st'.
Proof.
  intros [H1 H2 H3 H4 H5 H6 H7 H8 H9 H10] H.
  step_cases H; unfold job_exit in *; sproj.
  all: repeat match goal with
       | |- context [match ?x with _ => _ end] => destruct x eqn:?
       end; sproj.
  all: constructor; sproj.
  all: repeat match goal with
       | E : mainpc _ = _ |- _ => rewrite E in *; clear E
       | E : stat _ = _ |- _ => rewrite E in *; clear E
       end.
  all: unfold received_count in *;
         cbn [phase progress past_notify forallb allowed filter is_received List.length
              Nat.leb andb] in *.
  all: try solve [ assumption | discriminate | congruence | lia
                 | intros; discriminate | intros; congruence | intros; lia
                 | mono_log ].
  all: repeat match goal with
       | H : ?a <= ?b -> _ |- _ => specialize (H ltac:(simpl; lia))
       end.
  all: cbn [In] in *.
  all: try solve [ intuition (try discriminate; try congruence; try lia) ].
Qed.

(** The facts of [main_inv] hold in every reachable state. *)
Lemma main_reachable v cfg r evs st :
  exec v cfg evs (init r) = Some st -> main_inv st.
Proof.
  apply (exec_invariant v cfg main_inv).
  - intros e s s'. apply main_step_inv.
  - apply main_init.
Qed.

(** ** The runs printed in the README *)

(** wrong-simply: the signal ends the process while job1 and job3 are asleep;
    only job2 has finished. *)
Example readme_wrong_observed :
  option_map observe
    (exec WrongSimply src_config readme_wrong_run (init readme_rng')) =
  Some (Killed SIGINT, 0%Z, 3, None,
        [LJobStart "job1"; LJobStart "job2"; LJobStart "job3";
         LJobFinish "job2"]).
Proof. vm_compute; reflexivity. Qed.

(** The simple graceful variant: the three jobs finish, then main returns. *)
Example readme_simple_observed :
  option_map observe
    (exec GracefulSimple src_config readme_simple_run (init readme_rng')) =
  Some (Exited 0, 0%Z, 5, None,
        [LSrvStarting; LJobStart "job1"; LJobStart "job2"; LJobStart "job3";
         LJobFinish "job2"; LReceived SIGINT; LWaitingShutdown; LSrvShutdown;
         LWaitingJobs; LJobFinish "job3"; LJobFinish "job1"; LJobsFinished;
         LExiting]).
Proof. vm_compute; reflexivity. Qed.

(** The grace-period variant: job4 is not waited for beyond thirty seconds. *)
Example readme_timeout_observed :
  option_map observe
    (exec GracefulTimeout src_config readme_timeout_run (init readme_rng)) =
  Some (Exited 0, 1%Z, 33, Some None,
        [LSrvStarting; LJobStart "job1"; LJobStart "job2"; LJobStart "job3";
         LJobStart "job4 very slow"; LJobFinish "job1"; LReceived SIGINT;
         LWaitingShutdown; LSrvShutdown; LWaitingJobs; LJobFinish "job2";
         LJobFinish "job3"; LWaitTimeout; LExiting]).
Proof. vm_compute; reflexivity. Qed.

(** ** The outstanding-work count (C6) *)

Lemma sumZ_pending (l : list hstate) :
  sumZ pending l = (sumZ registered l - sumZ dispatched l)%Z.
Proof. induction l as [|x t IH]; simpl; [reflexivity|]. unfold pending at 1. lia. Qed.

Lemma sumZ_live_over (l : list job) :
  (sumZ live l + sumZ over l)%Z = Z.of_nat (List.length l).
Proof.
  induction l as [|x t IH]; [reflexivity|].
  cbn [sumZ List.length]. rewrite Nat2Z.inj_succ. unfold live at 1, over at 1.
  destruct (jended x); lia.
Qed.

Lemma sumZ_live_nonneg (l : list job) : (0 <= sumZ live l)%Z.
Proof.
  induction l as [|x t IH]; simpl; [lia|]. unfold live at 1. destruct (jended x); lia.
Qed.

Lemma sumZ_live_zero (l : list job) :
  sumZ live l = 0%Z -> forall a, In a l -> jended a = true.
Proof.
  induction l as [|x t IH]; simpl; [contradiction|].
  intros H a [<-|Ha]; pose proof (sumZ_live_nonneg t); unfold live at 1 in H.
  - destruct (jended x); [reflexivity | lia].
  - apply IH; auto. destruct (jended x); lia.
Qed.

Lemma tracker_balance v st :
  tracker_inv v st -> wg st = (begun st - ended st)%Z.
Proof.
  intros (_ & _ & Hw & Hd). unfold begun, ended.
  rewrite Hw, sumZ_pending, Hd, <- sumZ_live_over. lia.
Qed.

Lemma tracker_nonneg v st :
  registers v = true -> tracker_inv v st ->
  (0 <= sumZ pending (handlers st))%Z /\ (sumZ live (jobs st) <= wg st)%Z.
Proof.
  intros Hv (Hh & _ & Hw & _).
  assert (0 <= sumZ pending (handlers st))%Z
    by (apply (sumZ_nonneg pending (hwf v));
        [intros x Hx; exact (pending_nonneg v x Hv Hx) | exact Hh]).
  split; [assumption | lia].
Qed.

Lemma job_exit_ended st j a :
  nth_error (jobs st) j = Some a -> jended a = false ->
  ended (job_exit j a st) = (ended st + 1)%Z.
Proof.
  intros Hn He. unfold ended, job_exit.
  destruct (run_defers (jdefers a) (wg st)); sproj;
    rewrite (sumZ_upd over _ _ _ _ Hn); unfold over at 2 3; simpl; rewrite He; lia.
Qed.

(** The statement job [j] is at panics: its deferred [wg.Done] runs before the
    program ends. *)
Lemma panic_decrements v cfg st j st' :
  registers v = true -> tracker_inv v st ->
  step v cfg (JPanic j) st = Some st' ->
  wg st' = (wg st - 1)%Z /\ ended st' = (ended st + 1)%Z /\ stat st' = Exited 2.
Proof.
  intros Hv Hinv H. step_cases H.
  all: destruct (job_exit_tracker v st j j0 Hv Hinv Heqo Heqb) as (_ & Hwg & _);
         [rewrite Heql; exact I|].
  all: pose proof (job_exit_ended st j j0 Heqo Heqb) as Hen.
  all: unfold ended in *; sproj; auto.
Qed.

(** Job [j] returns: its deferred [wg.Done] runs. *)
Lemma return_decrements v cfg st j a st' :
  registers v = true -> tracker_inv v st ->
  nth_error (jobs st) j = Some a -> jrest a = [] ->
  step v cfg (JStep j) st = Some st' ->
  wg st' = (wg st - 1)%Z /\ ended st' = (ended st + 1)%Z /\ stat st' = Running.
Proof.
  intros Hv Hinv Hn Hr H. step_cases H; try congruence.
  assert (j0 = a) by congruence; subst j0.
  destruct (job_exit_tracker v st j a Hv Hinv Heqo Heqb) as (_ & Hwg & Hst);
    [rewrite Hr; exact I|].
  pose proof (job_exit_ended st j a Heqo Heqb). intuition congruence.
Qed.

Lemma ServeHTTP_add_before_go v :
  registers v = true -> add_before_go (ServeHTTP v).
Proof.
  destruct v; try discriminate; intros _.
  - exists [HWrite], 3%Z,
      [HGo "job1" DurNone; HGo "job2" DurNone; HGo "job3" DurNone].
    repeat split.
  - exists [HWrite], 4%Z,
      [HGo "job1" DurRand; HGo "job2" DurRand; HGo "job3" DurRand;
       HGo "job4 very slow" DurHour].
    repeat split.
Qed.

Lemma hwf_registered_first v hs :
  registers v = true -> hwf v hs -> registered_first hs.
Proof.
  intros Hv H. pose proof (pending_nonneg v hs Hv H) as Hp.
  destruct H as [_ Hr]. unfold pending in *. split; [lia|].
  intros E. specialize (Hr E). lia.
Qed.

Lemma sumZ_zero_all {A} (f : A -> Z) (P : A -> Prop) (l : list A) :
  (forall x, P x -> (0 <= f x)%Z) -> Forall P l -> sumZ f l = 0%Z ->
  forall x, In x l -> f x = 0%Z.
Proof.
  intros Hf; induction 1 as [|a t Ha Ht IH]; simpl; [contradiction|].
  intros Hs x [<-|Hx].
  - pose proof (sumZ_nonneg f P t Hf Ht). specialize (Hf a Ha). lia.
  - apply IH; auto. pose proof (sumZ_nonneg f P t Hf Ht). specialize (Hf a Ha). lia.
Qed.

(** C6. In the variants that use the WaitGroup, [ServeHTTP] runs its [Add]
    before any [go] statement, for as many units as it dispatches; so in every
    reachable state no handler has dispatched more units than it has
    registered, a handler that has returned has registered every unit it
    dispatched, and the counter covers every unit whose goroutine is not over:
    a counter of zero means no dispatched unit is running and none is about to
    be dispatched. *)
Theorem C6_registered_before_dispatch v cfg r evs st :
  registers v = true ->
  exec v cfg evs (init r) = Some st ->
  add_before_go (ServeHTTP v) /\
  Forall registered_first (handlers st) /\
  (sumZ live (jobs st) <= wg st)%Z /\
  (wg st = 0%Z ->
     (forall a, In a (jobs st) -> jended a = true) /\
     (forall hs, In hs (handlers st) -> pending hs = 0%Z)).
Proof.
  intros Hv Hex.
  pose proof (tracker_reachable _ _ _ _ _ Hv Hex) as Hinv.
  destruct (tracker_nonneg _ _ Hv Hinv) as [Hp Hl].
  pose proof (sumZ_live_nonneg (jobs st)) as Hn.
  destruct Hinv as (Hh & Hj & Hw & Hd).
  split; [now apply ServeHTTP_add_before_go|].
  split; [|split; [exact Hl|]].
  - eapply Forall_impl; [|exact Hh]. intros hs. now apply hwf_registered_first.
  - intros Hz. split.
    + apply sumZ_live_zero. lia.
    + apply (sumZ_zero_all pending (hwf v)); auto.
      * intros x Hx. exact (pending_nonneg v x Hv Hx).
      * lia.
Qed.

(** ** The two phases of the termination sequence (C1) *)

Lemma drain_timeout_final :
  exec GracefulTimeout src_config drain_timeout_run (init []) =
    Some (final GracefulTimeout src_config [] drain_timeout_run) /\
  exec GracefulSimple src_config drain_timeout_run (init []) =
    Some (final GracefulSimple src_config [] drain_timeout_run).
Proof. split; vm_compute; reflexivity. Qed.

(** C1, as worded, fails: when [Shutdown] runs into the deadline of
    [ctxShutDown], main logs the failure and calls [os.Exit(1)]; the process is
    over and the wait for the jobs never starts, in both graceful variants. *)
Lemma C1_counterexample :
  ~ both_phases_always_run GracefulTimeout src_config /\
  ~ both_phases_always_run GracefulSimple src_config.
Proof.
  destruct drain_timeout_final as [Ht Hs].
  split; intros H.
  - destruct (H [] _ _ Ht) as (evs' & st' & Hex & Hin); [vm_compute; lia|].
    apply exec_over in Hex; [|vm_compute; discriminate].
    destruct Hex as [_ ->]. vm_compute in Hin. intuition discriminate.
  - destruct (H [] _ _ Hs) as (evs' & st' & Hex & Hin); [vm_compute; lia|].
    apply exec_over in Hex; [|vm_compute; discriminate].
    destruct Hex as [_ ->]. vm_compute in Hin. intuition discriminate.
Qed.

Lemma over_no_step v cfg st :
  stat st <> Running -> forall e, step v cfg e st = None.
Proof. intros H e. unfold step. destruct (stat st); congruence. Qed.

Lemma In_allowed pc lg l :
  forallb (allowed pc) lg = true -> In l lg -> allowed pc l = true.
Proof. intros H Hl. rewrite forallb_forall in H. auto. Qed.

(** C1, amended. In the graceful variants the wait for the jobs is started
    exactly when [Shutdown] returns nil: every error return of [Shutdown]
    (listener close error or deadline) logs the failure; once the failure is
    logged the exit code is 1, nothing more runs and the wait was never
    started; and after a nil return main goes on to start the wait. *)
Theorem C1_wait_runs_iff_stop_succeeds v cfg r evs st :
  registers v = true ->
  exec v cfg evs (init r) = Some st ->
  (forall e st',
     e = ShutdownReturn true \/ e = ShutdownTimeout ->
     step v cfg e st = Some st' -> In LShutdownFailed (log st')) /\
  (In LShutdownFailed (log st) ->
     stat st = Exited 1 /\ ~ In LWaitingJobs (log st) /\
     forall e, step v cfg e st = None) /\
  (forall st',
     step v cfg (ShutdownReturn false) st = Some st' ->
     exists st'',
       exec v cfg (wait_entry v) st' = Some st'' /\ In LWaitingJobs (log st'')).
Proof.
  intros Hv Hex. pose proof (main_reachable _ _ _ _ _ Hex) as Hm.
  split; [|split].
  - intros e st' [-> | ->] H; step_cases H; sproj; simpl; auto.
  - intros Hin.
    pose proof (In_allowed _ _ _ (mi_log _ Hm) Hin) as Ha. simpl in Ha.
    assert (Hpc : mainpc st = PcShutdownErr) by (destruct (mainpc st); congruence).
    pose proof (mi_err _ Hm Hpc) as Hst.
    split; [exact Hst|]. split.
    + intros Hw. pose proof (In_allowed _ _ _ (mi_log _ Hm) Hw) as Hb.
      rewrite Hpc in Hb. discriminate.
    + apply over_no_step. congruence.
  - intros st' H. step_cases H.
    destruct v; try discriminate; simpl; unfold step; sproj; rewrite Heqs;
      unfold main_step; sproj; eexists; (split; [reflexivity|]); sproj; simpl; auto.
Qed.

(** ** Main blocked on [termChan] *)

(** While main is blocked on [termChan], only a signal moves it. *)
Lemma parked_step v cfg e st st' :
  mainpc st = PcParked -> is_trigger e = false ->
  step v cfg e st = Some st' -> mainpc st' = PcParked.
Proof.
  intros Hpc He H. destruct e; try discriminate He; step_cases H;
    unfold job_exit in *; sproj;
    repeat match goal with
    | |- context [match ?x with _ => _ end] => destruct x eqn:?
    end; sproj; congruence.
Qed.

Lemma triggers_cons e evs :
  triggers (e :: evs) = 0 -> is_trigger e = false /\ triggers evs = 0.
Proof.
  unfold triggers; simpl. destruct (is_trigger e); simpl; [discriminate | auto].
Qed.

Lemma parked_forever v cfg evs st st' :
  mainpc st = PcParked -> triggers evs = 0 ->
  exec v cfg evs st = Some st' -> mainpc st' = PcParked.
Proof.
  revert st; induction evs as [|e t IH]; intros st Hpc Ht H; simpl in H.
  - injection H as <-; exact Hpc.
  - destruct (step v cfg e st) eqn:E; [|discriminate].
    apply triggers_cons in Ht. destruct Ht as [He Ht].
    apply (IH s); auto. eapply parked_step; eauto.
Qed.

Lemma early_triggers_final :
  exec GracefulTimeout src_config early_triggers_run (init []) =
    Some (final GracefulTimeout src_config [] early_triggers_run).
Proof. vm_compute; reflexivity. Qed.


(** ** A trigger ahead of the receive (C7) *)

(** C7. The code drops such a trigger.  A SIGINT delivered after
    [signal.Notify] and before main blocks on the unbuffered [termChan] leaves
    the process exactly as it would be without the signal; a minute later main
    is still blocked, no signal is recorded and nothing of a shutdown is in the
    log.  A SIGINT delivered before [signal.Notify] ends the process by the
    default disposition, without any shutdown sequence either. *)
Theorem C7_early_trigger_is_dropped :
  exec GracefulTimeout src_config early_trigger_run (init []) =
    exec GracefulTimeout src_config [MainStep; MainStep] (init []) /\
  option_map (fun st => (mainpc st, sig st, termChan st, observe st))
    (exec GracefulTimeout src_config
       (early_trigger_run ++ [MainStep; Listen true] ++ ticks 60) (init [])) =
    Some (PcParked, None, [], (Running, 0%Z, 60, None, [LSrvStarting])) /\
  option_map observe
    (exec GracefulTimeout src_config [MainStep; Sig SIGINT] (init [])) =
    Some (Killed SIGINT, 0%Z, 0, None, []).
Proof. repeat split; vm_compute; reflexivity. Qed.

(** After the dropped signal no shutdown sequence starts, whatever else
    happens, until another signal arrives. *)
Lemma early_trigger_never_honoured evs st :
  triggers evs = 0 ->
  exec GracefulTimeout src_config (early_trigger_run ++ MainStep :: evs) (init [])
    = Some st ->
  mainpc st = PcParked /\ received_count (log st) = 0.
Proof.
  intros Ht H.
  assert (Hpc : mainpc st = PcParked).
  { rewrite exec_app in H.
    change (exec GracefulTimeout src_config early_trigger_run (init []))
      with (Some (final GracefulTimeout src_config [] early_trigger_run)) in H.
    cbn [exec] in H.
    destruct (step GracefulTimeout src_config MainStep _) as [s|] eqn:E in H;
      [|discriminate].
    eapply parked_forever; [|exact Ht|exact H].
    vm_compute in E. injection E as <-. reflexivity. }
  split; [exact Hpc|].
  pose proof (mi_recv _ (main_reachable _ _ _ _ _ H)) as Hr.
  rewrite Hpc in Hr. exact Hr.
Qed.

(** ** The wait bounded by the grace period (C2) *)

(** C2. The code reports finished jobs here.  In the README scenario job4
    sleeps for an hour; thirty seconds after the wait began the deadline of
    [ctxJobs] (made by [context.WithTimeout] with the same [gracePeriod])
    closes [ctxJobs.Done()], the [select] takes that case and the log reads
    "jobs have finished" with one unit still outstanding. *)
Theorem C2_deadline_reported_as_finished :
  option_map observe
    (exec GracefulTimeout src_config grace_expired_run (init readme_rng)) =
  Some (Exited 0, 1%Z, 33, Some (Some DeadlineExceeded),
        [LSrvStarting; LJobStart "job1"; LJobStart "job2"; LJobStart "job3";
         LJobStart "job4 very slow"; LJobFinish "job1"; LReceived SIGINT;
         LWaitingShutdown; LSrvShutdown; LWaitingJobs; LJobFinish "job2";
         LJobFinish "job3"; LJobsFinished; LExiting]).
Proof. vm_compute; reflexivity. Qed.

(** Once its deadline has passed, [ctxJobs] lets the [select] report finished
    jobs whatever the counter is. *)
Lemma done_case_after_deadline v cfg st c :
  stat st = Running -> mainpc st = PcSelect ->
  ctxJobs st = Some c -> ctx_done c = false -> cdeadline c <= now st ->
  exists st',
    exec v cfg [TimerCtx; Select CaseDone] st = Some st' /\
    log st' = LJobsFinished :: log st /\ wg st' = wg st.
Proof.
  intros Hs Hpc Hc Hd Hle. apply Nat.leb_le in Hle.
  cbn [exec]. unfold step at 1. rewrite Hs. unfold timer_ctx. rewrite Hc, Hd, Hle.
  unfold step; sproj. rewrite Hs. unfold select_step; sproj. rewrite Hpc.
  eexists; split; [reflexivity|]. sproj. auto.
Qed.

(** ** The clock of the jobs, and wrong-simply *)

Lemma time_ok_later t a : time_ok t a -> time_ok (S t) a.
Proof.
  intros (H1 & H2 & H3 & H4). repeat split; auto.
  - intros E. specialize (H3 E). lia.
  - destruct (existsb is_sleep (jrest a)); auto.
Qed.

Lemma time_init r : time_inv (init r).
Proof. intros _. constructor. Qed.

Lemma time_ok_new v name d t :
  existsb is_sleeparg (slowJob v) = false -> time_ok t (new_job v name d t).
Proof.
  intros Hv. unfold time_ok, new_job; cbn [jborn jrest jended jwake].
  repeat split; auto; try discriminate.
  destruct (existsb is_sleep (slowJob v)) eqn:E; [discriminate|].
  destruct v; discriminate.
Qed.

Lemma time_step v cfg e st st' :
  existsb is_sleeparg (slowJob v) = false ->
  time_inv st -> step v cfg e st = Some st' -> time_inv st'.
Proof.
  intros Hv Hinv H Hst'. unfold time_inv in Hinv.
  pose proof (step_running _ _ _ _ _ H) as Hst. specialize (Hinv Hst).
  destruct (touches_tracker e) eqn:Ht.
  2:{ destruct (step_frame_tracker _ _ _ _ _ H Ht) as (_ & E2 & _). rewrite E2.
      destruct e; try discriminate Ht; step_cases H; sproj; auto.
      eapply Forall_impl; [|exact Hinv]. apply time_ok_later. }
  destruct e; try discriminate Ht; clear Ht; step_cases H;
    unfold job_exit in *; sproj;
    repeat match goal with
    | _ : context [match ?x with _ => _ end] |- _ => destruct x eqn:?
    | |- context [match ?x with _ => _ end] => destruct x eqn:?
    end; sproj; try discriminate; auto.
  all: try (apply Forall_app; split; [assumption|]; constructor; [|constructor];
            apply time_ok_new; assumption).
  all: apply Forall_upd; [assumption|].
  all: pose proof (Forall_nth _ _ _ _ Hinv Heqo) as (T1 & T2 & T3 & T4).
  all: rewrite ?Heql in *; cbn [existsb is_sleep is_sleeparg orb] in *.
  all: unfold time_ok, job_over, job_next, job_defer, job_asleep;
         cbn [jborn jrest jended jwake existsb is_sleep is_sleeparg orb].
  all: try discriminate.
  all: repeat split; auto; try discriminate; try (intros; lia).
  all: rewrite ?Heql; cbn [existsb is_sleep is_sleeparg orb]; try assumption.
  all: repeat match goal with
       | H : (_ <=? _) = true |- _ => apply Nat.leb_le in H
       end.
  all: try match goal with
       | E : jwake _ = Some _ |- _ => specialize (T4 _ E)
       end.
  all: try (destruct (existsb is_sleep _) eqn:?; intros; try discriminate;
            try match goal with H : Some _ = Some _ |- _ => injection H as <- end;
            try assumption; lia).
  intros w E. injection E as <-. lia.
Qed.

Lemma time_reachable v cfg r evs st :
  existsb is_sleeparg (slowJob v) = false ->
  exec v cfg evs (init r) = Some st -> time_inv st.
Proof.
  intros Hv. apply (exec_invariant v cfg time_inv).
  - intros e s s'. now apply time_step.
  - apply time_init.
Qed.

Lemma wrong_step cfg e st st' :
  wrong_inv st -> step WrongSimply cfg e st = Some st' -> wrong_inv st'.
Proof.
  intros [Hpc Hn] H. unfold wrong_inv.
  step_cases H; unfold job_exit in *; sproj;
    repeat match goal with
    | |- context [match ?x with _ => _ end] => destruct x eqn:?
    end; sproj; auto; try congruence; destruct Hpc; congruence.
Qed.

Lemma wrong_reachable cfg r evs st :
  exec WrongSimply cfg evs (init r) = Some st -> wrong_inv st.
Proof.
  apply (exec_invariant WrongSimply cfg wrong_inv).
  - intros e s s'. apply wrong_step.
  - split; simpl; auto.
Qed.


(** ** The wait without a deadline (C10) *)







(** ** The theorems at the states of the documented runs *)

(** The two phases, at the state where the grace-period variant is inside
    [Shutdown] with every handler returned. *)
Lemma C1_witness :
  registers GracefulTimeout = true /\
  exec GracefulTimeout src_config in_shutdown_run (init readme_rng)
    = Some st_in_shutdown /\
  ((forall e st',
      e = ShutdownReturn true \/ e = ShutdownTimeout ->
      step GracefulTimeout src_config e st_in_shutdown = Some st' ->
      In LShutdownFailed (log st')) /\
   (In LShutdownFailed (log st_in_shutdown) ->
      stat st_in_shutdown = Exited 1 /\ ~ In LWaitingJobs (log st_in_shutdown) /\
      forall e, step GracefulTimeout src_config e st_in_shutdown = None) /\
   (forall st',
      step GracefulTimeout src_config (ShutdownReturn false) st_in_shutdown = Some st' ->
      exists st'',
        exec GracefulTimeout src_config (wait_entry GracefulTimeout) st' = Some st'' /\
        In LWaitingJobs (log st''))).
Proof.
  split; [reflexivity|]. split; [vm_compute; reflexivity|].
  apply (C1_wait_runs_iff_stop_succeeds GracefulTimeout src_config readme_rng
           in_shutdown_run st_in_shutdown);
    [reflexivity | vm_compute; reflexivity].
Defined.

(** Registration before dispatch, at the [select] of the grace-period
    variant. *)
Lemma C6_witness :
  registers GracefulTimeout = true /\
  exec GracefulTimeout src_config select_entered_run (init readme_rng)
    = Some st_select /\
  (add_before_go (ServeHTTP GracefulTimeout) /\
   Forall registered_first (handlers st_select) /\
   (sumZ live (jobs st_select) <= wg st_select)%Z /\
   (wg st_select = 0%Z ->
      (forall a, In a (jobs st_select) -> jended a = true) /\
      (forall hs, In hs (handlers st_select) -> pending hs = 0%Z))).
Proof.
  split; [reflexivity|]. split; [vm_compute; reflexivity|].
  apply (C6_registered_before_dispatch GracefulTimeout src_config readme_rng
           select_entered_run st_select);
    [reflexivity | vm_compute; reflexivity].
Defined.




(** * Further properties of the three programs *)

(** ** After [Shutdown] has returned nil *)

Lemma forallb_hret_nth (l : list hstate) (h : nat) (hs : hstate) :
  forallb hret l = true -> nth_error l h = Some hs -> hret hs = true.
Proof.
  intros H Hn. rewrite forallb_forall in H. apply H. eapply nth_error_In; eauto.
Qed.

Lemma drain_step v cfg e st st' :
  main_inv st -> drain_inv st -> step v cfg e st = Some st' -> drain_inv st'.
Proof.
  intros Hm Hd H Hpc. unfold drain_inv in Hd.
  pose proof (mi_shut _ Hm) as Hsh.
  step_cases H; unfold job_exit in *; sproj;
    repeat match goal with
    | _ : context [match ?x with _ => _ end] |- _ => destruct x eqn:?
    | |- context [match ?x with _ => _ end] => destruct x eqn:?
    end; sproj;
    repeat match goal with
    | E : mainpc _ = _ |- _ => rewrite E in *
    end; cbn [drained_pc phase Nat.leb] in *;
    try discriminate; try (apply Hd; assumption); try assumption.
  1: destruct (mainpc st); discriminate.
  all: pose proof (forallb_hret_nth _ _ _ (Hd Hpc) Heqo); congruence.
Qed.

Lemma drain_reachable v cfg r evs st :
  exec v cfg evs (init r) = Some st -> drain_inv st.
Proof.
  intros H.
  assert (main_inv st /\ drain_inv st) as [_ Hd]; [|exact Hd].
  revert H.
  apply (exec_invariant v cfg (fun s => main_inv s /\ drain_inv s)).
  - intros e s s' [Hm Hd] Hs. split.
    + eapply main_step_inv; eauto.
    + eapply drain_step; eauto.
  - split; [apply main_init | intros H; discriminate H].
Qed.

Lemma sumZ_pending_returned v (l : list hstate) :
  Forall (hwf v) l -> forallb hret l = true -> sumZ pending l = 0%Z.
Proof.
  induction 1 as [|hs t [_ Hr] _ IH]; simpl; [reflexivity|].
  intros H. apply andb_prop in H. destruct H as [H1 H2].
  rewrite (Hr H1), (IH H2). reflexivity.
Qed.

Lemma drained_phase pc : drained_pc pc = true -> 3 <= phase pc.
Proof. destruct pc; simpl; intros; try discriminate; lia. Qed.

(** After the drain the counter only goes down and no job is added. *)
Lemma drained_step_counter v cfg e st st' :
  registers v = true -> tracker_inv v st -> main_inv st -> drain_inv st ->
  drained_pc (mainpc st) = true ->
  step v cfg e st = Some st' ->
  (wg st' <= wg st)%Z /\ List.length (jobs st') = List.length (jobs st).
Proof.
  intros Hv Ht Hm Hd Hpc H.
  pose proof (mi_shut _ Hm) as Hsh.
  pose proof (drained_phase _ Hpc) as Hph.
  destruct (touches_tracker e) eqn:Htt.
  2:{ destruct (step_frame_tracker _ _ _ _ _ H Htt) as (_ & E2 & E3).
      rewrite E2, E3. split; [lia | reflexivity]. }
  destruct e; try discriminate Htt; clear Htt.
  - (* Req *) step_cases H. rewrite ?Heqb in Hsh.
    destruct (phase (mainpc st)) as [|[|n]]; try lia; discriminate.
  - (* HStep *) step_cases H;
      pose proof (forallb_hret_nth _ _ _ (Hd Hpc) Heqo); congruence.
  - (* JStep *) step_cases H; sproj; rewrite ?length_upd; try (split; [lia | reflexivity]).
    destruct (job_exit_tracker v st j j0 Hv Ht Heqo Heqb) as (_ & Hw & _);
      [rewrite Heql; exact I|].
    split; [lia|]. unfold job_exit.
    destruct (run_defers (jdefers j0) (wg st)); sproj; apply length_upd.
  - (* JPanic *) step_cases H.
    all: destruct (job_exit_tracker v st j j0 Hv Ht Heqo Heqb) as (_ & Hw & _);
           [rewrite Heql; exact I|].
    all: unfold job_exit in *; destruct (run_defers (jdefers j0) (wg st)); sproj;
           rewrite length_upd; (split; [lia | reflexivity]).
Qed.

(** X1. In the graceful variants, once [Shutdown] has returned nil every
    handler has returned, no request is accepted and no handler runs any
    more, so the counter is exactly the number of jobs that are not over, and
    from then on no step raises it or adds a job: [wg.Add] never runs while
    main or its helper goroutine is in [wg.Wait()]. *)
Theorem no_new_work_after_drain v cfg r evs st :
  registers v = true ->
  exec v cfg evs (init r) = Some st ->
  drained_pc (mainpc st) = true ->
  forallb hret (handlers st) = true /\
  step v cfg Req st = None /\
  (forall h, step v cfg (HStep h) st = None) /\
  wg st = sumZ live (jobs st) /\
  (forall e st',
     step v cfg e st = Some st' ->
     (wg st' <= wg st)%Z /\ List.length (jobs st') = List.length (jobs st)).
Proof.
  intros Hv Hex Hpc.
  pose proof (tracker_reachable _ _ _ _ _ Hv Hex) as Ht.
  pose proof (main_reachable _ _ _ _ _ Hex) as Hm.
  pose proof (drain_reachable _ _ _ _ _ Hex) as Hd.
  pose proof (Hd Hpc) as Hall.
  assert (Hno : forall e, e = Req \/ (exists h, e = HStep h) ->
                          step v cfg e st = None).
  { intros e He. destruct (step v cfg e st) as [s'|] eqn:E; [|reflexivity].
    exfalso. pose proof (mi_shut _ Hm) as Hsh.
    pose proof (drained_phase _ Hpc) as Hph.
    destruct He as [-> | [h ->]]; step_cases E.
    - rewrite ?Heqb in Hsh.
      destruct (phase (mainpc st)) as [|[|n]]; try lia; discriminate.
    - pose proof (forallb_hret_nth _ _ _ Hall Heqo); congruence.
    - pose proof (forallb_hret_nth _ _ _ Hall Heqo); congruence.
    - pose proof (forallb_hret_nth _ _ _ Hall Heqo); congruence.
    - pose proof (forallb_hret_nth _ _ _ Hall Heqo); congruence.
    - pose proof (forallb_hret_nth _ _ _ Hall Heqo); congruence.
    - pose proof (forallb_hret_nth _ _ _ Hall Heqo); congruence.
    - pose proof (forallb_hret_nth _ _ _ Hall Heqo); congruence. }
  split; [exact Hall|]. split; [apply Hno; auto|].
  split; [intros h; apply Hno; eauto|]. split.
  - destruct Ht as (Hh & _ & Hw & _).
    rewrite Hw, (sumZ_pending_returned v _ Hh Hall). lia.
  - intros e st'. apply drained_step_counter; auto.
Qed.


Lemma variant_pc_step v cfg e st st' :
  pc_of_variant v (mainpc st) = true ->
  step v cfg e st = Some st' -> pc_of_variant v (mainpc st') = true.
Proof.
  intros Hp H.
  step_cases H; unfold job_exit in *; sproj;
    repeat match goal with
    | |- context [match ?x with _ => _ end] => destruct x eqn:?
    end; sproj;
    repeat match goal with
    | E : mainpc _ = _ |- _ => rewrite E in *
    end; try assumption; try reflexivity; try discriminate;
    destruct v; simpl in *; congruence.
Qed.

Lemma variant_pc_reachable v cfg r evs st :
  exec v cfg evs (init r) = Some st -> pc_of_variant v (mainpc st) = true.
Proof.
  apply (exec_invariant v cfg (fun s => pc_of_variant v (mainpc s) = true)).
  - intros e s s'. apply variant_pc_step.
  - destruct v; reflexivity.
Qed.

(** The facts that hold together in every reachable state of a variant that
    uses the WaitGroup. *)
Lemma graceful_reachable v cfg r evs st :
  registers v = true ->
  exec v cfg evs (init r) = Some st ->
  tracker_inv v st /\ main_inv st /\ drain_inv st /\
  pc_of_variant v (mainpc st) = true.
Proof.
  intros Hv H. split; [|split; [|split]].
  - eapply tracker_reachable; eauto.
  - eapply main_reachable; eauto.
  - eapply drain_reachable; eauto.
  - eapply variant_pc_reachable; eauto.
Qed.

Lemma simple_done_reachable cfg r evs st :
  exec GracefulSimple cfg evs (init r) = Some st -> simple_done_inv st.
Proof.
  intros H.
  assert ((tracker_inv GracefulSimple st /\ main_inv st /\ drain_inv st /\
           pc_of_variant GracefulSimple (mainpc st) = true) /\ simple_done_inv st)
    as [_ Hs]; [|exact Hs].
  revert H.
  apply (exec_invariant GracefulSimple cfg
           (fun s => (tracker_inv GracefulSimple s /\ main_inv s /\ drain_inv s /\
                      pc_of_variant GracefulSimple (mainpc s) = true) /\
                     simple_done_inv s)).
  - intros e s s' [(Ht & Hm & Hd & Hp) Hs] H.
    assert (Ht' : tracker_inv GracefulSimple s')
      by (apply (tracker_step GracefulSimple cfg e s s' eq_refl Ht H)).
    split.
    { split; [exact Ht'|]. split; [|split].
      - eapply main_step_inv; eauto.
      - eapply drain_step; eauto.
      - eapply variant_pc_step; eauto. }
    intros Hph.
    destruct (Nat.le_gt_cases 6 (phase (mainpc s))) as [Hold|Hnew].
    + (* already past the wait: the counter cannot rise, nor fall below 0 *)
      assert (Hdr : drained_pc (mainpc s) = true)
        by (destruct (mainpc s); simpl in *; try lia; reflexivity).
      destruct (drained_step_counter GracefulSimple cfg e s s' eq_refl Ht Hm Hd Hdr H)
        as [Hle _].
      destruct (tracker_nonneg GracefulSimple s' eq_refl Ht') as [_ Hge].
      pose proof (sumZ_live_nonneg (jobs s')). specialize (Hs Hold). lia.
    + (* the step that leaves wg.Wait() *)
      clear Hs. step_cases H; unfold job_exit in *; sproj;
        repeat match goal with
        | _ : context [match ?x with _ => _ end] |- _ => destruct x eqn:?
        end; sproj;
        repeat match goal with
        | E : mainpc _ = _ |- _ => rewrite E in *
        end; simpl in *; try lia; try discriminate.
  - split; [|intros H; simpl in H; lia].
    split; [apply tracker_init|]. split; [apply main_init|].
    split; [intros H; discriminate H | reflexivity].
Qed.

(** X2. The simple graceful variant abandons no unit: when the wait has
    reported finished jobs, and so whenever the process has exited with
    code 0, the counter is zero, every handler has returned and the goroutine
    of every job that was ever dispatched is over. *)
Theorem simple_exit_leaves_no_job cfg r evs st :
  exec GracefulSimple cfg evs (init r) = Some st ->
  In LJobsFinished (log st) \/ stat st = Exited 0 ->
  wg st = 0%Z /\ all_over st /\ forallb hret (handlers st) = true.
Proof.
  intros Hex Hfin.
  destruct (graceful_reachable GracefulSimple cfg r evs st eq_refl Hex)
    as (Ht & Hm & Hd & _).
  assert (Hph : 6 <= phase (mainpc st)).
  { destruct Hfin as [Hin|Hst].
    - pose proof (In_allowed _ _ _ (mi_log _ Hm) Hin) as Ha.
      cbn [allowed] in Ha. now apply Nat.leb_le in Ha.
    - rewrite (mi_zero _ Hm Hst). simpl. lia. }
  pose proof (simple_done_reachable _ _ _ _ Hex Hph) as Hw.
  assert (Hdr : drained_pc (mainpc st) = true)
    by (destruct (mainpc st); simpl in *; try lia; reflexivity).
  split; [exact Hw|]. split; [|exact (Hd Hdr)].
  destruct (tracker_nonneg GracefulSimple st eq_refl Ht) as [_ Hge].
  pose proof (sumZ_live_nonneg (jobs st)).
  unfold all_over. apply sumZ_live_zero. lia.
Qed.

(** ** What the results of the bounded wait mean *)

Lemma drained_pc_step v cfg e st st' :
  drained_pc (mainpc st) = true ->
  step v cfg e st = Some st' -> drained_pc (mainpc st') = true.
Proof.
  intros Hp H.
  step_cases H; unfold job_exit in *; sproj;
    repeat match goal with
    | |- context [match ?x with _ => _ end] => destruct x eqn:?
    end; sproj;
    repeat match goal with
    | E : mainpc _ = _ |- _ => rewrite E in *
    end; try assumption; try reflexivity; discriminate.
Qed.

Lemma cancel_step v cfg e st st' :
  registers v = true ->
  tracker_inv v st -> main_inv st -> drain_inv st ->
  cancel_inv st -> step v cfg e st = Some st' -> cancel_inv st'.
Proof.
  intros Hv Ht Hm Hd (C1 & C2 & C3) H.
  pose proof (tracker_step v cfg e st st' Hv Ht H) as Ht'.
  split; [|split].
  - (* the helper goroutine exists only after the drain *)
    intros Hw.
    destruct (waiter st) eqn:Ew.
    + step_cases H; unfold job_exit in *; sproj;
        repeat match goal with
        | |- context [match ?x with _ => _ end] => destruct x eqn:?
        end; sproj; try congruence; reflexivity.
    + eapply drained_pc_step; [|exact H]. apply C1; discriminate.
    + eapply drained_pc_step; [|exact H]. apply C1; discriminate.
    + eapply drained_pc_step; [|exact H]. apply C1; discriminate.
  - (* past wg.Wait() the counter is zero *)
    intros Hw.
    assert (Hcases : (waiter st = WCancel \/ waiter st = WEnd) \/
                     (waiter st = WWait /\ wg st = 0%Z /\ wg st' = wg st)).
    { clear C3. step_cases H; unfold job_exit in *; sproj;
        repeat match goal with
        | _ : context [match ?x with _ => _ end] |- _ => destruct x eqn:?
        | |- context [match ?x with _ => _ end] => destruct x eqn:?
        end; sproj; auto; try (destruct Hw; discriminate).
      all: right; repeat split; auto; apply Z.eqb_eq; assumption. }
    destruct Hcases as [Hold | (_ & Hz & Heq)]; [|congruence].
    assert (Hdr : drained_pc (mainpc st) = true)
      by (apply C1; destruct Hold as [E|E]; rewrite E; discriminate).
    destruct (drained_step_counter v cfg e st st' Hv Ht Hm Hd Hdr H) as [Hle _].
    destruct (tracker_nonneg v st' Hv Ht') as [_ Hge].
    pose proof (sumZ_live_nonneg (jobs st')). specialize (C2 Hold). lia.
  - (* only the helper goroutine cancels ctxJobs *)
    intros c Hc He. clear C2.
    step_cases H; unfold job_exit in *; sproj;
      repeat match goal with
      | _ : context [match ?x with _ => _ end] |- _ => destruct x eqn:?
      | |- context [match ?x with _ => _ end] => destruct x eqn:?
      end; sproj; try (eapply C3; eassumption); try reflexivity.
    + injection Hc as <-. unfold WithTimeout in He.
      destruct (gracePeriod cfg =? 0); discriminate.
    + specialize (C3 _ Hc He). congruence.
    + injection Hc as <-. discriminate He.
    + rewrite Heqo in Hc. eapply C3; eassumption.
Qed.

Lemma cancel_reachable v cfg r evs st :
  registers v = true ->
  exec v cfg evs (init r) = Some st -> cancel_inv st.
Proof.
  intros Hv H.
  assert ((tracker_inv v st /\ main_inv st /\ drain_inv st) /\ cancel_inv st)
    as [_ Hc]; [|exact Hc].
  revert H.
  apply (exec_invariant v cfg
           (fun s => (tracker_inv v s /\ main_inv s /\ drain_inv s) /\ cancel_inv s)).
  - intros e s s' [(Ht & Hm & Hd) Hc] H. split.
    + split; [exact (tracker_step v cfg e s s' Hv Ht H)|]. split.
      * eapply main_step_inv; eauto.
      * eapply drain_step; eauto.
    + eapply cancel_step; eauto.
  - split.
    + split; [apply tracker_init|]. split; [apply main_init|].
      intros H; discriminate H.
    + split; [intros H; exfalso; apply H; reflexivity|].
      split; [intros [H|H]; discriminate H | intros c H; discriminate H].
Qed.

Lemma canceled_all_over cfg r evs st c :
  exec GracefulTimeout cfg evs (init r) = Some st ->
  ctxJobs st = Some c -> cerr c = Some Canceled ->
  wg st = 0%Z /\ all_over st.
Proof.
  intros Hex Hc He.
  destruct (cancel_reachable GracefulTimeout cfg r evs st eq_refl Hex)
    as (C1 & C2 & C3).
  pose proof (C3 c Hc He) as Hw.
  assert (Hz : wg st = 0%Z) by (apply C2; auto).
  destruct (graceful_reachable GracefulTimeout cfg r evs st eq_refl Hex)
    as (Ht & _).
  split; [exact Hz|].
  destruct (tracker_nonneg GracefulTimeout st eq_refl Ht) as [_ Hge].
  pose proof (sumZ_live_nonneg (jobs st)).
  unfold all_over. apply sumZ_live_zero. lia.
Qed.

(** X3. In the grace-period variant [cancelJobs] is called only when all work
    is done: whenever [ctxJobs] carries the error [Canceled] (rather than
    [DeadlineExceeded]), the counter is zero and the goroutine of every job
    ever dispatched is over.  So the case of [ctxJobs.Done()] tells the truth
    exactly when it was closed by [cancelJobs]. *)
Theorem canceled_means_all_finished cfg r evs st c :
  exec GracefulTimeout cfg evs (init r) = Some st ->
  ctxJobs st = Some c -> cerr c = Some Canceled ->
  wg st = 0%Z /\ all_over st /\ forallb hret (handlers st) = true.
Proof.
  intros Hex Hc He.
  destruct (canceled_all_over cfg r evs st c Hex Hc He) as [Hz Ho].
  split; [exact Hz|]. split; [exact Ho|].
  destruct (cancel_reachable GracefulTimeout cfg r evs st eq_refl Hex)
    as (C1 & _ & C3).
  assert (Hdr : drained_pc (mainpc st) = true)
    by (apply C1; rewrite (C3 c Hc He); discriminate).
  destruct (graceful_reachable GracefulTimeout cfg r evs st eq_refl Hex)
    as (_ & _ & Hd & _).
  exact (Hd Hdr).
Qed.


(** ** The clocks of the two bounded waits *)

Lemma step_now v cfg e st st' :
  step v cfg e st = Some st' ->
  now st' = now st + (if is_tick e then 1 else 0).
Proof.
  intros H. step_cases H; cbn [is_tick]; unfold job_exit in *; sproj;
    repeat match goal with
    | |- context [match ?x with _ => _ end] => destruct x eqn:?
    end; sproj; simpl; lia.
Qed.

Lemma exec_now v cfg evs st st' :
  exec v cfg evs st = Some st' -> now st' = now st + tick_count evs.
Proof.
  revert st; induction evs as [|e t IH]; intros st H; simpl in H.
  - injection H as <-. unfold tick_count; simpl; lia.
  - destruct (step v cfg e st) as [s|] eqn:E; [|discriminate].
    rewrite (IH _ H), (step_now _ _ _ _ _ E). unfold tick_count; simpl.
    destruct (is_tick e); simpl; lia.
Qed.

Lemma pre_wait_step v cfg e st st' :
  pre_wait_inv st -> step v cfg e st = Some st' -> pre_wait_inv st'.
Proof.
  intros Hinv H Hph. unfold pre_wait_inv in Hinv.
  step_cases H; unfold job_exit in *; sproj;
    repeat match goal with
    | |- context [match ?x with _ => _ end] => destruct x eqn:?
    end; sproj;
    repeat match goal with
    | E : mainpc _ = _ |- _ => rewrite E in *
    end; simpl in *; try lia; try (apply Hinv; lia);
    destruct Hinv as (A1 & A2 & A3); try lia; congruence.
Qed.

Lemma pre_wait_reachable v cfg r evs st :
  exec v cfg evs (init r) = Some st -> pre_wait_inv st.
Proof.
  apply (exec_invariant v cfg pre_wait_inv).
  - intros e s s'. apply pre_wait_step.
  - intros _. simpl. auto.
Qed.

Lemma wait_clock_step v cfg t0 e st st' :
  wait_clock t0 (gracePeriod cfg) st ->
  step v cfg e st = Some st' -> wait_clock t0 (gracePeriod cfg) st'.
Proof.
  intros (K1 & K2 & K3 & (c & Kc & Kd & Ke) & K5) H.
  unfold wait_clock.
  step_cases H; unfold job_exit in *; sproj;
    repeat match goal with
    | |- context [match ?x with _ => _ end] => destruct x eqn:?
    end; sproj;
    repeat match goal with
    | E : mainpc _ = _ |- _ => rewrite E in *
    end; simpl in K1; try lia.
  all: repeat match goal with
       | E : (_ <=? _) = true |- _ => apply Nat.leb_le in E
       end.
  all: try (injection Kc as Kc; subst).
  all: split; [simpl; lia|]; split; [lia|]; split;
         [try discriminate; auto; intros E; specialize (K3 E); congruence|].
  all: split.
  all: try solve
    [ exists c; split; [congruence|]; split; [assumption|];
      intros E; specialize (Ke E); lia
    | rewrite Kc; simpl; exists (cancel c); split; [reflexivity|];
      unfold cancel; destruct (cerr c) eqn:Ec; simpl;
      (split; [assumption|]); intros E; [apply Ke; congruence | discriminate]
    | eexists; split; [reflexivity|]; simpl; split; [assumption | intros _; lia] ].
  all: intros t' Ht'.
  all: try solve
    [ destruct (K5 t' ltac:(congruence)) as [A B]; split; [lia|];
      intros F; specialize (B F); lia
    | injection Ht' as <-; simpl; split; [lia | discriminate]
    | injection Ht' as <-; simpl;
      destruct (K5 _ eq_refl) as [A B]; split; [lia | intros _; lia] ].
Qed.

Lemma wait_clock_armed cfg st s1 :
  pre_wait_inv st -> mainpc st = PcAfterShutdown ->
  step GracefulTimeout cfg MainStep st = Some s1 ->
  wait_clock (now st) (gracePeriod cfg) s1.
Proof.
  intros Hp Hpc H.
  destruct Hp as (A1 & _ & _); [rewrite Hpc; simpl; lia|].
  unfold step in H. destruct (stat st); try discriminate.
  unfold main_step in H. rewrite Hpc in H. injection H as <-.
  unfold wait_clock; sproj. split; [simpl; lia|]. split; [lia|].
  split; [intros _; exact A1|]. split.
  - eexists; split; [reflexivity|]. unfold WithTimeout.
    destruct (gracePeriod cfg =? 0) eqn:E; simpl.
    + apply Nat.eqb_eq in E. split; [lia | intros _; lia].
    + split; [reflexivity | discriminate].
  - intros t Ht. congruence.
Qed.

(** X4. In the grace-period variant, count the seconds that pass between the
    step that makes [ctxJobs] and the moment the [select] takes a case.  A
    timeout is never reported before [gracePeriod] seconds have passed; and
    when the [select] is left earlier than that, it is by the case of
    [ctxJobs.Done()], the counter is zero and every job is over. *)
Theorem early_result_means_finished cfg r evs1 st1 evs2 st2 c st3 :
  exec GracefulTimeout cfg evs1 (init r) = Some st1 ->
  mainpc st1 = PcAfterShutdown ->
  exec GracefulTimeout cfg (MainStep :: evs2) st1 = Some st2 ->
  step GracefulTimeout cfg (Select c) st2 = Some st3 ->
  (c = CaseAfter -> gracePeriod cfg <= tick_count evs2) /\
  (tick_count evs2 < gracePeriod cfg ->
     c = CaseDone /\ wg st2 = 0%Z /\ all_over st2).
Proof.
  intros Hex1 Hpc Hex2 Hsel.
  assert (Hall : exec GracefulTimeout cfg (evs1 ++ MainStep :: evs2) (init r)
                 = Some st2) by (rewrite exec_app, Hex1; exact Hex2).
  cbn [exec] in Hex2.
  destruct (step GracefulTimeout cfg MainStep st1) as [s1|] eqn:E1; [|discriminate].
  pose proof (wait_clock_armed cfg st1 s1
                (pre_wait_reachable _ _ _ _ _ Hex1) Hpc E1) as K.
  assert (K2 : wait_clock (now st1) (gracePeriod cfg) st2).
  { revert Hex2. apply (exec_invariant GracefulTimeout cfg
                          (wait_clock (now st1) (gracePeriod cfg))); auto.
    intros e s s'. apply wait_clock_step. }
  pose proof (exec_now _ _ _ _ _ Hex2) as Hn2.
  pose proof (step_now _ _ _ _ _ E1) as Hn1. simpl in Hn1.
  destruct K2 as (_ & _ & _ & (x & Kx & Kd & Ke) & K5).
  assert (Hafter : c = CaseAfter -> gracePeriod cfg <= tick_count evs2).
  { intros ->. step_cases Hsel.
    destruct (K5 _ eq_refl) as [A B]. specialize (B Heqb). lia. }
  split; [exact Hafter|].
  intros Hlt. destruct c; [|specialize (Hafter eq_refl); lia].
  split; [reflexivity|].
  unfold step in Hsel. destruct (stat st2); try discriminate.
  unfold select_step in Hsel. destruct (mainpc st2); try discriminate.
  rewrite Kx in Hsel. destruct (ctx_done x) eqn:Heqb; [|discriminate].
  unfold ctx_done in Heqb. destruct (cerr x) as [[|]|] eqn:Ex; try discriminate.
  - destruct (canceled_all_over cfg r _ st2 x Hall Kx Ex) as (W & O).
    auto.
  - specialize (Ke eq_refl). lia.
Qed.

(** ** The deadline of the drain *)

Lemma drain_clock_step v cfg dl e st st' :
  drain_clock dl st -> step v cfg e st = Some st' -> drain_clock dl st'.
Proof.
  intros (D1 & D2) H. unfold drain_clock.
  step_cases H; unfold job_exit in *; sproj;
    repeat match goal with
    | |- context [match ?x with _ => _ end] => destruct x eqn:?
    end; sproj;
    repeat match goal with
    | E : mainpc _ = _ |- _ => rewrite E in *
    end; simpl in D1; try lia;
    (split; [simpl; lia|]); try assumption; intros d Hd; try discriminate;
    apply D2; assumption.
Qed.

(** X5. [Shutdown] cannot fail by its deadline before the drain deadline is
    over: between the step in which main makes [ctxShutDown] and calls
    [Shutdown] and a return of [ctx.Err()] at least [drainDeadline] seconds
    pass; and at that return main logs the failure and the process ends with
    code 1, the wait for the jobs never begun. *)
Theorem drain_deadline_not_early v cfg r evs1 st1 evs2 st2 st3 :
  exec v cfg evs1 (init r) = Some st1 ->
  mainpc st1 = PcLogged ->
  exec v cfg (MainStep :: evs2) st1 = Some st2 ->
  step v cfg ShutdownTimeout st2 = Some st3 ->
  drainDeadline cfg <= tick_count evs2 /\
  log st3 = LShutdownFailed :: log st2 /\
  ~ In LWaitingJobs (log st3) /\
  stat st3 = Exited 1.
Proof.
  intros Hex1 Hpc Hex2 Hto.
  assert (Hall : exec v cfg (evs1 ++ MainStep :: evs2) (init r) = Some st2)
    by (rewrite exec_app, Hex1; exact Hex2).
  pose proof (main_reachable _ _ _ _ _ Hall) as Hm2.
  cbn [exec] in Hex2.
  destruct (step v cfg MainStep st1) as [s1|] eqn:E1; [|discriminate].
  assert (K : drain_clock (now st1 + drainDeadline cfg) s1).
  { unfold step in E1. destruct (stat st1); try discriminate.
    unfold main_step in E1. rewrite Hpc in E1. injection E1 as <-.
    unfold drain_clock; sproj. split; [simpl; lia|].
    intros d Hd. injection Hd as <-. reflexivity. }
  assert (K2 : drain_clock (now st1 + drainDeadline cfg) st2).
  { revert Hex2. apply (exec_invariant v cfg
                          (drain_clock (now st1 + drainDeadline cfg))); auto.
    intros e s s'. apply drain_clock_step. }
  pose proof (exec_now _ _ _ _ _ Hex2) as Hn2.
  pose proof (step_now _ _ _ _ _ E1) as Hn1. simpl in Hn1.
  destruct K2 as [_ K2].
  step_cases Hto. sproj.
  pose proof (K2 _ eq_refl) as Hd. apply Nat.leb_le in Heqb.
  split; [lia|]. split; [reflexivity|]. split; [|reflexivity].
  intros [Hin|Hin]; [discriminate Hin|].
  pose proof (In_allowed _ _ _ (mi_log _ Hm2) Hin) as Ha.
  rewrite Heqm in Ha. discriminate Ha.
Qed.

(** ** Signals after [signal.Notify] *)

Lemma killed_step v cfg e st st' :
  killed_inv st -> step v cfg e st = Some st' -> killed_inv st'.
Proof.
  intros _ H s Hs.
  step_cases H; unfold job_exit in *; sproj;
    repeat match goal with
    | _ : context [match ?x with _ => _ end] |- _ => destruct x eqn:?
    end; sproj; congruence.
Qed.

Lemma killed_reachable v cfg r evs st :
  exec v cfg evs (init r) = Some st -> killed_inv st.
Proof.
  apply (exec_invariant v cfg killed_inv).
  - intros e s s'. apply killed_step.
  - intros s H. discriminate H.
Qed.

(** X6. A process that has run [signal.Notify] is never ended by a signal:
    a process is found killed only with main still ahead of [signal.Notify],
    and once main is past it a signal leaves the process running and touches
    neither the counter, nor the handlers, nor the jobs, nor the log. *)
Theorem notified_process_is_not_killed v cfg r evs st :
  exec v cfg evs (init r) = Some st ->
  (forall s, stat st = Killed s -> past_notify (mainpc st) = false) /\
  (past_notify (mainpc st) = true ->
     forall s st',
       step v cfg (Sig s) st = Some st' ->
       stat st' = Running /\ wg st' = wg st /\ handlers st' = handlers st /\
       jobs st' = jobs st /\ log st' = log st).
Proof.
  intros Hex. pose proof (main_reachable _ _ _ _ _ Hex) as Hm.
  pose proof (mi_notified _ Hm) as Hn. split.
  - intros s Hs. rewrite <- Hn. exact (killed_reachable _ _ _ _ _ Hex s Hs).
  - intros Hp s st' H. rewrite Hp in Hn.
    step_cases H; sproj; auto; congruence.
Qed.

(** ** What wrong-simply can do *)

Lemma wrong_plain_step cfg e st st' :
  wrong_inv st -> wrong_plain st ->
  step WrongSimply cfg e st = Some st' -> wrong_plain st'.
Proof.
  intros [Hpc Hn] (W1 & W2 & W3 & W4 & W5) H. unfold wrong_plain.
  step_cases H; unfold job_exit in *; sproj.
  all: try (pose proof (Forall_nth _ _ _ _ W2 Heqo) as Hh; cbn beta in Hh).
  all: try (pose proof (Forall_nth _ _ _ _ W3 Heqo) as [Hj1 Hj2]).
  all: rewrite ?Hj1 in *; cbn [run_defers] in *; sproj.
  all: try (rewrite Heql in *; cbn [existsb is_add is_defer orb] in *).
  all: try discriminate.
  all: try (destruct Hpc; congruence).
  all: repeat split; simpl; auto; try discriminate; try congruence.
  all: try (apply Forall_upd; auto; fail).
  all: try (apply Forall_app; split; [assumption|]; repeat constructor).
  all: apply Forall_upd; [assumption|]; simpl; rewrite ?Heql; simpl; auto.
Qed.

Lemma wrong_plain_reachable cfg r evs st :
  exec WrongSimply cfg evs (init r) = Some st -> wrong_plain st.
Proof.
  intros H.
  assert (wrong_inv st /\ wrong_plain st) as [_ Hw]; [|exact Hw].
  revert H.
  apply (exec_invariant WrongSimply cfg (fun s => wrong_inv s /\ wrong_plain s)).
  - intros e s s' [Hi Hw] H. split.
    + eapply wrong_step; eauto.
    + eapply wrong_plain_step; eauto.
  - split; [split; simpl; auto|].
    unfold wrong_plain; simpl. repeat split; auto. discriminate.
Qed.

(** X7. wrong-simply has no graceful ending: it never exits with code 0 and
    writes no line of a shutdown sequence (only the lines of its jobs and
    "HTTP server shut down"); it exits with code 1 exactly when that line is
    in the log; and its WaitGroup-free handler and jobs leave the counter at
    zero throughout. *)
Theorem wrong_simply_outcomes cfg r evs st :
  exec WrongSimply cfg evs (init r) = Some st ->
  stat st <> Exited 0 /\
  forallb wrong_line (log st) = true /\
  (stat st = Exited 1 <-> In LHTTPDown (log st)) /\
  wg st = 0%Z.
Proof.
  intros Hex.
  destruct (wrong_plain_reachable _ _ _ _ Hex) as (W1 & _ & _ & W4 & W5).
  destruct (wrong_reachable _ _ _ _ Hex) as [Hpc _].
  pose proof (main_reachable _ _ _ _ _ Hex) as Hm.
  split; [|split; [exact W4 | split; [|exact W1]]].
  - intros Hz. pose proof (mi_zero _ Hm Hz). destruct Hpc; congruence.
  - split; [exact W5|]. intros Hin. apply (mi_fail _ Hm). auto.
Qed.


(** ** The lines of main *)

Lemma script_step v cfg e st st' :
  pc_of_variant v (mainpc st) = true -> main_inv st ->
  script_inv v st -> step v cfg e st = Some st' -> script_inv v st'.
Proof.
  intros Hpv Hm (s & res & Hres & Hsig & Hl) H.
  unfold script_inv, main_lines in *.
  step_cases H; unfold job_exit in *; sproj;
    repeat match goal with
    | |- context [match run_defers ?a ?b with _ => _ end] =>
        destruct (run_defers a b) eqn:?
    end; sproj;
    repeat match goal with
    | E : mainpc _ = _ |- _ => rewrite E in *
    end;
    cbn [filter is_main_line rev phase script_progress] in *.
  all: try solve
    [ exists s, res; split; [exact Hres|]; split;
      [ first [exact Hsig | intros; lia | intros; apply Hsig; simpl; lia]
      | first [exact Hl | rewrite Hl; reflexivity] ] ].
  - exists s0, res. split; [exact Hres|]. split; [intros _; reflexivity|].
    rewrite Hl. reflexivity.
  - exists s0, res. split; [exact Hres|]. split; [intros _; reflexivity|].
    rewrite Hl. reflexivity.
  - exists s0, res. split; [exact Hres|]. split; [intros _; exact Heqo|].
    rewrite Hl. reflexivity.
  - exists s, LJobsFinished. split; [left; reflexivity|].
    split; [intros _; apply Hsig; simpl; lia | rewrite Hl; reflexivity].
  - exists s, LJobsFinished. split; [left; reflexivity|].
    split; [intros _; apply Hsig; simpl; lia | rewrite Hl; reflexivity].
  - exists s, LWaitTimeout. split.
    + right. split; [reflexivity|]. destruct v; simpl in Hpv; congruence.
    + split; [intros _; apply Hsig; simpl; lia | rewrite Hl; reflexivity].
Qed.

Lemma script_reachable v cfg r evs st :
  exec v cfg evs (init r) = Some st -> script_inv v st.
Proof.
  intros H.
  assert ((pc_of_variant v (mainpc st) = true /\ main_inv st) /\ script_inv v st)
    as [_ Hs]; [|exact Hs].
  revert H.
  apply (exec_invariant v cfg
           (fun s => (pc_of_variant v (mainpc s) = true /\ main_inv s) /\
                     script_inv v s)).
  - intros e s s' [[Hp Hm] Hs] H. split; [split|].
    + eapply variant_pc_step; eauto.
    + eapply main_step_inv; eauto.
    + eapply script_step; eauto.
  - split; [split; [destruct v; reflexivity | apply main_init]|].
    exists SIGINT, LJobsFinished. split; [left; reflexivity|].
    split; [simpl; lia | reflexivity].
Qed.

(** X8. main writes its lines in the order of the source and each at most
    once: at any moment the lines of main in the log are the first lines of
    one of two scripts, "received signal, waiting for shutdown, waiting jobs,
    (jobs have finished | wait timeout), exiting" or "received signal, waiting
    for shutdown, shutdown failed"; the signal named is the one main acts on;
    the two results of the wait never both appear, and only the grace-period
    variant can write the timeout. *)
Theorem main_lines_follow_script v cfg r evs st :
  exec v cfg evs (init r) = Some st ->
  exists s res n,
    (res = LJobsFinished \/ (res = LWaitTimeout /\ v = GracefulTimeout)) /\
    (main_lines st = firstn n (script s res) \/
     main_lines st = script_failed s) /\
    (main_lines st <> [] -> sig st = Some s).
Proof.
  intros Hex.
  destruct (script_reachable _ _ _ _ _ Hex) as (s & res & Hres & Hsig & Hl).
  exists s, res, (script_progress (mainpc st)).
  split; [exact Hres|]. split.
  - destruct (mainpc st); auto.
  - intros Hne. apply Hsig.
    destruct (mainpc st); simpl in *; try lia; rewrite Hl in Hne; congruence.
Qed.


(** ** The goroutine around [ListenAndServe] *)






(** ** How long the jobs sleep *)

Lemma Intn_bound (n : nat) (r : list nat) :
  0 < n -> fst (Intn n r) < n.
Proof.
  intros Hn. unfold Intn. destruct r as [|x r']; simpl; [exact Hn|].
  apply Nat.mod_upper_bound. lia.
Qed.

Lemma sleep_ok_later v t a : sleep_ok v t a -> sleep_ok v (S t) a.
Proof.
  intros (H1 & H2 & H3 & H4 & H5). repeat split; auto.
  - apply (H5 w H).
  - destruct (H5 w H). lia.
Qed.

Lemma sleep_ok_new_plain v name t :
  v <> GracefulTimeout -> sleep_ok v t (new_job v name 0 t).
Proof.
  intros Hv. unfold sleep_ok, new_job; cbn [jborn jrest jwake jdur jname].
  repeat split; auto; try discriminate.
  - destruct v; simpl; auto. congruence.
  - destruct v; simpl; intros; try discriminate; congruence.
Qed.

Lemma hpos_step v cfg e st st' :
  Forall (hpos v) (handlers st) -> step v cfg e st = Some st' ->
  Forall (hpos v) (handlers st').
Proof.
  intros Hinv H.
  destruct (touches_tracker e) eqn:Ht.
  2:{ destruct (step_frame_tracker _ _ _ _ _ H Ht) as (E1 & _ & _).
      rewrite E1. exact Hinv. }
  destruct e; try discriminate Ht; clear Ht; step_cases H;
    unfold job_exit in *; sproj;
    repeat match goal with
    | |- context [match ?x with _ => _ end] => destruct x eqn:?
    end; sproj; auto.
  - apply Forall_app; split; [assumption|]. constructor; [|constructor].
    unfold hpos; simpl. destruct (ServeHTTP v); simpl; auto.
  - apply Forall_upd; auto. exact (Forall_nth _ _ _ _ Hinv Heqo).
  - apply Forall_upd; auto. pose proof (Forall_nth _ _ _ _ Hinv Heqo) as Hp.
    unfold hpos in *. rewrite Heql in Hp. simpl. now apply hsplits_ran.
  - apply Forall_upd; auto. pose proof (Forall_nth _ _ _ _ Hinv Heqo) as Hp.
    unfold hpos in *. rewrite Heql in Hp. simpl. now apply hsplits_ran.
  - apply Forall_upd; auto. exact (Forall_nth _ _ _ _ Hinv Heqo).
  - apply Forall_upd; auto. pose proof (Forall_nth _ _ _ _ Hinv Heqo) as Hp.
    unfold hpos in *. rewrite Heql in Hp. simpl. now apply hsplits_ran.
  - apply Forall_upd; auto. pose proof (Forall_nth _ _ _ _ Hinv Heqo) as Hp.
    unfold hpos in *. rewrite Heql in Hp. simpl. now apply hsplits_ran.
  - apply Forall_upd; auto. pose proof (Forall_nth _ _ _ _ Hinv Heqo) as Hp.
    unfold hpos in *. rewrite Heql in Hp. simpl. now apply hsplits_ran.
Qed.

Ltac hpos_cases Hp :=
  unfold hpos in Hp; simpl in Hp;
  repeat (destruct Hp as [Hp|Hp]; [injection Hp as ? ? | ]);
  try contradiction.

Lemma sleep_step v cfg e st st' :
  Forall (hpos v) (handlers st) ->
  sleep_inv v st -> step v cfg e st = Some st' -> sleep_inv v st'.
Proof.
  intros Hh Hinv H. unfold sleep_inv in *.
  destruct (touches_tracker e) eqn:Ht.
  2:{ destruct (step_frame_tracker _ _ _ _ _ H Ht) as (_ & E2 & _). rewrite E2.
      destruct e; try discriminate Ht; step_cases H; sproj; auto.
      eapply Forall_impl; [|exact Hinv]. intros a. apply sleep_ok_later. }
  destruct e; try discriminate Ht; clear Ht.
  - (* Req *) step_cases H; sproj; exact Hinv.
  - (* HStep *)
    step_cases H; sproj; auto.
    all: apply Forall_app; split; [assumption|]; constructor; [|constructor].
    all: pose proof (Forall_nth _ _ _ _ Hh Heqo) as Hp.
    all: try (pose proof (Intn_bound 4 (rng st) ltac:(lia)) as Hb;
              rewrite Heqp in Hb; simpl in Hb).
    all: destruct v; hpos_cases Hp;
      repeat match goal with
      | E1 : _ = hrest ?hs, E2 : hrest ?hs = _ |- _ =>
          rewrite <- E1 in E2; try discriminate E2; injection E2 as ? ?; subst
      end.
    all: unfold sleep_ok, new_job, dur_ok, max_sleep;
           cbn [jborn jrest jwake jdur jname slowJob existsb is_sleeparg
                is_sleeprand orb].
    all: repeat split; auto; try discriminate; try lia.
    all: try (right; split; [discriminate | lia]).
    all: try (left; split; reflexivity).
  - (* JStep *)
    step_cases H; unfold job_exit in *; sproj;
      repeat match goal with
      | |- context [match ?x with _ => _ end] => destruct x eqn:?
      end; sproj.
    all: apply Forall_upd; [assumption|].
    all: pose proof (Forall_nth _ _ _ _ Hinv Heqo) as (T1 & T2 & T3 & T4 & T5).
    all: try (pose proof (Intn_bound 4 (rng st) ltac:(lia)) as Hb;
              rewrite Heqp in Hb; simpl in Hb).
    all: rewrite ?Heql in *; cbn [existsb is_sleeprand is_sleeparg orb] in *.
    all: unfold sleep_ok, job_over, job_next, job_defer, job_asleep;
           cbn [jborn jrest jended jwake jdur jname existsb is_sleeprand
                is_sleeparg orb].
    all: rewrite ?Heql; cbn [existsb is_sleeprand is_sleeparg orb].
    all: repeat split; auto; try discriminate.
    all: match goal with H : Some _ = Some _ |- _ => injection H as <- end.
    all: try (specialize (T3 eq_refl); subst v; unfold dur_ok, max_sleep in *;
              cbn [jdur jname] in *; unfold Hour in *; lia).
    all: try (specialize (T4 eq_refl); destruct v; try congruence;
              unfold max_sleep; lia).
  - (* JPanic *)
    step_cases H; unfold job_exit in *; sproj;
      repeat match goal with
      | |- context [match ?x with _ => _ end] => destruct x eqn:?
      end; sproj.
    all: apply Forall_upd; [assumption|].
    all: pose proof (Forall_nth _ _ _ _ Hinv Heqo) as (T1 & T2 & T3 & T4 & T5).
    all: unfold sleep_ok, job_over;
           cbn [jborn jrest jended jwake jdur jname existsb is_sleeprand
                is_sleeparg orb].
    all: repeat split; auto; try discriminate.
Qed.

Lemma hpos_reachable v cfg r evs st :
  exec v cfg evs (init r) = Some st -> Forall (hpos v) (handlers st).
Proof.
  apply (exec_invariant v cfg (fun s => Forall (hpos v) (handlers s))).
  - intros e s s'. apply hpos_step.
  - constructor.
Qed.

Lemma sleep_reachable v cfg r evs st :
  exec v cfg evs (init r) = Some st -> sleep_inv v st.
Proof.
  intros H.
  enough (Forall (hpos v) (handlers st) /\ sleep_inv v st) by tauto.
  revert H.
  apply (exec_invariant v cfg
           (fun s => Forall (hpos v) (handlers s) /\ sleep_inv v s)).
  - intros e s s' [Hh Hs] H. split.
    + eapply hpos_step; eauto.
    + eapply sleep_step; eauto.
  - split; constructor.
Qed.

(** X10.  Sleep of the jobs.  In every reachable state of every variant a
    job was dispatched no later than now; in the grace-period variant its
    duration argument is one hour for "job4 very slow" and between one and
    four seconds for the others (rand.Intn(4)+1, drawn by the handler); and a
    job that is asleep wakes later than its dispatch and no later than four
    seconds from now, the job given an explicit duration no later than that
    duration from now. *)
Theorem sleeping_job_wakes_in_bound v cfg r evs st j a :
  exec v cfg evs (init r) = Some st ->
  nth_error (jobs st) j = Some a ->
  jborn a <= now st /\ dur_ok v a /\
  forall w, jwake a = Some w -> jborn a < w /\ w <= now st + max_sleep v a.
Proof.
  intros H Hj. pose proof (sleep_reachable _ _ _ _ _ H) as Hs.
  destruct (Forall_nth _ _ _ _ Hs Hj) as (T1 & T2 & _ & _ & T5). auto.
Qed.

(** * The WaitGroup never panics *)

Lemma run_defers_nonneg n : forall c c',
  run_defers n c = Some c' -> (0 <= c)%Z -> (0 <= c')%Z.
Proof.
  induction n as [|n IH]; simpl; intros c c' H Hc.
  - injection H as <-. exact Hc.
  - unfold wg_Done, wg_Add in H.
    destruct (c + -1 <? 0)%Z eqn:E; [discriminate|].
    apply Z.ltb_ge in E. eapply IH; eauto.
Qed.

Lemma whole_step v cfg e st st' :
  whole_inv v st -> step v cfg e st = Some st' -> whole_inv v st'.
Proof.
  intros [Hw Hh] H. unfold whole_inv.
  destruct (touches_tracker e) eqn:Ht.
  2:{ destruct (step_frame_tracker _ _ _ _ _ H Ht) as (E1 & _ & E3).
      rewrite E1, E3. auto. }
  destruct e; try discriminate Ht; clear Ht; step_cases H;
    unfold job_exit in *; sproj;
    repeat match goal with
    | |- context [match ?x with _ => _ end] => destruct x eqn:?
    end; sproj; auto.
  all: try (split; [eapply run_defers_nonneg; eauto | assumption]).
  all: split;
    [ try assumption;
      try (unfold wg_Add in *;
           match goal with
           | E : (if (?c <? 0)%Z then _ else _) = Some _ |- _ =>
               destruct (c <? 0)%Z eqn:Ez; [discriminate|];
               injection E as <-; apply Z.ltb_ge in Ez; exact Ez
           end)
    | ].
  1:{ apply Forall_app; split; [assumption|]. constructor; [|constructor].
      split; [|discriminate]. unfold hpos; simpl.
      destruct (ServeHTTP v); simpl; auto. }
  all: apply Forall_upd; [assumption|].
  all: pose proof (Forall_nth _ _ _ _ Hh Heqo) as [Hp Hr].
  all: try (split; [|discriminate]; unfold hpos in *; rewrite Heql in Hp; simpl;
            now apply hsplits_ran).
  all: try (split; [exact Hp | intros _; exact Heql]).
  exfalso. unfold wg_Add in *.
  destruct (wg st + n <? 0)%Z eqn:Ez; [|discriminate]. apply Z.ltb_lt in Ez.
  destruct v; hpos_cases Hp;
    repeat match goal with
    | E : _ = hrest h0 |- _ => rewrite Heql in E; try discriminate E;
                               injection E as ? ?
    end; subst; lia.
Qed.

Lemma whole_reachable v cfg r evs st :
  exec v cfg evs (init r) = Some st -> whole_inv v st.
Proof.
  apply (exec_invariant v cfg (whole_inv v)).
  - intros e s s'. apply whole_step.
  - split; simpl; [lia | constructor].
Qed.

Lemma exit2_needs_panic v cfg r evs st e st' :
  exec v cfg evs (init r) = Some st ->
  step v cfg e st = Some st' -> stat st' = Exited 2 -> is_crash e = true.
Proof.
  intros H Hs Hx.
  destruct (is_crash e) eqn:Hp; [reflexivity|]. exfalso.
  destruct e; try discriminate Hp; clear Hp.
  all: try (step_cases Hs; sproj;
            repeat match goal with
            | _ : context [match ?x with _ => _ end] |- _ => destruct x eqn:?
            end; sproj; congruence).
  (* JStep: a job that returns runs its deferred Done *)
  pose proof (step_running _ _ _ _ _ Hs) as Hrun.
  unfold step in Hs. rewrite Hrun in Hs. unfold job_step, wake_up in Hs.
  destruct (nth_error (jobs st) j) as [a|] eqn:Hn; [|discriminate].
  destruct (jended a) eqn:He; [discriminate|].
  destruct (jrest a) as [|s k] eqn:Hk.
  2:{ destruct s; break_in Hs; injection Hs as <-; sproj; congruence. }
  injection Hs as <-.
  destruct (registers v) eqn:Hv.
  - pose proof (tracker_reachable _ _ _ _ _ Hv H) as Ht.
    destruct (job_exit_tracker v st j a Hv Ht Hn He) as (_ & _ & E).
    { rewrite Hk. exact I. }
    congruence.
  - destruct v; try discriminate Hv.
    destruct (wrong_plain_reachable _ _ _ _ H) as (_ & _ & Hj & _).
    destruct (Forall_nth _ _ _ _ Hj Hn) as [Hd _].
    unfold job_exit in Hx. rewrite Hd in Hx. simpl in Hx. sproj. congruence.
Qed.

(** X11.  The WaitGroup never panics.  In every reachable state of every
    variant the counter is not negative and every handler that has returned
    has run all of ServeHTTP (its wg.Add did not panic); and a step ends the
    process with the exit code of a panic only if a statement of a job
    panics or the client goroutine panics on its refused http.Get: neither
    wg.Add in ServeHTTP nor the deferred wg.Done of slowJob ever drives the
    counter negative. *)
Theorem waitgroup_never_panics v cfg r evs st :
  exec v cfg evs (init r) = Some st ->
  (0 <= wg st)%Z /\
  Forall (fun hs => hret hs = true -> hrest hs = []) (handlers st) /\
  forall e st', step v cfg e st = Some st' -> stat st' = Exited 2 ->
                is_crash e = true.
Proof.
  intros H. destruct (whole_reachable _ _ _ _ _ H) as [Hw Hh].
  split; [exact Hw|]. split.
  { eapply Forall_impl; [|exact Hh]. intros a [_ Ha]. exact Ha. }
  intros e st' Hs Hx. eapply exit2_needs_panic; eauto.
Qed.

(** * The closed system: the process with its own client *)

Lemma cexec_app v cfg (e1 e2 : list cevent) (s : sys) :
  cexec v cfg (e1 ++ e2) s =
  match cexec v cfg e1 s with
  | Some s' => cexec v cfg e2 s'
  | None => None
  end.
Proof.
  revert s; induction e1 as [|e es IH]; intros s; simpl; [reflexivity|].
  destruct (cstep v cfg e s); auto.
Qed.

Lemma cexec_invariant v cfg (P : sys -> Prop) (ok : cevent -> bool) :
  (forall e s s', ok e = true -> P s -> cstep v cfg e s = Some s' -> P s') ->
  forall evs s s', forallb ok evs = true -> P s ->
                   cexec v cfg evs s = Some s' -> P s'.
Proof.
  intros Hstep evs. induction evs as [|e es IH]; simpl; intros s s' Hok Hs H.
  - injection H as <-. exact Hs.
  - apply andb_prop in Hok as [Hoe Hoes].
    destruct (cstep v cfg e s) as [s1|] eqn:E; [|discriminate].
    apply (IH s1 s' Hoes); [eapply Hstep; eauto | exact H].
Qed.

Lemma forallb_true {A} (l : list A) : forallb (fun _ => true) l = true.
Proof. induction l; simpl; auto. Qed.

Lemma cstep_running v cfg e s s' :
  cstep v cfg e s = Some s' -> stat (proc s) = Running.
Proof.
  destruct e as [e|]; simpl.
  - destruct (internal e); [|discriminate].
    destruct (step v cfg e (proc s)) eqn:E; [|discriminate].
    intros _. eapply step_running; eauto.
  - unfold client_step. destruct (stat (proc s)); try discriminate. reflexivity.
Qed.

Lemma open_state_step v cfg r e s s' :
  open_state v cfg r (proc s) -> cstep v cfg e s = Some s' ->
  open_state v cfg r (proc s').
Proof.
  intros (oevs & p & Hp & Hq) Hs.
  pose proof (cstep_running _ _ _ _ _ Hs) as Hrun.
  destruct Hq as [Hq|[Hq _]]; [|rewrite Hq in Hrun; discriminate Hrun].
  rewrite <- Hq in Hp. clear Hq p.
  assert (Hext : forall e p', step v cfg e (proc s) = Some p' ->
                              open_state v cfg r p').
  { intros e' p' He. exists (oevs ++ [e']), p'. split; [|auto].
    rewrite exec_app, Hp. simpl. now rewrite He. }
  assert (Hsame : open_state v cfg r (proc s)) by (exists oevs, (proc s); auto).
  destruct e as [e|]; simpl in Hs.
  - destruct (internal e); [|discriminate].
    destruct (step v cfg e (proc s)) eqn:E; [|discriminate].
    injection Hs as <-. simpl. eauto.
  - unfold client_step, client_run, client_get in Hs. rewrite Hrun in Hs.
    break_in Hs; injection Hs as <-; cbn [proc]; auto.
    all: try (apply (Hext Req); unfold step; rewrite Hrun; assumption).
    all: try (exists oevs, (proc s); auto; fail).
    all: apply (Hext (Sig SIGINT)); unfold step; now rewrite Hrun.
Qed.

Lemma open_state_init v cfg r : open_state v cfg r (proc (cinit r)).
Proof. exists [], (init r). simpl. auto. Qed.

Lemma closed_is_open v cfg r evs s :
  cexec v cfg evs (cinit r) = Some s -> open_state v cfg r (proc s).
Proof.
  intros H.
  apply (cexec_invariant v cfg (fun s => open_state v cfg r (proc s))
           (fun _ => true)) with (evs := evs) (s := cinit r);
    [|apply forallb_true|apply open_state_init|exact H].
  intros e s0 s1 _. apply open_state_step.
Qed.

Lemma whole_of_open v cfg r q : open_state v cfg r q -> whole_inv v q.
Proof.
  intros (oevs & p & Hp & [->|[-> _]]);
    pose proof (whole_reachable _ _ _ _ _ Hp) as Hw; [exact Hw|].
  unfold whole_inv in *; sproj. exact Hw.
Qed.

(** What the process keeps of a state that leaves no trace of a signal. *)
Lemma quiet_step v cfg e p p' :
  internal e = true -> quiet p -> step v cfg e p = Some p' -> quiet p'.
Proof.
  intros Hi (Q1 & Q2 & Q3 & Q4 & Q5) H. unfold quiet.
  destruct e; try discriminate Hi; clear Hi; step_cases H;
    unfold job_exit in *; sproj;
    repeat match goal with
    | |- context [match ?x with _ => _ end] => destruct x eqn:?
    end; sproj;
    try congruence;
    try match goal with
        | E : mainpc _ = _ |- _ => rewrite E in Q4; try discriminate Q4
        end;
    repeat split; auto; try discriminate; try congruence.
Qed.

Lemma only_sigint_step v cfg e p p' :
  internal e = true -> only_sigint p -> step v cfg e p = Some p' ->
  only_sigint p'.
Proof.
  intros Hi (Q1 & Q2 & Q3) H. unfold only_sigint.
  pose proof (step_running _ _ _ _ _ H) as Hrun.
  destruct e; try discriminate Hi; clear Hi; step_cases H;
    unfold job_exit in *; sproj;
    repeat match goal with
    | |- context [match ?x with _ => _ end] => destruct x eqn:?
    end; sproj;
    repeat split; auto; try discriminate; try congruence.
  1: inversion Q2; subst; intros x E; injection E as <-; reflexivity.
  1: inversion Q2; subst; assumption.
  rewrite Heqo. exact Q1.
Qed.

Lemma only_sigint_deliver cfg p :
  stat p = Running -> only_sigint p -> only_sigint (deliver cfg SIGINT p).
Proof.
  intros Hrun (Q1 & Q2 & Q3). unfold only_sigint, deliver.
  repeat match goal with
  | |- context [match ?x with _ => _ end] => destruct x eqn:?
  | |- context [if ?x then _ else _] => destruct x eqn:?
  end; sproj; repeat split; auto; try congruence.
  all: try (apply Forall_app; split; auto).
  all: try (intros x E; injection E as <-; reflexivity).

Qed.

Lemma map_jname_upd (l : list job) (j : nat) (a b : job) :
  nth_error l j = Some a -> jname b = jname a ->
  map jname (upd_nth j b l) = map jname l.
Proof.
  revert j; induction l as [|x t IH]; intros [|j] H E; simpl in *;
    try discriminate; auto.
  - injection H as ->. now rewrite E.
  - f_equal. auto.
Qed.

Lemma go_names_app (l1 l2 : list hstmt) :
  go_names (l1 ++ l2) = go_names l1 ++ go_names l2.
Proof.
  induction l1 as [|[| |] t IH]; simpl; auto. now rewrite IH.
Qed.

Lemma idle_step v cfg e p p' :
  internal e = true -> idle p -> step v cfg e p = Some p' -> idle p'.
Proof.
  intros Hi [Hh Hj] H. unfold idle.
  destruct (touches_tracker e) eqn:Ht.
  2:{ destruct (step_frame_tracker _ _ _ _ _ H Ht) as (E1 & E2 & _).
      rewrite E1, E2. auto. }
  destruct e; try discriminate Ht; try discriminate Hi; step_cases H;
    rewrite ?Hh, ?Hj in *;
    match goal with
    | E : nth_error [] ?n = Some _ |- _ => destruct n; discriminate E
    end.
Qed.

Lemma one_request_step v cfg e p p' :
  internal e = true -> one_request p -> step v cfg e p = Some p' ->
  one_request p'.
Proof.
  intros Hi (hs & Hh & Hj) H. unfold one_request.
  destruct (touches_tracker e) eqn:Ht.
  2:{ destruct (step_frame_tracker _ _ _ _ _ H Ht) as (E1 & E2 & _).
      rewrite E1, E2. eauto. }
  destruct e; try discriminate Ht; try discriminate Hi; clear Ht Hi;
    step_cases H; unfold job_exit in *; sproj;
    repeat match goal with
    | |- context [match ?x with _ => _ end] => destruct x eqn:?
    end; sproj.
  all: try (exists hs; split; [assumption|];
            erewrite map_jname_upd; [exact Hj | eassumption | reflexivity]).
  all: rewrite Hh in *;
    (destruct h as [|h]; [injection Heqo as <- | destruct h; discriminate Heqo]).
  all: eexists; split; [reflexivity|].
  all: unfold h_ran, h_returned; cbn [hdone rev]; rewrite ?map_app, ?go_names_app;
       cbn [go_names map new_job jname]; rewrite ?app_nil_r; congruence.
Qed.

Lemma returned_step v cfg e p p' :
  internal e = true -> forallb hret (handlers p) = true ->
  step v cfg e p = Some p' -> forallb hret (handlers p') = true.
Proof.
  intros Hi Hr H.
  destruct (touches_tracker e) eqn:Ht.
  2:{ destruct (step_frame_tracker _ _ _ _ _ H Ht) as (E1 & _).
      now rewrite E1. }
  destruct e; try discriminate Ht; try discriminate Hi; clear Ht Hi;
    step_cases H; unfold job_exit in *; sproj;
    repeat match goal with
    | |- context [match ?x with _ => _ end] => destruct x eqn:?
    end; sproj; auto.
  all: pose proof (forallb_hret_nth _ _ _ Hr Heqo); congruence.
Qed.

Lemma client_inv_proc v cfg e s p' :
  internal e = true -> client_inv s -> step v cfg e (proc s) = Some p' ->
  client_inv {| proc := p'; cli := cli s |}.
Proof.
  intros Hi [I1 I2 I3 I4 I5 I6 I7 I8 I9 I10 I11 I12] H.
  pose proof (step_now _ _ _ _ _ H) as Hn.
  constructor; cbn [proc cli]; auto.
  - intros E. destruct (I2 E). split; auto. eapply idle_step; eauto.
  - intros h E. destruct (I3 h E) as (? & ? & ?). repeat split; auto.
    eapply one_request_step; eauto.
  - intros E. destruct (I4 E). split; auto. eapply returned_step; eauto.
  - intros E. eapply quiet_step; eauto.
  - eapply only_sigint_step; eauto.
  - intros E. specialize (I8 E). lia.
  - intros E. specialize (I10 E). lia.
Qed.

Lemma client_step_run v cfg s s' :
  client_step v cfg s = Some s' ->
  stat (proc s) = Running /\ mainpc (proc s) <> PcStart /\
  client_run v cfg s = Some s'.
Proof.
  unfold client_step.
  destruct (stat (proc s)); try discriminate.
  destruct (mainpc (proc s)); try discriminate; intros H; repeat split;
    auto; discriminate.
Qed.

Lemma crest_cases (c : client) :
  crest c = skipn (cpos c) mockRequestAndTermination ->
  cpos c <= 8 /\ List.length (crest c) = 8 - cpos c.
Proof.
  intros H. unfold cpos in *.
  change (List.length mockRequestAndTermination) with 8 in *.
  assert (List.length (crest c) <= 8).
  { rewrite H, length_skipn.
    change (List.length mockRequestAndTermination) with 8. lia. }
  lia.
Qed.

Lemma whole_body v hs :
  hpos v hs -> hrest hs = [] -> body hs = "job started"%string.
Proof.
  intros Hp Hr. unfold body.
  destruct v; hpos_cases Hp;
    repeat match goal with
    | E : _ = hrest hs |- _ => rewrite Hr in E; try discriminate E; clear E
    end;
    match goal with E : _ = hdone hs |- _ => rewrite <- E end; reflexivity.
Qed.

Lemma deliver_frame cfg x p :
  handlers (deliver cfg x p) = handlers p /\
  jobs (deliver cfg x p) = jobs p /\ now (deliver cfg x p) = now p.
Proof.
  unfold deliver.
  repeat match goal with
  | |- context [match ?x with _ => _ end] => destruct x eqn:?
  end; sproj; auto.
Qed.

Lemma req_frame v p p' :
  req_step v p = Some p' ->
  p' = set_handlers
         (handlers p ++ [{| hdone := []; hrest := ServeHTTP v; hret := false |}]) p.
Proof.
  unfold req_step. intros H. break_in H. now injection H as <-.
Qed.

Lemma quiet_crash p : quiet p -> quiet (crash p).
Proof.
  intros (Q1 & Q2 & Q3 & Q4 & Q5). unfold quiet; sproj.
  repeat split; auto; discriminate.
Qed.

Lemma only_sigint_crash p : only_sigint p -> only_sigint (crash p).
Proof.
  intros (Q1 & Q2 & Q3). unfold only_sigint; sproj.
  repeat split; auto; discriminate.
Qed.

Ltac split_pos k n tac :=
  lazymatch k with
  | O => idtac
  | S ?k' => destruct n as [|n]; [tac | split_pos k' n tac]
  end.

Lemma client_inv_cli v cfg s s' :
  whole_inv v (proc s) -> client_inv s -> client_step v cfg s = Some s' ->
  client_inv s'.
Proof.
  intros [_ Hw] [I1 I2 I3 I4 I5 I6 I7 I8 I9 I10 I11 I12] H.
  apply client_step_run in H as (Hrun & Hpc & H).
  destruct (crest_cases _ I1) as [Hle _].
  unfold client_run, client_get in H.
  remember (cpos (cli s)) as n eqn:Hn.
  unfold mockRequestAndTermination in I1.
  split_pos 9 n ltac:(cbn [skipn] in I1; rewrite I1 in *; cbv beta iota in H);
    [..|lia].
  all: try discriminate H.
  all: try (assert (I4' := I4 ltac:(lia)); destruct I4' as [I4a I4b]).
  all: try (assert (I5' := I5 ltac:(lia))).
  all: try (assert (I8' := I8 ltac:(lia))).
  all: try (assert (I10' := I10 ltac:(lia))).
  all: try (assert (I12' := I12 ltac:(lia))).
  all: try (assert (I7' := I7 eq_refl)).
  all: try (assert (I9' := I9 eq_refl)).
  all: cbn [Nat.leb app] in I11.
  all: clear I4 I5 I7 I8 I9 I10 I12.
  all: destruct (cconn (cli s)) as [h|] eqn:Hc;
    [ destruct (I3 h eq_refl) as (-> & I3b & (hs & Hhs & Hjs)); try congruence
    | destruct (I2 eq_refl) as ([Hh0 Hj0] & I2b); try lia ].
  all: clear I2 I3.
  all: break_in H; injection H as <-.
  all: try match goal with
       | E : req_step _ _ = Some _ |- _ => apply req_frame in E; subst
       end.
  all: pose proof (deliver_frame cfg SIGINT (proc s)) as (D1 & D2 & D3).
  all: repeat match goal with
       | E : (_ <=? _) = true |- _ => apply Nat.leb_le in E
       end.
  all: constructor; unfold cpos, c_next, c_asleep, c_conn, c_read, logClient;
    cbn [proc cli crest cwake cconn cmsg clog List.length
         mockRequestAndTermination Nat.sub Nat.leb app];
    rewrite ?I1, ?D3; cbn [List.length Nat.sub Nat.leb app].
  all: try (intros; lia).
  all: try reflexivity.
  all: try assumption.
  all: try (intros; discriminate).
  all: try (intros; congruence).
  all: auto using quiet_crash, only_sigint_crash, only_sigint_deliver.
  all: try (intros _; apply quiet_crash; assumption).
  all: try (intros _; unfold quiet in *; sproj; assumption).
  all: try (unfold only_sigint in *; sproj; assumption).
  all: try (intros _ w E; injection E as <-;
            try specialize (I7' _ eq_refl); lia).
  all: try (intros _; specialize (I7' _ eq_refl); lia).
  all: try (intros _; specialize (I9' _ eq_refl); lia).
  all: try (intros _; split; [unfold idle; sproj; auto | lia]).
  all: try (intros h' E; try rewrite Hc in E; injection E as <-;
            rewrite ?Hh0; split; [reflexivity|]; split; [lia|];
            unfold one_request; rewrite ?D1, ?D2; sproj;
            rewrite ?Hh0, ?Hj0; eexists; split; eauto; fail).
  all: try (intros _; split; [congruence|]; try assumption;
            rewrite Hhs in *;
            match goal with
            | E : nth_error [_] 0 = Some _ |- _ => injection E as ->
            end; simpl; rewrite andb_true_r; assumption).
  all: try (rewrite I11, I12'; reflexivity).
  - intros h' E. injection E as <-. rewrite Hh0. split; [reflexivity|].
    split; [lia|]. unfold one_request; sproj. rewrite ?Hh0, ?Hj0.
    eexists; split; reflexivity.
  - intros _. rewrite Hhs in *.
    destruct (Forall_nth _ _ _ _ Hw Heqo) as [Hp Hr].
    apply whole_body with (v := v); [exact Hp|]. apply Hr.
    eapply forallb_hret_nth; eauto.
  - intros _. split; [congruence|]. now rewrite D1.
Qed.

Lemma client_inv_init r : client_inv (cinit r).
Proof.
  constructor; unfold cpos; simpl; try (intros; lia);
    try (intros; discriminate); auto.
  - intros _. split; [split; reflexivity | lia].
  - intros _. repeat split; auto; discriminate.
  - repeat split; auto; discriminate.
Qed.

Lemma client_inv_step v cfg r e s s' :
  open_state v cfg r (proc s) -> client_inv s -> cstep v cfg e s = Some s' ->
  client_inv s'.
Proof.
  intros Ho Hi H. destruct e as [e|]; simpl in H.
  - destruct (internal e) eqn:Hint; [|discriminate].
    destruct (step v cfg e (proc s)) eqn:E; [|discriminate].
    injection H as <-. eapply client_inv_proc; eauto.
  - eapply client_inv_cli; eauto. eapply whole_of_open; eauto.
Qed.

Lemma closed_reachable v cfg r evs s :
  cexec v cfg evs (cinit r) = Some s ->
  client_inv s /\ whole_inv v (proc s).
Proof.
  intros H.
  enough (client_inv s /\ open_state v cfg r (proc s)) as [H1 H2]
    by (split; [exact H1 | eapply whole_of_open; eauto]).
  apply (cexec_invariant v cfg
           (fun s => client_inv s /\ open_state v cfg r (proc s))
           (fun _ => true)) with (evs := evs) (s := cinit r);
    [|apply forallb_true|split; [apply client_inv_init|apply open_state_init]
     |exact H].
  intros e s0 s1 _ [H1 H2] Hs. split.
  - eapply client_inv_step; eauto.
  - eapply open_state_step; eauto.
Qed.

Lemma hpos_done v hs :
  hpos v hs -> hrest hs = [] -> hdone hs = rev (ServeHTTP v).
Proof.
  intros Hp Hr.
  destruct v; hpos_cases Hp;
    repeat match goal with
    | E : _ = hrest hs |- _ => rewrite Hr in E; try discriminate E; clear E
    end;
    match goal with E : _ = hdone hs |- _ => rewrite <- E end; reflexivity.
Qed.

Lemma hpos_prefix v hs :
  hpos v hs ->
  exists k, go_names (rev (hdone hs)) = firstn k (go_names (ServeHTTP v)).
Proof.
  intros Hp.
  destruct v; hpos_cases Hp;
    match goal with E : _ = hdone hs |- _ => rewrite <- E end; simpl.
  all: first [ now exists 0 | now exists 1 | now exists 2 | now exists 3
             | now exists 4 ].
Qed.

Lemma sending_pos (s : sys) :
  client_inv s -> In (CLSending SIGINT) (clog (cli s)) -> 7 <= cpos (cli s).
Proof.
  intros Hi Hin. rewrite (ci_log _ Hi) in Hin.
  destruct (7 <=? cpos (cli s)) eqn:E; [now apply Nat.leb_le in E|].
  destruct (5 <=? cpos (cli s)); simpl in Hin;
    [destruct Hin as [Hin|[]]; discriminate Hin | destruct Hin].
Qed.

(** X12.  The client sends its signal after the answer.  In every run of a
    variant with mockRequestAndTermination as the only source of requests and
    signals: once the client has logged that it sends the signal, at least
    three seconds have passed since the start, the client has logged the body
    "job started" before, and the one handler has run all of ServeHTTP and
    returned, so that every job of the request has been dispatched, in the
    order of the go statements. *)
Theorem signal_follows_response v cfg r evs s :
  cexec v cfg evs (cinit r) = Some s ->
  In (CLSending SIGINT) (clog (cli s)) ->
  3 <= now (proc s) /\
  rev (clog (cli s)) = [CLReceived "job started"; CLSending SIGINT] /\
  exists hs, handlers (proc s) = [hs] /\ hret hs = true /\
             hdone hs = rev (ServeHTTP v) /\
             map jname (jobs (proc s)) = go_names (ServeHTTP v).
Proof.
  intros H Hin. destruct (closed_reachable _ _ _ _ _ H) as [Hi [_ Hw]].
  pose proof (sending_pos _ Hi Hin) as Hpos.
  split; [apply (ci_woke2 _ Hi); lia|]. split.
  { rewrite (ci_log _ Hi).
    destruct (Nat.leb_spec 7 (cpos (cli s))); [|lia].
    destruct (Nat.leb_spec 5 (cpos (cli s))); [|lia]. reflexivity. }
  destruct (ci_served _ Hi ltac:(lia)) as [Hc Hr].
  destruct (cconn (cli s)) as [h|] eqn:Ec; [|congruence].
  destruct (ci_some _ Hi h Ec) as (_ & _ & hs & Hh & Hj).
  exists hs. rewrite Hh in *. simpl in Hr. rewrite andb_true_r in Hr.
  inversion Hw as [|x t [Hp Hd] _]; subst.
  pose proof (hpos_done _ _ Hp (Hd Hr)) as Hdone.
  repeat split; auto. rewrite Hj, Hdone, rev_involutive. reflexivity.
Qed.

(** X13.  Only the client signals, and only at its end.  In every run of
    the closed system, when the process shows a trace of a signal (a signal
    taken or buffered, Shutdown called, main past the receive, or the process
    killed), the client has run its last statement and logged that it sends
    the signal, the signal is SIGINT, three seconds have passed, and every
    handler has returned: the drain begins with no handler running. *)
Theorem only_the_client_signals v cfg r evs s :
  cexec v cfg evs (cinit r) = Some s ->
  (sig (proc s) <> None \/ termChan (proc s) <> [] \/
   inShutdown (proc s) = true \/ phase (mainpc (proc s)) <> 0 \/
   exists x, stat (proc s) = Killed x) ->
  crest (cli s) = [] /\ In (CLSending SIGINT) (clog (cli s)) /\
  only_sigint (proc s) /\ 3 <= now (proc s) /\
  forallb hret (handlers (proc s)) = true.
Proof.
  intros H Ht. destruct (closed_reachable _ _ _ _ _ H) as [Hi _].
  destruct (crest_cases _ (ci_suffix _ Hi)) as [Hle Hlen].
  assert (Hpos : cpos (cli s) = 8).
  { destruct (Nat.le_gt_cases (cpos (cli s)) 7) as [Hq|Hq]; [|lia].
    destruct (ci_quiet _ Hi Hq) as (Q1 & Q2 & Q3 & Q4 & Q5). exfalso.
    destruct Ht as [Ht|[Ht|[Ht|[Ht|[x Ht]]]]]; try congruence;
      try exact (Q5 x Ht). }
  destruct (ci_served _ Hi ltac:(lia)) as [_ Hr].
  split. { rewrite Hpos in Hlen. destruct (crest (cli s)); [auto|discriminate]. }
  split. { rewrite (ci_log _ Hi), Hpos. simpl. auto. }
  split; [exact (ci_sigint _ Hi)|]. split; [apply (ci_woke2 _ Hi); lia|].
  exact Hr.
Qed.

Lemma open_running v cfg r q :
  open_state v cfg r q -> stat q = Running ->
  exists evs, exec v cfg evs (init r) = Some q.
Proof.
  intros (oevs & p & Hp & [->|[-> _]]) Hrun; [eauto|].
  discriminate Hrun.
Qed.

Lemma deliver_stat cfg x p :
  stat p = Running -> stat (deliver cfg x p) <> Exited 2.
Proof.
  intros Hrun. unfold deliver.
  repeat match goal with
  | |- context [match ?x with _ => _ end] => destruct x eqn:?
  end; sproj; congruence.
Qed.

Lemma refused_step v cfg r e s s' :
  no_injected e = true ->
  open_state v cfg r (proc s) -> client_inv s ->
  cstep v cfg e s = Some s' -> stat (proc s') = Exited 2 -> refused s'.
Proof.
  intros Hok Ho Hi H Hx.
  pose proof (cstep_running _ _ _ _ _ H) as Hrun.
  destruct e as [e|]; simpl in H.
  - destruct (internal e) eqn:Hint; [|discriminate].
    destruct (step v cfg e (proc s)) as [p'|] eqn:E; [|discriminate].
    injection H as <-. cbn [proc] in Hx.
    destruct (open_running _ _ _ _ Ho Hrun) as [oevs Hp].
    pose proof (exit2_needs_panic _ _ _ _ _ _ _ Hp E Hx) as Hpan.
    unfold no_injected, is_cpanic in Hok.
    destruct e; try discriminate Hpan; try discriminate Hint;
      discriminate Hok.
  - pose proof (whole_of_open _ _ _ _ Ho) as [_ Hw].
    destruct Hi as [I1 I2 I3 I4 I5 I6 I7 I8 I9 I10 I11 I12].
    apply client_step_run in H as (_ & Hpc & H).
    destruct (crest_cases _ I1) as [Hle _].
    unfold client_run, client_get in H.
    remember (cpos (cli s)) as n eqn:Hn.
    unfold mockRequestAndTermination in I1.
    split_pos 9 n ltac:(cbn [skipn] in I1; rewrite I1 in *; cbv beta iota in H);
      [..|lia].
    all: try discriminate H.
    all: pose proof (deliver_stat cfg SIGINT _ Hrun) as Hd.
    all: break_in H; injection H as <-; cbn [proc cli] in *.
    all: try congruence.
    all: try match goal with
         | E : req_step _ _ = Some _ |- _ =>
             apply req_frame in E; subst; sproj; congruence
         end.
    + exfalso. destruct (Forall_nth _ _ _ _ Hw Heqo0) as [_ Hr].
      rewrite (Hr Heqb) in Heql. discriminate Heql.
    + destruct (I2 eq_refl) as [[Hh Hj] _].
      destruct (I5 ltac:(lia)) as (_ & _ & Q3 & _).
      unfold refused; cbn [proc cli]. rewrite <- Hn.
      repeat split; sproj; auto.
      intros Hs. unfold req_step in Heqo0. rewrite Hs, Q3 in Heqo0.
      discriminate Heqo0.
Qed.

Lemma length_one_request p : one_request p -> List.length (handlers p) = 1.
Proof. intros (hs & -> & _). reflexivity. Qed.

(** X14.  One request, and the one crash.  In every run of the closed
    system the server has had at most one request, and the jobs dispatched
    are the first ones of the go statements of ServeHTTP, in order.  If no
    panic is injected into a job, the process ends with the exit code of a
    panic only when http.Get found the listener not open: the client was at
    http.Get with no connection, nothing was dispatched, and the client had
    logged nothing. *)
Theorem closed_run_has_one_request v cfg r evs s :
  cexec v cfg evs (cinit r) = Some s ->
  List.length (handlers (proc s)) <= 1 /\
  (exists k, map jname (jobs (proc s)) = firstn k (go_names (ServeHTTP v))) /\
  (forallb no_injected evs = true -> stat (proc s) = Exited 2 -> refused s).
Proof.
  intros H. destruct (closed_reachable _ _ _ _ _ H) as [Hi [_ Hw]].
  assert (Hreq : idle (proc s) \/ one_request (proc s)).
  { destruct (cconn (cli s)) as [h|] eqn:Ec.
    - right. now destruct (ci_some _ Hi h Ec) as (_ & _ & Ho).
    - left. now destruct (ci_none _ Hi Ec). }
  split; [|split].
  - destruct Hreq as [[-> _]|Ho]; [simpl; lia|].
    rewrite (length_one_request _ Ho). lia.
  - destruct Hreq as [[_ ->]|(hs & Hh & Hj)]; [now exists 0|].
    rewrite Hh in Hw. inversion Hw as [|x t [Hp _] _]; subst.
    rewrite Hj. now apply hpos_prefix.
  - intros Hok. clear Hi Hw Hreq. revert H.
    enough (Hinv : cexec v cfg evs (cinit r) = Some s ->
                   (client_inv s /\ open_state v cfg r (proc s)) /\
                   (stat (proc s) = Exited 2 -> refused s)) by (intros; tauto).
    apply (cexec_invariant v cfg
             (fun s => (client_inv s /\ open_state v cfg r (proc s)) /\
                       (stat (proc s) = Exited 2 -> refused s))
             no_injected); [|exact Hok|].
    + intros e s0 s1 He [[H1 H2] _] Hs. split; [split|].
      * eapply client_inv_step; eauto.
      * eapply open_state_step; eauto.
      * eapply refused_step; eauto.
    + split; [split; [apply client_inv_init|apply open_state_init]|].
      simpl. discriminate.
Qed.

(** ** The documented runs, with the client in them *)

(** The closed runs end in the states of the runs with the request and the
    signal put in by hand, and the client logs its two lines. *)
Example closed_timeout_observed :
  proc (cfinal GracefulTimeout src_config readme_rng closed_timeout_run)
    = final GracefulTimeout src_config readme_rng readme_timeout_run /\
  rev (clog (cli (cfinal GracefulTimeout src_config readme_rng closed_timeout_run)))
    = [CLReceived "job started"; CLSending SIGINT].
Proof. vm_compute. split; reflexivity. Qed.

Example closed_wrong_observed :
  proc (cfinal WrongSimply src_config readme_rng' closed_wrong_run)
    = final WrongSimply src_config readme_rng' readme_wrong_run /\
  rev (clog (cli (cfinal WrongSimply src_config readme_rng' closed_wrong_run)))
    = [CLReceived "job started"; CLSending SIGINT].
Proof. vm_compute. split; reflexivity. Qed.

Example closed_simple_observed :
  proc (cfinal GracefulSimple src_config readme_rng' closed_simple_run)
    = final GracefulSimple src_config readme_rng' readme_simple_run /\
  rev (clog (cli (cfinal GracefulSimple src_config readme_rng' closed_simple_run)))
    = [CLReceived "job started"; CLSending SIGINT].
Proof. vm_compute. split; reflexivity. Qed.

Example closed_refused_observed :
  stat (proc (cfinal GracefulSimple src_config [] closed_refused_run)) = Exited 2.
Proof. vm_compute. reflexivity. Qed.

(** * The count at the end, exit codes, repeated triggers, wrong-simply *)

(** ** Every go statement run is a job *)

Lemma dispatched_step v cfg e st st' :
  sumZ dispatched (handlers st) = Z.of_nat (List.length (jobs st)) ->
  step v cfg e st = Some st' ->
  sumZ dispatched (handlers st') = Z.of_nat (List.length (jobs st')).
Proof.
  intros Hd H.
  destruct (touches_tracker e) eqn:Ht.
  2:{ destruct (step_frame_tracker _ _ _ _ _ H Ht) as (E1 & E2 & _).
      now rewrite E1, E2. }
  destruct e; try discriminate Ht; clear Ht; step_cases H;
    unfold job_exit in *; sproj;
    repeat match goal with
    | |- context [match ?x with _ => _ end] => destruct x eqn:?
    end; sproj.
  all: rewrite ?length_upd; try assumption.
  all: rewrite ?(sumZ_upd dispatched _ _ _ _ Heqo), ?sumZ_app, ?length_app,
         ?Nat2Z.inj_add;
       unfold dispatched, h_ran, h_returned in *;
       cbn [hdone filter is_go sumZ List.length] in *; lia.
Qed.

Lemma dispatched_reachable v cfg r evs st :
  exec v cfg evs (init r) = Some st ->
  sumZ dispatched (handlers st) = Z.of_nat (List.length (jobs st)).
Proof.
  apply (exec_invariant v cfg
           (fun s => sumZ dispatched (handlers s) = Z.of_nat (List.length (jobs s)))).
  - intros e s s'. apply dispatched_step.
  - reflexivity.
Qed.

(** ** No shutdown coordination (C9) *)

(** C9. In wrong-simply nothing registers the units: [ServeHTTP] has no [Add]
    and [slowJob] no deferred [Done]; every [go] statement a handler has run
    is a job all the same, and the counter stays at zero.  When a signal
    reaches the live process in the second in which a unit was dispatched,
    the process ends at that very step by the default disposition, no step
    is possible afterwards, and the unit is there, outstanding: its goroutine
    is not over and has statements left, and the counter knows nothing of
    it. *)
Theorem C9_exit_with_units_outstanding cfg r evs st s j a :
  exec WrongSimply cfg evs (init r) = Some st ->
  stat st = Running ->
  nth_error (jobs st) j = Some a ->
  now st <= jborn a ->
  existsb is_add (ServeHTTP WrongSimply) = false /\
  existsb is_defer (slowJob WrongSimply) = false /\
  Z.of_nat (List.length (jobs st)) = sumZ dispatched (handlers st) /\
  exists st',
    step WrongSimply cfg (Sig s) st = Some st' /\
    stat st' = Killed s /\
    (forall e, step WrongSimply cfg e st' = None) /\
    nth_error (jobs st') j = Some a /\
    jended a = false /\ jrest a <> [] /\
    wg st' = 0%Z.
Proof.
  intros Hex Hst Hj Hb. split; [reflexivity|]. split; [reflexivity|].
  split; [symmetry; eapply dispatched_reachable; eauto|].
  destruct (wrong_reachable _ _ _ _ Hex) as [_ Hn].
  destruct (wrong_plain_reachable _ _ _ _ Hex) as (Hw & _).
  pose proof (time_reachable WrongSimply cfg r evs st eq_refl Hex Hst) as Ht.
  destruct (Forall_nth _ _ _ _ Ht Hj) as (T1 & _ & T3 & T4).
  unfold step. rewrite Hst. unfold deliver. rewrite Hn.
  eexists. split; [reflexivity|]. sproj.
  split; [reflexivity|]. split; [intros e; reflexivity|].
  split; [exact Hj|]. split; [|split; [|exact Hw]].
  - destruct (jended a); [|reflexivity]. specialize (T3 eq_refl). lia.
  - intros E. rewrite E in T4. simpl in T4. lia.
Qed.

(** ** The outstanding-work count (C3) *)

Lemma readme_timeout_final :
  exec GracefulTimeout src_config readme_timeout_run (init readme_rng) =
    Some (final GracefulTimeout src_config readme_rng readme_timeout_run).
Proof. vm_compute; reflexivity. Qed.

(** C3, as worded, fails: in the run of the README the grace-period variant
    ends by the return of main with four units begun and three over; the
    increment made for "job4 very slow" is never matched. *)
Lemma C3_counterexample : ~ every_unit_matched GracefulTimeout src_config.
Proof.
  intros H.
  specialize (H readme_rng readme_timeout_run _ readme_timeout_final).
  vm_compute in H. specialize (H eq_refl). discriminate H.
Qed.

Lemma job_exit_begun st j a : begun (job_exit j a st) = begun st.
Proof.
  unfold begun, job_exit. destruct (run_defers (jdefers a) (wg st)); sproj;
    reflexivity.
Qed.

(** C3, amended. In the variants that use the WaitGroup, in every reachable
    state the counter is not negative and equals the units begun minus the
    units that are over.  A unit that ends is matched by exactly one
    decrement, on either way out: a unit past its last statement can return,
    and its return takes one off the counter; a unit whose statement panics
    has run its [defer] first, and its deferred [wg.Done] takes one off the
    counter before the program ends; and a unit that is over runs nothing
    more.  In the simple graceful variant main returns only when every unit
    begun is over. *)
Theorem C3_units_matched_when_they_end v cfg r evs st :
  registers v = true ->
  exec v cfg evs (init r) = Some st ->
  (0 <= wg st)%Z /\
  wg st = (begun st - ended st)%Z /\
  (forall j a,
     nth_error (jobs st) j = Some a -> jended a = false -> stat st = Running ->
     (jrest a = [] ->
        exists st',
          step v cfg (JStep j) st = Some st' /\
          wg st' = (wg st - 1)%Z /\ ended st' = (ended st + 1)%Z /\
          begun st' = begun st /\ stat st' = Running) /\
     (forall s k, jrest a = s :: k -> s <> JDeferDone ->
        exists st',
          step v cfg (JPanic j) st = Some st' /\
          wg st' = (wg st - 1)%Z /\ ended st' = (ended st + 1)%Z /\
          begun st' = begun st /\ stat st' = Exited 2)) /\
  (forall j a,
     nth_error (jobs st) j = Some a -> jended a = true ->
     step v cfg (JStep j) st = None /\ step v cfg (JPanic j) st = None) /\
  (v = GracefulSimple -> stat st = Exited 0 -> ended st = begun st).
Proof.
  intros Hv Hex.
  pose proof (tracker_reachable _ _ _ _ _ Hv Hex) as Hinv.
  destruct (tracker_nonneg _ _ Hv Hinv) as [Hp Hl].
  pose proof (sumZ_live_nonneg (jobs st)).
  pose proof (tracker_balance _ _ Hinv) as Hbal.
  split; [lia|]. split; [exact Hbal|]. split; [|split].
  - intros j a Hj He Hst. split.
    + intros Hr.
      assert (Hs : step v cfg (JStep j) st = Some (job_exit j a st))
        by (unfold step, job_step; now rewrite Hst, Hj, He, Hr).
      destruct (return_decrements _ _ _ _ _ _ Hv Hinv Hj Hr Hs) as (A & B & C).
      eexists. split; [exact Hs|]. repeat split; auto using job_exit_begun.
    + intros s k Hr Hs.
      assert (Hp' : step v cfg (JPanic j) st = Some (crash (job_exit j a st)))
        by (unfold step, job_panic; rewrite Hst, Hj, He, Hr;
            destruct s; congruence).
      destruct (panic_decrements _ _ _ _ _ Hv Hinv Hp') as (A & B & C).
      eexists. split; [exact Hp'|]. repeat split; auto.
      unfold begun in *; sproj. apply job_exit_begun.
  - intros j a Hj He. unfold step, job_step, job_panic.
    destruct (stat st); auto; now rewrite Hj, He.
  - intros -> Hz.
    pose proof (main_reachable _ _ _ _ _ Hex) as Hm.
    pose proof (mi_zero _ Hm Hz) as Hpc.
    pose proof (simple_done_reachable _ _ _ _ Hex) as Hs.
    unfold simple_done_inv in Hs. rewrite Hpc in Hs. specialize (Hs ltac:(simpl; lia)).
    lia.
Qed.

(** ** Exit codes (C4) *)

Lemma In_main_lines st l : In l (main_lines st) -> In l (log st).
Proof.
  unfold main_lines. rewrite <- in_rev, filter_In. tauto.
Qed.

(** C4. In the graceful variants the exit code is 0 exactly when main has
    written its last line, which it does only after one of the two results
    of the wait; whichever case the [select] takes, the clean one or the
    timeout, the next step of main writes that last line and returns with
    code 0, and so does the simple variant when [wg.Wait()] returns; once a
    listen failure is logged the exit code is 1; and a failure to listen or to
    accept while main has not taken a signal ends the process at that very
    step with code 1: no step is possible afterwards and main has written no
    line of a shutdown sequence. *)
Theorem C4_exit_codes v cfg r evs st :
  registers v = true ->
  exec v cfg evs (init r) = Some st ->
  (stat st = Exited 0 <-> In LExiting (log st)) /\
  (In LExiting (log st) ->
     In LJobsFinished (log st) \/ In LWaitTimeout (log st)) /\
  (forall c st1,
     step v cfg (Select c) st = Some st1 ->
     exists st2,
       step v cfg MainStep st1 = Some st2 /\ stat st2 = Exited 0 /\
       log st2 = LExiting :: result_line c :: log st) /\
  (mainpc st = PcWait -> stat st = Running -> wg st = 0%Z ->
     exists st1 st2,
       step v cfg MainStep st = Some st1 /\
       step v cfg MainStep st1 = Some st2 /\ stat st2 = Exited 0 /\
       log st2 = LExiting :: LJobsFinished :: log st) /\
  (In LListenFailed (log st) -> stat st = Exited 1) /\
  (forall e st',
     e = Listen false \/ e = AcceptErr ->
     phase (mainpc st) = 0 ->
     step v cfg e st = Some st' ->
     stat st' = Exited 1 /\ In LListenFailed (log st') /\
     (forall e', step v cfg e' st' = None) /\
     main_lines st' = []).
Proof.
  intros Hv Hex. pose proof (main_reachable _ _ _ _ _ Hex) as Hm.
  destruct (script_reachable _ _ _ _ _ Hex) as (s & res & _ & _ & Hl).
  assert (Hend : In LExiting (log st) -> mainpc st = PcEnd).
  { intros Hin.
    pose proof (In_allowed _ _ _ (mi_log _ Hm) Hin) as Ha. cbn [allowed] in Ha.
    apply Nat.leb_le in Ha.
    destruct (mainpc st); simpl in Ha; try lia; reflexivity. }
  split; [|split; [|split; [|split; [|split]]]].
  - split.
    + intros Hz. pose proof (mi_zero _ Hm Hz) as Hpc.
      apply In_main_lines. rewrite Hl, Hpc. simpl. tauto.
    + intros Hin. exact (mi_end _ Hm (Hend Hin)).
  - intros Hin. apply (mi_result _ Hm). rewrite (Hend Hin). simpl. lia.
  - intros c st1 H. step_cases H; unfold step; sproj; rewrite Heqs0;
      unfold main_step; sproj; (eexists; split; [reflexivity|]); sproj;
      split; reflexivity.
  - intros Hpc Hst Hw. unfold step. rewrite Hst. unfold main_step.
    rewrite Hpc, Hw. simpl. eexists; eexists. split; [reflexivity|]. sproj.
    rewrite Hst. split; [reflexivity|]. sproj. split; reflexivity.
  - intros Hin. apply (mi_fail _ Hm). auto.
  - intros e st' He Hph H.
    pose proof (mi_shut _ Hm) as Hsh. rewrite Hph in Hsh. simpl in Hsh.
    assert (Hml : main_lines st = []).
    { rewrite Hl. destruct (mainpc st); simpl in *; try discriminate;
        reflexivity. }
    unfold main_lines in *.
    destruct He as [-> | ->]; step_cases H; sproj;
      try congruence; try discriminate Hv.
    all: (split; [reflexivity|]); (split; [simpl; auto|]);
      (split; [intros e'; reflexivity|]); simpl; exact Hml.
Qed.

(** ** Repeated triggers (C8) *)


(** After the two dropped signals no shutdown sequence starts, whatever else
    happens, until a third signal arrives. *)
Lemma early_triggers_never_honoured evs st :
  triggers evs = 0 ->
  exec GracefulTimeout src_config (early_triggers_run ++ evs) (init []) = Some st ->
  mainpc st = PcParked /\ received_count (log st) = 0.
Proof.
  intros Ht H.
  assert (Hpc : mainpc st = PcParked).
  { rewrite exec_app, early_triggers_final in H.
    eapply parked_forever; [|exact Ht|exact H]. vm_compute; reflexivity. }
  split; [exact Hpc|].
  pose proof (mi_recv _ (main_reachable _ _ _ _ _ H)) as Hr.
  rewrite Hpc in Hr. exact Hr.
Qed.

(** X15.  At most one shutdown sequence.  In every execution the line
    "received signal" is written at most once; once main has taken a signal,
    a further signal changes neither its position, nor the signal it acts
    on, nor the log, nor the status of the process; and a signal that arrives
    while main is blocked on [termChan] is taken: the next step of main
    writes "received signal" for it, the only such line. *)
Theorem at_most_one_shutdown v cfg r evs st :
  exec v cfg evs (init r) = Some st ->
  received_count (log st) <= 1 /\
  (1 <= phase (mainpc st) ->
     forall s st',
       step v cfg (Sig s) st = Some st' ->
       mainpc st' = mainpc st /\ sig st' = sig st /\
       log st' = log st /\ stat st' = stat st) /\
  (mainpc st = PcParked -> stat st = Running ->
     forall s, exists st1 st2,
       step v cfg (Sig s) st = Some st1 /\
       step v cfg MainStep st1 = Some st2 /\
       log st2 = LReceived s :: log st /\ received_count (log st2) = 1).
Proof.
  intros Hex. pose proof (main_reachable _ _ _ _ _ Hex) as Hm.
  split; [|split].
  - rewrite (mi_recv _ Hm). destruct (2 <=? progress (mainpc st)); lia.
  - intros Hph s st' H.
    pose proof (mi_notified _ Hm) as Hn.
    assert (past_notify (mainpc st) = true)
      by (destruct (mainpc st); simpl in *; try lia; reflexivity).
    step_cases H; sproj; auto; simpl in Hph; try lia; congruence.
  - intros Hpc Hst s.
    pose proof (mi_notified _ Hm) as Hn. rewrite Hpc in Hn. simpl in Hn.
    pose proof (mi_recv _ Hm) as Hr. rewrite Hpc in Hr. simpl in Hr.
    unfold step. rewrite Hst. unfold deliver. rewrite Hn, Hpc.
    eexists; eexists. split; [reflexivity|]. sproj.
    unfold main_step; sproj. rewrite Hst. split; [reflexivity|]. sproj.
    unfold received_count in *; simpl. split; [reflexivity | lia].
Qed.

(** * The further properties at the states of the documented runs *)

Lemma no_new_work_after_drain_witness :
  registers GracefulTimeout = true /\
  exec GracefulTimeout src_config select_entered_run (init readme_rng)
    = Some st_select /\
  drained_pc (mainpc st_select) = true /\
  (forallb hret (handlers st_select) = true /\
   step GracefulTimeout src_config Req st_select = None /\
   (forall h, step GracefulTimeout src_config (HStep h) st_select = None) /\
   wg st_select = sumZ live (jobs st_select) /\
   (forall e st',
      step GracefulTimeout src_config e st_select = Some st' ->
      (wg st' <= wg st_select)%Z /\
      List.length (jobs st') = List.length (jobs st_select))).
Proof.
  split; [reflexivity|]. split; [vm_compute; reflexivity|].
  split; [reflexivity|].
  apply (no_new_work_after_drain GracefulTimeout src_config readme_rng
           select_entered_run st_select);
    [reflexivity | vm_compute; reflexivity | reflexivity].
Defined.

Lemma simple_exit_leaves_no_job_witness :
  exec GracefulSimple src_config readme_simple_run (init readme_rng')
    = Some st_simple_done /\
  stat st_simple_done = Exited 0 /\
  (wg st_simple_done = 0%Z /\ all_over st_simple_done /\
   forallb hret (handlers st_simple_done) = true).
Proof.
  split; [vm_compute; reflexivity|]. split; [reflexivity|].
  apply (simple_exit_leaves_no_job src_config readme_rng' readme_simple_run
           st_simple_done);
    [vm_compute; reflexivity | right; reflexivity].
Defined.

Lemma canceled_means_all_finished_witness :
  exec GracefulTimeout src_config canceled_run (init readme_rng)
    = Some st_canceled /\
  ctxJobs st_canceled = Some ctx_canceled /\
  cerr ctx_canceled = Some Canceled /\
  (wg st_canceled = 0%Z /\ all_over st_canceled /\
   forallb hret (handlers st_canceled) = true).
Proof.
  split; [vm_compute; reflexivity|]. split; [reflexivity|].
  split; [reflexivity|].
  apply (canceled_means_all_finished src_config readme_rng canceled_run
           st_canceled ctx_canceled);
    [vm_compute; reflexivity | reflexivity | reflexivity].
Defined.

Lemma early_result_means_finished_witness :
  exec GracefulTimeout src_config (in_shutdown_run ++ [ShutdownReturn false])
    (init readme_rng) = Some st_after_shutdown /\
  mainpc st_after_shutdown = PcAfterShutdown /\
  exec GracefulTimeout src_config (MainStep :: grace_events) st_after_shutdown
    = Some st_grace_over /\
  step GracefulTimeout src_config (Select CaseAfter) st_grace_over
    = Some st_timed_out /\
  ((CaseAfter = CaseAfter -> gracePeriod src_config <= tick_count grace_events) /\
   (tick_count grace_events < gracePeriod src_config ->
      CaseAfter = CaseDone /\ wg st_grace_over = 0%Z /\ all_over st_grace_over)).
Proof.
  split; [vm_compute; reflexivity|]. split; [reflexivity|].
  split; [vm_compute; reflexivity|]. split; [vm_compute; reflexivity|].
  apply (early_result_means_finished src_config readme_rng
           (in_shutdown_run ++ [ShutdownReturn false]) st_after_shutdown
           grace_events st_grace_over CaseAfter st_timed_out);
    [vm_compute; reflexivity | reflexivity | vm_compute; reflexivity
    | vm_compute; reflexivity].
Defined.

Lemma drain_deadline_not_early_witness :
  exec GracefulTimeout src_config before_shutdown_run (init readme_rng)
    = Some st_before_shutdown /\
  mainpc st_before_shutdown = PcLogged /\
  exec GracefulTimeout src_config (MainStep :: drain_events) st_before_shutdown
    = Some st_drain_late /\
  step GracefulTimeout src_config ShutdownTimeout st_drain_late
    = Some st_drain_failed /\
  (drainDeadline src_config <= tick_count drain_events /\
   log st_drain_failed = LShutdownFailed :: log st_drain_late /\
   ~ In LWaitingJobs (log st_drain_failed) /\
   stat st_drain_failed = Exited 1).
Proof.
  split; [vm_compute; reflexivity|]. split; [reflexivity|].
  split; [vm_compute; reflexivity|]. split; [vm_compute; reflexivity|].
  apply (drain_deadline_not_early GracefulTimeout src_config readme_rng
           before_shutdown_run st_before_shutdown drain_events st_drain_late
           st_drain_failed);
    [vm_compute; reflexivity | reflexivity | vm_compute; reflexivity
    | vm_compute; reflexivity].
Defined.

Lemma notified_process_is_not_killed_witness :
  exec GracefulTimeout src_config parked_run (init readme_rng) = Some st_parked /\
  ((forall s, stat st_parked = Killed s -> past_notify (mainpc st_parked) = false) /\
   (past_notify (mainpc st_parked) = true ->
      forall s st',
        step GracefulTimeout src_config (Sig s) st_parked = Some st' ->
        stat st' = Running /\ wg st' = wg st_parked /\
        handlers st' = handlers st_parked /\
        jobs st' = jobs st_parked /\ log st' = log st_parked)).
Proof.
  split; [vm_compute; reflexivity|].
  apply (notified_process_is_not_killed GracefulTimeout src_config readme_rng
           parked_run st_parked).
  vm_compute; reflexivity.
Defined.

Lemma wrong_simply_outcomes_witness :
  exec WrongSimply src_config dispatched_run (init readme_rng')
    = Some st_dispatched /\
  (stat st_dispatched <> Exited 0 /\
   forallb wrong_line (log st_dispatched) = true /\
   (stat st_dispatched = Exited 1 <-> In LHTTPDown (log st_dispatched)) /\
   wg st_dispatched = 0%Z).
Proof.
  split; [vm_compute; reflexivity|].
  apply (wrong_simply_outcomes src_config readme_rng' dispatched_run
           st_dispatched).
  vm_compute; reflexivity.
Defined.

Lemma main_lines_follow_script_witness :
  exec GracefulTimeout src_config select_entered_run (init readme_rng)
    = Some st_select /\
  exists s res n,
    (res = LJobsFinished \/ (res = LWaitTimeout /\ GracefulTimeout = GracefulTimeout)) /\
    (main_lines st_select = firstn n (script s res) \/
     main_lines st_select = script_failed s) /\
    (main_lines st_select <> [] -> sig st_select = Some s).
Proof.
  split; [vm_compute; reflexivity|].
  apply (main_lines_follow_script GracefulTimeout src_config readme_rng
           select_entered_run st_select).
  vm_compute; reflexivity.
Defined.


Lemma sleeping_job_wakes_in_bound_witness :
  exec GracefulTimeout src_config select_entered_run (init readme_rng)
    = Some st_select /\
  nth_error (jobs st_select) 1 = Some job2_asleep /\
  (jborn job2_asleep <= now st_select /\ dur_ok GracefulTimeout job2_asleep /\
   forall w, jwake job2_asleep = Some w ->
             jborn job2_asleep < w /\
             w <= now st_select + max_sleep GracefulTimeout job2_asleep).
Proof.
  split; [vm_compute; reflexivity|]. split; [reflexivity|].
  apply (sleeping_job_wakes_in_bound GracefulTimeout src_config readme_rng
           select_entered_run st_select 1 job2_asleep);
    [vm_compute; reflexivity | reflexivity].
Defined.

Lemma waitgroup_never_panics_witness :
  exec GracefulTimeout src_config select_entered_run (init readme_rng)
    = Some st_select /\
  ((0 <= wg st_select)%Z /\
   Forall (fun hs => hret hs = true -> hrest hs = []) (handlers st_select) /\
   forall e st',
     step GracefulTimeout src_config e st_select = Some st' ->
     stat st' = Exited 2 -> is_crash e = true).
Proof.
  split; [vm_compute; reflexivity|].
  apply (waitgroup_never_panics GracefulTimeout src_config readme_rng
           select_entered_run st_select).
  vm_compute; reflexivity.
Defined.

Lemma signal_follows_response_witness :
  cexec GracefulTimeout src_config closed_timeout_run (cinit readme_rng)
    = Some st_closed_done /\
  In (CLSending SIGINT) (clog (cli st_closed_done)) /\
  (3 <= now (proc st_closed_done) /\
   rev (clog (cli st_closed_done)) = [CLReceived "job started"; CLSending SIGINT] /\
   exists hs, handlers (proc st_closed_done) = [hs] /\ hret hs = true /\
              hdone hs = rev (ServeHTTP GracefulTimeout) /\
              map jname (jobs (proc st_closed_done))
              = go_names (ServeHTTP GracefulTimeout)).
Proof.
  split; [vm_compute; reflexivity|]. split; [left; reflexivity|].
  apply (signal_follows_response GracefulTimeout src_config readme_rng
           closed_timeout_run st_closed_done);
    [vm_compute; reflexivity | left; reflexivity].
Defined.

Lemma only_the_client_signals_witness :
  cexec GracefulTimeout src_config closed_timeout_run (cinit readme_rng)
    = Some st_closed_done /\
  sig (proc st_closed_done) <> None /\
  (crest (cli st_closed_done) = [] /\
   In (CLSending SIGINT) (clog (cli st_closed_done)) /\
   only_sigint (proc st_closed_done) /\
   3 <= now (proc st_closed_done) /\
   forallb hret (handlers (proc st_closed_done)) = true).
Proof.
  split; [vm_compute; reflexivity|]. split; [discriminate|].
  apply (only_the_client_signals GracefulTimeout src_config readme_rng
           closed_timeout_run st_closed_done);
    [vm_compute; reflexivity | left; discriminate].
Defined.

Lemma closed_run_has_one_request_witness :
  cexec GracefulSimple src_config closed_refused_run (cinit [])
    = Some st_closed_refused /\
  (List.length (handlers (proc st_closed_refused)) <= 1 /\
   (exists k, map jname (jobs (proc st_closed_refused))
              = firstn k (go_names (ServeHTTP GracefulSimple))) /\
   (forallb no_injected closed_refused_run = true ->
    stat (proc st_closed_refused) = Exited 2 -> refused st_closed_refused)).
Proof.
  split; [vm_compute; reflexivity|].
  apply (closed_run_has_one_request GracefulSimple src_config []
           closed_refused_run st_closed_refused).
  vm_compute; reflexivity.
Defined.

(** The count: job1 of the README run about to return, job2 asleep. *)
Lemma C3_witness :
  registers GracefulTimeout = true /\
  exec GracefulTimeout src_config leaving_run (init readme_rng) = Some st_leaving /\
  stat st_leaving = Running /\
  ((0 <= wg st_leaving)%Z /\
   wg st_leaving = (begun st_leaving - ended st_leaving)%Z) /\
  (nth_error (jobs st_leaving) 0 = Some job1_leaving /\
   jended job1_leaving = false /\ jrest job1_leaving = [] /\
   exists st',
     step GracefulTimeout src_config (JStep 0) st_leaving = Some st' /\
     wg st' = (wg st_leaving - 1)%Z /\ ended st' = (ended st_leaving + 1)%Z /\
     begun st' = begun st_leaving /\ stat st' = Running) /\
  (nth_error (jobs st_leaving) 1 = Some job2_sleeping /\
   jended job2_sleeping = false /\
   jrest job2_sleeping = [JSleepArg; JLogFinished] /\
   exists st',
     step GracefulTimeout src_config (JPanic 1) st_leaving = Some st' /\
     wg st' = (wg st_leaving - 1)%Z /\ ended st' = (ended st_leaving + 1)%Z /\
     begun st' = begun st_leaving /\ stat st' = Exited 2).
Proof.
  assert (Hex : exec GracefulTimeout src_config leaving_run (init readme_rng)
                = Some st_leaving) by (vm_compute; reflexivity).
  destruct (C3_units_matched_when_they_end GracefulTimeout src_config
              readme_rng leaving_run st_leaving eq_refl Hex)
    as (A & B & C & _).
  split; [reflexivity|]. split; [exact Hex|]. split; [reflexivity|].
  split; [split; [exact A | exact B]|]. split.
  - split; [reflexivity|]. split; [reflexivity|]. split; [reflexivity|].
    destruct (C 0 job1_leaving eq_refl eq_refl eq_refl) as [Hret _].
    exact (Hret eq_refl).
  - split; [reflexivity|]. split; [reflexivity|]. split; [reflexivity|].
    destruct (C 1 job2_sleeping eq_refl eq_refl eq_refl) as [_ Hpan].
    apply (Hpan JSleepArg [JLogFinished] eq_refl). discriminate.
Defined.

(** The exit codes: the timeout and the clean end of the grace-period
    variant, the end of the simple variant, the README run at its end, and a
    failure of the accept loop while main waits for a signal. *)
Lemma C4_witness :
  registers GracefulTimeout = true /\ registers GracefulSimple = true /\
  (exec GracefulTimeout src_config grace_over_run (init readme_rng)
     = Some st_grace_over /\
   step GracefulTimeout src_config (Select CaseAfter) st_grace_over
     = Some st_timed_out /\
   exists st2,
     step GracefulTimeout src_config MainStep st_timed_out = Some st2 /\
     stat st2 = Exited 0 /\
     log st2 = LExiting :: result_line CaseAfter :: log st_grace_over) /\
  (exec GracefulTimeout src_config canceled_run (init readme_rng)
     = Some st_canceled /\
   step GracefulTimeout src_config (Select CaseDone) st_canceled
     = Some st_reported_done /\
   exists st2,
     step GracefulTimeout src_config MainStep st_reported_done = Some st2 /\
     stat st2 = Exited 0 /\
     log st2 = LExiting :: result_line CaseDone :: log st_canceled) /\
  (exec GracefulSimple src_config wait_done_run (init readme_rng')
     = Some st_wait_done /\
   mainpc st_wait_done = PcWait /\ stat st_wait_done = Running /\
   wg st_wait_done = 0%Z /\
   exists st1 st2,
     step GracefulSimple src_config MainStep st_wait_done = Some st1 /\
     step GracefulSimple src_config MainStep st1 = Some st2 /\
     stat st2 = Exited 0 /\
     log st2 = LExiting :: LJobsFinished :: log st_wait_done) /\
  (exec GracefulTimeout src_config readme_timeout_run (init readme_rng)
     = Some st_exit_degraded /\
   (stat st_exit_degraded = Exited 0 <-> In LExiting (log st_exit_degraded)) /\
   stat st_exit_degraded = Exited 0 /\
   (In LJobsFinished (log st_exit_degraded) \/
    In LWaitTimeout (log st_exit_degraded))) /\
  (exec GracefulTimeout src_config parked_run (init readme_rng) = Some st_parked /\
   phase (mainpc st_parked) = 0 /\
   step GracefulTimeout src_config AcceptErr st_parked = Some st_accept_err /\
   stat st_accept_err = Exited 1 /\ In LListenFailed (log st_accept_err) /\
   (forall e', step GracefulTimeout src_config e' st_accept_err = None) /\
   main_lines st_accept_err = []).
Proof.
  split; [reflexivity|]. split; [reflexivity|].
  split; [|split; [|split; [|split]]].
  - assert (Hex : exec GracefulTimeout src_config grace_over_run (init readme_rng)
                  = Some st_grace_over) by (vm_compute; reflexivity).
    assert (Hs : step GracefulTimeout src_config (Select CaseAfter) st_grace_over
                 = Some st_timed_out) by (vm_compute; reflexivity).
    destruct (C4_exit_codes GracefulTimeout src_config readme_rng grace_over_run
                st_grace_over eq_refl Hex) as (_ & _ & C & _).
    split; [exact Hex|]. split; [exact Hs|]. exact (C CaseAfter _ Hs).
  - assert (Hex : exec GracefulTimeout src_config canceled_run (init readme_rng)
                  = Some st_canceled) by (vm_compute; reflexivity).
    assert (Hs : step GracefulTimeout src_config (Select CaseDone) st_canceled
                 = Some st_reported_done) by (vm_compute; reflexivity).
    destruct (C4_exit_codes GracefulTimeout src_config readme_rng canceled_run
                st_canceled eq_refl Hex) as (_ & _ & C & _).
    split; [exact Hex|]. split; [exact Hs|]. exact (C CaseDone _ Hs).
  - assert (Hex : exec GracefulSimple src_config wait_done_run (init readme_rng')
                  = Some st_wait_done) by (vm_compute; reflexivity).
    destruct (C4_exit_codes GracefulSimple src_config readme_rng' wait_done_run
                st_wait_done eq_refl Hex) as (_ & _ & _ & D & _).
    split; [exact Hex|]. split; [reflexivity|]. split; [reflexivity|].
    split; [reflexivity|]. exact (D eq_refl eq_refl eq_refl).
  - assert (Hex : exec GracefulTimeout src_config readme_timeout_run
                    (init readme_rng) = Some st_exit_degraded)
      by (vm_compute; reflexivity).
    destruct (C4_exit_codes GracefulTimeout src_config readme_rng
                readme_timeout_run st_exit_degraded eq_refl Hex)
      as (A & B & _).
    split; [exact Hex|]. split; [exact A|]. split; [reflexivity|].
    apply B. apply A. reflexivity.
  - assert (Hex : exec GracefulTimeout src_config parked_run (init readme_rng)
                  = Some st_parked) by (vm_compute; reflexivity).
    assert (Hs : step GracefulTimeout src_config AcceptErr st_parked
                 = Some st_accept_err) by (vm_compute; reflexivity).
    destruct (C4_exit_codes GracefulTimeout src_config readme_rng parked_run
                st_parked eq_refl Hex) as (_ & _ & _ & _ & _ & F).
    split; [exact Hex|]. split; [reflexivity|]. split; [exact Hs|].
    exact (F AcceptErr st_accept_err (or_intror eq_refl) eq_refl Hs).
Defined.

(** wrong-simply, right after the three jobs were dispatched: the signal ends
    the process with job1 outstanding. *)
Lemma C9_witness :
  exec WrongSimply src_config dispatched_run (init readme_rng') = Some st_dispatched /\
  stat st_dispatched = Running /\
  nth_error (jobs st_dispatched) 0 = Some job1_dispatched /\
  now st_dispatched <= jborn job1_dispatched /\
  (existsb is_add (ServeHTTP WrongSimply) = false /\
   existsb is_defer (slowJob WrongSimply) = false /\
   Z.of_nat (List.length (jobs st_dispatched))
   = sumZ dispatched (handlers st_dispatched) /\
   exists st',
     step WrongSimply src_config (Sig SIGINT) st_dispatched = Some st' /\
     stat st' = Killed SIGINT /\
     (forall e, step WrongSimply src_config e st' = None) /\
     nth_error (jobs st') 0 = Some job1_dispatched /\
     jended job1_dispatched = false /\ jrest job1_dispatched <> [] /\
     wg st' = 0%Z) /\
  List.length (jobs st_dispatched) = 3.
Proof.
  split; [vm_compute; reflexivity|]. split; [reflexivity|].
  split; [reflexivity|]. split; [vm_compute; lia|].
  split; [|reflexivity].
  apply (C9_exit_with_units_outstanding src_config readme_rng' dispatched_run
           st_dispatched SIGINT 0 job1_dispatched);
    [vm_compute; reflexivity | reflexivity | reflexivity | vm_compute; lia].
Defined.

(** At most one shutdown sequence: a second signal when main has written
    "received signal", and the signal that finds main blocked. *)
Lemma at_most_one_shutdown_witness :
  (exec GracefulTimeout src_config (parked_run ++ [Sig SIGINT; MainStep])
     (init readme_rng) = Some st_shutting_down /\
   1 <= phase (mainpc st_shutting_down) /\
   received_count (log st_shutting_down) <= 1 /\
   forall s st',
     step GracefulTimeout src_config (Sig s) st_shutting_down = Some st' ->
     mainpc st' = mainpc st_shutting_down /\ sig st' = sig st_shutting_down /\
     log st' = log st_shutting_down /\ stat st' = stat st_shutting_down) /\
  (exec GracefulTimeout src_config parked_run (init readme_rng) = Some st_parked /\
   mainpc st_parked = PcParked /\ stat st_parked = Running /\
   forall s, exists st1 st2,
     step GracefulTimeout src_config (Sig s) st_parked = Some st1 /\
     step GracefulTimeout src_config MainStep st1 = Some st2 /\
     log st2 = LReceived s :: log st_parked /\ received_count (log st2) = 1).
Proof.
  split.
  - assert (Hex : exec GracefulTimeout src_config
                    (parked_run ++ [Sig SIGINT; MainStep]) (init readme_rng)
                  = Some st_shutting_down) by (vm_compute; reflexivity).
    destruct (at_most_one_shutdown GracefulTimeout src_config readme_rng _ _ Hex)
      as (A & B & _).
    split; [exact Hex|]. split; [vm_compute; lia|]. split; [exact A|].
    apply B. vm_compute; lia.
  - assert (Hex : exec GracefulTimeout src_config parked_run (init readme_rng)
                  = Some st_parked) by (vm_compute; reflexivity).
    destruct (at_most_one_shutdown GracefulTimeout src_config readme_rng _ _ Hex)
      as (_ & _ & C).
    split; [exact Hex|]. split; [reflexivity|]. split; [reflexivity|].
    exact (C eq_refl eq_refl).
Defined.
